(** * secretShare: the secret lifecycle and its admission control

    A shallow embedding of [src/lib/rate-limit.ts] and of the secret router
    [src/server/routers/secrets.ts] (with the [protectedProcedure] middleware
    of [src/server/trpc.ts] and the schema of [prisma/schema.prisma]),
    followed by the properties of the specification that concern them.

    Numbers are JavaScript numbers holding integers far below 2^53
    (millisecond timestamps, request counters): they are modelled by [Z].
    The [Map] of the rate limiter is a [gmap]; a database table is the list
    of its rows in insertion order. *)

From Stdlib Require Import ZArith Lia Ascii String.
From stdpp Require Import gmap strings list fin_maps sorting.

Open Scope Z_scope.

(** ** JavaScript truthiness of the values the handlers test *)

(** [if (s)] on [string | null | undefined]: the empty string is falsy. *)
Definition truthy (o : option string) : bool :=
  match o with
  | Some s => negb (String.eqb s EmptyString)
  | None => false
  end.

(** [a || b] on such values. *)
Definition or_else (a b : option string) : option string :=
  if truthy a then a else b.

(** ** The request object, as far as the handlers read it *)

(** [req.headers]: header names are case-insensitive and kept in lower case;
    [headers.get(name)] is the lookup. *)
Record Request := mkRequest { headers : gmap string string }.

Definition headers_get (r : Request) (name : string) : option string :=
  headers r !! name.

(** The part of [s] before its first comma: [s.split(",")[0]]. *)
Fixpoint before_comma (s : string) : string :=
  match s with
  | EmptyString => EmptyString
  | String c r => if Ascii.eqb c ","%char then EmptyString else String c (before_comma r)
  end.

(** White space removed by [trim()].  A header value is a byte string, so
    its characters are the code points 0 to 255; those that [trim()] strips
    are tab, line feed, vertical tab, form feed, carriage return, space and
    the no-break space U+00A0. *)
Definition is_white (c : ascii) : bool :=
  let n := nat_of_ascii c in
  (Nat.eqb n 32 || (Nat.leb 9 n && Nat.leb n 13) || Nat.eqb n 160)%bool.

Fixpoint trimStart (s : string) : string :=
  match s with
  | EmptyString => EmptyString
  | String c r => if is_white c then trimStart r else s
  end.

Definition trim (s : string) : string :=
  String.rev (trimStart (String.rev (trimStart s))).

(** ** [src/lib/rate-limit.ts] *)

Module RateLimit.

Record RateLimitEntry := mkEntry { count : Z; resetTime : Z }.

(** The object returned by [check]; its [resetTime] field is [res_resetTime]
    here, the name being taken by the entry. *)
Record CheckResult := mkResult {
  allowed : bool;
  remainingRequests : Z;
  res_resetTime : Z
}.

Record RateLimiter := mkLimiter {
  store : gmap string RateLimitEntry;
  windowMs : Z;
  maxRequests : Z
}.

Definition set_store (rl : RateLimiter) (m : gmap string RateLimitEntry) : RateLimiter :=
  {| store := m; windowMs := windowMs rl; maxRequests := maxRequests rl |}.

(** [new RateLimiter(windowMs, maxRequests)] *)
Definition new (w n : Z) : RateLimiter :=
  {| store := ∅; windowMs := w; maxRequests := n |}.

(** The first branch of [check]: "New window or expired entry". *)
Definition newWindow (now : Z) (identifier : string) (rl : RateLimiter)
  : RateLimiter * CheckResult :=
  let newEntry := {| count := 1; resetTime := now + windowMs rl |} in
  (set_store rl (<[identifier := newEntry]> (store rl)),
   {| allowed := true;
      remainingRequests := maxRequests rl - 1;
      res_resetTime := resetTime newEntry |}).

(** [check(identifier)], with [now] the value of [Date.now()].  The entry
    read from the map is the object stored in it, so [entry.count++] already
    changes the bucket; the [store.set] that follows stores it again. *)
Definition check (now : Z) (identifier : string) (rl : RateLimiter)
  : RateLimiter * CheckResult :=
  match store rl !! identifier with
  | None => newWindow now identifier rl
  | Some entry =>
      if now >? resetTime entry then newWindow now identifier rl
      else if count entry >=? maxRequests rl then
        (rl,
         {| allowed := false;
            remainingRequests := 0;
            res_resetTime := resetTime entry |})
      else
        let entry' := {| count := count entry + 1; resetTime := resetTime entry |} in
        (set_store rl (<[identifier := entry']> (store rl)),
         {| allowed := true;
            remainingRequests := maxRequests rl - count entry';
            res_resetTime := resetTime entry' |})
  end.

(** [cleanup()], the sweep run by [setInterval]. *)
Definition cleanup (now : Z) (rl : RateLimiter) : RateLimiter :=
  set_store rl (filter (λ kv, ¬ (now > resetTime kv.2)) (store rl)).

(** The four limiters of the module. *)
Definition generalRateLimit := new (15 * 60 * 1000) 100.
Definition secretCreateRateLimit := new (60 * 60 * 1000) 10.
Definition secretAccessRateLimit := new (5 * 60 * 1000) 20.
Definition authRateLimit := new (15 * 60 * 1000) 5.

(** [getClientIdentifier(req)] *)
Definition getClientIdentifier (r : Request) : string :=
  let forwarded := headers_get r "x-forwarded-for" in
  let realIp := headers_get r "x-real-ip" in
  if truthy forwarded then trim (before_comma (default EmptyString forwarded))
  else if truthy realIp then default EmptyString realIp
  else "unknown".

(** Successive calls of [check] for one identifier, at the given times. *)
Fixpoint checks (identifier : string) (times : list Z) (rl : RateLimiter)
  : RateLimiter * list CheckResult :=
  match times with
  | [] => (rl, [])
  | t :: ts =>
      let '(rl1, r) := check t identifier rl in
      let '(rl2, rs) := checks identifier ts rl1 in
      (rl2, r :: rs)
  end.

(** A request opens a window when the bucket is missing or has run out. *)
Definition opens_window (now : Z) (identifier : string) (rl : RateLimiter) : Prop :=
  match store rl !! identifier with
  | Some entry => now > resetTime entry
  | None => True
  end.

End RateLimit.

(** ** What a handler can throw *)

Inductive Code := BAD_REQUEST | UNAUTHORIZED | FORBIDDEN | NOT_FOUND | TOO_MANY_REQUESTS.

(** Rejections of the persistence client: a unique constraint violated
    (P2002), the record of an update or delete missing (P2025), or the store
    not answering. *)
Inductive PrismaFailure := UniqueConstraintFailed | RecordNotFound | StoreUnavailable.

Inductive Thrown :=
| TRPCError (code : Code) (message : string)
| PrismaError (failure : PrismaFailure).

Inductive Outcome (A : Type) :=
| Return (a : A)
| Throw (e : Thrown).
Arguments Return {A} a.
Arguments Throw {A} e.

(** The [code] of a thrown [TRPCError], if that is what was thrown. *)
Definition thrown_code {A} (o : Outcome A) : option Code :=
  match o with
  | Throw (TRPCError c _) => Some c
  | _ => None
  end.

Definition is_Return {A} (o : Outcome A) : bool :=
  match o with Return _ => true | Throw _ => false end.

(** ** The tables of [prisma/schema.prisma] *)

Module Secret.
Record t := mk {
  id : string;
  title : option string;
  content : string;
  slug : string;
  password : option string;
  expiresAt : option Z;
  isOneTimeAccess : bool;
  hasBeenAccessed : bool;
  createdAt : Z;
  updatedAt : Z;
  userId : option string
}.
End Secret.

Module AccessLog.
Record t := mk {
  id : string;
  secretId : string;
  ipAddress : option string;
  userAgent : option string;
  accessedAt : Z
}.
End AccessLog.

Record Db := mkDb {
  secrets : list Secret.t;
  accessLogs : list AccessLog.t
}.

(** The process: the database and the two limiters the secret router uses. *)
Record Server := mkServer {
  db : Db;
  secretCreateRateLimit : RateLimit.RateLimiter;
  secretAccessRateLimit : RateLimit.RateLimiter
}.

Definition initial : Server :=
  {| db := {| secrets := []; accessLogs := [] |};
     secretCreateRateLimit := RateLimit.secretCreateRateLimit;
     secretAccessRateLimit := RateLimit.secretAccessRateLimit |}.

(** What one request reads from outside the program: the clock ([Date.now()],
    [new Date()] and the timestamps of the store, taken as one instant per
    request), the identifiers drawn by [nanoid(12)] (the [k]-th call of the
    request returns [nanoid k]) and by [cuid()], and whether the insertion
    into [access_logs] is rejected by the store.  The other persistence calls
    are taken to be answered; what they reject follows from the schema. *)
Record Env := mkEnv {
  now : Z;
  nanoid : nat → string;
  cuid : string;
  accessLogFails : bool
}.

(** [Context] of [src/server/trpc.ts] *)
Record User := mkUser { user_id : string; email : string }.
Record Context := mkContext { req : option Request; user : option User }.

(** [bcryptjs]: [hash(password, 12)] and [compare(password, hash)]. *)
Class Bcrypt := {
  bcrypt_hash : string → string;
  bcrypt_compare : string → string → bool
}.

(** ** Handlers run in a state monad over [Server] that can throw; what a
    handler did before it throws stays done. *)

Definition M (A : Type) : Type := Server → Server * Outcome A.

Global Instance M_ret : MRet M := λ A a sv, (sv, Return a).
Global Instance M_bind : MBind M := λ A B f m sv,
  match m sv with
  | (sv1, Return a) => f a sv1
  | (sv1, Throw e) => (sv1, Throw e)
  end.
Global Instance M_throw : MThrow Thrown M := λ A e sv, (sv, Throw e).

Definition get_db : M Db := λ sv, (sv, Return (db sv)).
Definition put_db (d : Db) : M unit := λ sv,
  ({| db := d;
      secretCreateRateLimit := secretCreateRateLimit sv;
      secretAccessRateLimit := secretAccessRateLimit sv |}, Return tt).

(** [secretCreateRateLimit.check(clientId)] and [secretAccessRateLimit.check(clientId)] *)
Definition secretCreateRateLimit_check (t : Z) (clientId : string) : M RateLimit.CheckResult :=
  λ sv,
    let '(rl, r) := RateLimit.check t clientId (secretCreateRateLimit sv) in
    ({| db := db sv;
        secretCreateRateLimit := rl;
        secretAccessRateLimit := secretAccessRateLimit sv |}, Return r).

Definition secretAccessRateLimit_check (t : Z) (clientId : string) : M RateLimit.CheckResult :=
  λ sv,
    let '(rl, r) := RateLimit.check t clientId (secretAccessRateLimit sv) in
    ({| db := db sv;
        secretCreateRateLimit := secretCreateRateLimit sv;
        secretAccessRateLimit := rl |}, Return r).

(** ** The persistence calls the router makes *)

(** [prisma.secret.findUnique({ where: { slug } })] *)
Definition secret_findUnique_slug (slug : string) : M (option Secret.t) :=
  d ← get_db;
  mret (head (filter (λ s, Secret.slug s = slug) (secrets d))).

(** [prisma.secret.findUnique({ where: { id } })] *)
Definition secret_findUnique_id (id : string) : M (option Secret.t) :=
  d ← get_db;
  mret (head (filter (λ s, Secret.id s = id) (secrets d))).

(** [prisma.secret.create({ data })]: [id] is the primary key and [slug] has
    a unique index; a row breaking either is rejected and nothing is stored.
    The table of users is not part of [Db]: the foreign key of [userId] is
    taken to hold, which it does for a row without user, and for the user
    of a token as long as the account exists (no handler removes one). *)
Definition secret_create (row : Secret.t) : M Secret.t :=
  d ← get_db;
  if decide (Exists (λ s, Secret.id s = Secret.id row ∨ Secret.slug s = Secret.slug row)
               (secrets d))
  then mthrow (PrismaError UniqueConstraintFailed)
  else
    _ ← put_db {| secrets := secrets d ++ [row]; accessLogs := accessLogs d |};
    mret row.

(** [@updatedAt]: the store stamps the row it updates. *)
Definition set_updatedAt (t : Z) (s : Secret.t) : Secret.t :=
  Secret.mk (Secret.id s) (Secret.title s) (Secret.content s) (Secret.slug s)
    (Secret.password s) (Secret.expiresAt s) (Secret.isOneTimeAccess s)
    (Secret.hasBeenAccessed s) (Secret.createdAt s) t (Secret.userId s).

(** The table after [UPDATE ... WHERE id = ...]. *)
Definition update_where_id (t : Z) (id : string) (change : Secret.t → Secret.t)
  (rows : list Secret.t) : list Secret.t :=
  (λ r, if decide (Secret.id r = id) then set_updatedAt t (change r) else r) <$> rows.

(** [prisma.secret.update({ where: { id }, data })]: a missing record is
    rejected.  [data] is [Some change] when it sets a field, [change]
    applying its fields, and [None] when every field of it is [undefined]:
    the store then writes nothing, [updatedAt] included, and answers with
    the record as it is. *)
Definition secret_update (t : Z) (id : string) (data : option (Secret.t → Secret.t))
  : M Secret.t :=
  d ← get_db;
  match head (filter (λ s, Secret.id s = id) (secrets d)) with
  | None => mthrow (PrismaError RecordNotFound)
  | Some s =>
      match data with
      | None => mret s
      | Some change =>
          _ ← put_db {| secrets := update_where_id t id change (secrets d);
                        accessLogs := accessLogs d |};
          mret (set_updatedAt t (change s))
      end
  end.

(** [prisma.secret.delete({ where: { id } })]; the access logs of the secret
    go with it ([onDelete: Cascade]). *)
Definition secret_delete (id : string) : M unit :=
  d ← get_db;
  match head (filter (λ s, Secret.id s = id) (secrets d)) with
  | None => mthrow (PrismaError RecordNotFound)
  | Some _ =>
      put_db {| secrets := filter (λ s, Secret.id s ≠ id) (secrets d);
                accessLogs := filter (λ l, AccessLog.secretId l ≠ id) (accessLogs d) |}
  end.

(** [prisma.accessLog.create({ data })] *)
Definition accessLog_create (env : Env) (row : AccessLog.t) : M unit :=
  if accessLogFails env then mthrow (PrismaError StoreUnavailable)
  else
    d ← get_db;
    put_db {| secrets := secrets d; accessLogs := accessLogs d ++ [row] |}.

(** The two changes of [data] the router asks for. *)
Definition mark_accessed (s : Secret.t) : Secret.t :=
  Secret.mk (Secret.id s) (Secret.title s) (Secret.content s) (Secret.slug s)
    (Secret.password s) (Secret.expiresAt s) (Secret.isOneTimeAccess s)
    true (Secret.createdAt s) (Secret.updatedAt s) (Secret.userId s).

(** [data: { title, expiresAt }]: a field that is [undefined] is left alone. *)
Definition set_title_expiresAt (title : option string) (expiresAt : option Z)
  (s : Secret.t) : Secret.t :=
  Secret.mk (Secret.id s)
    (match title with Some t => Some t | None => Secret.title s end)
    (Secret.content s) (Secret.slug s) (Secret.password s)
    (match expiresAt with Some e => Some e | None => Secret.expiresAt s end)
    (Secret.isOneTimeAccess s) (Secret.hasBeenAccessed s)
    (Secret.createdAt s) (Secret.updatedAt s) (Secret.userId s).

Definition title_expiresAt_data (title : option string) (expiresAt : option Z)
  : option (Secret.t → Secret.t) :=
  match title, expiresAt with
  | None, None => None
  | _, _ => Some (set_title_expiresAt title expiresAt)
  end.

(** ** [src/server/routers/secrets.ts] *)

(** Inputs, after their [zod] schema: [expiresAt] is the date its
    [transform] built ([None] for an absent or empty string), and
    [isOneTimeAccess] has its default. *)
Module CreateInput.
Record t := mk {
  title : option string;
  content : string;
  password : option string;
  expiresAt : option Z;
  isOneTimeAccess : bool
}.
End CreateInput.

Module GetBySlugInput.
Record t := mk { slug : string; password : option string }.
End GetBySlugInput.

Module UpdateInput.
Record t := mk { id : string; title : option string; expiresAt : option Z }.
End UpdateInput.

(** Results. *)
Module Created.
Record t := mk {
  id : string;
  slug : string;
  title : option string;
  expiresAt : option Z;
  isOneTimeAccess : bool;
  createdAt : Z
}.
End Created.

Module Disclosed.
Record t := mk {
  id : string;
  title : option string;
  content : string;
  expiresAt : option Z;
  isOneTimeAccess : bool;
  createdAt : Z
}.
End Disclosed.

Module Requirements.
Record t := mk {
  id : string;
  title : option string;
  requiresPassword : bool;
  expiresAt : option Z;
  isOneTimeAccess : bool;
  createdAt : Z
}.
End Requirements.

Module Updated.
Record t := mk {
  id : string;
  title : option string;
  expiresAt : option Z;
  updatedAt : Z
}.
End Updated.

(** [secret.expiresAt && secret.expiresAt < new Date()] *)
Definition has_expired (t : Z) (s : Secret.t) : bool :=
  match Secret.expiresAt s with
  | Some e => e <? t
  | None => false
  end.

(** [secret.isOneTimeAccess && secret.hasBeenAccessed] *)
Definition consumed (s : Secret.t) : bool :=
  Secret.isOneTimeAccess s && Secret.hasBeenAccessed s.

(** [protectedProcedure]: the middleware in front of [delete] and [update]. *)
Definition protectedProcedure {A} (ctx : Context) (handler : User → M A) : M A :=
  match user ctx with
  | None => mthrow (TRPCError UNAUTHORIZED "Not authenticated")
  | Some u => handler u
  end.

Module secretRouter.
Section Handlers.
Context `{Bcrypt}.

(** The [data] of the row [create] stores: the slug is the one [nanoid(12)]
    of the request, the password is hashed if one was provided, [id] and the
    timestamps are the defaults of the schema. *)
Definition secret_data (env : Env) (ctx : Context) (input : CreateInput.t) : Secret.t :=
  (* Generate unique slug *)
  let slug := nanoid env 0 in
  (* Hash password if provided *)
  let hashedPassword :=
    if truthy (CreateInput.password input)
    then Some (bcrypt_hash (default EmptyString (CreateInput.password input)))
    else None in
  {| Secret.id := cuid env;
     Secret.title := CreateInput.title input;
     Secret.content := CreateInput.content input;
     Secret.slug := slug;
     Secret.password := hashedPassword;
     Secret.expiresAt := CreateInput.expiresAt input;
     Secret.isOneTimeAccess := CreateInput.isOneTimeAccess input;
     Secret.hasBeenAccessed := false;
     Secret.createdAt := now env;
     Secret.updatedAt := now env;
     Secret.userId := user_id <$> user ctx |}.

Definition create (env : Env) (ctx : Context) (input : CreateInput.t) : M Created.t :=
  (* content: z.string().min(1, 'Content is required') *)
  _ ← (if Nat.ltb (String.length (CreateInput.content input)) 1
       then mthrow (TRPCError BAD_REQUEST "Content is required")
       else mret tt);
  (* Rate limiting for secret creation *)
  _ ← match req ctx with
      | Some r =>
          let clientId := RateLimit.getClientIdentifier r in
          rateLimit ← secretCreateRateLimit_check (now env) clientId;
          if negb (RateLimit.allowed rateLimit)
          then mthrow (TRPCError TOO_MANY_REQUESTS
                         "Too many secrets created. Please try again later.")
          else mret tt
      | None => mret tt
      end;
  secret ← secret_create (secret_data env ctx input);
  mret {| Created.id := Secret.id secret;
          Created.slug := Secret.slug secret;
          Created.title := Secret.title secret;
          Created.expiresAt := Secret.expiresAt secret;
          Created.isOneTimeAccess := Secret.isOneTimeAccess secret;
          Created.createdAt := Secret.createdAt secret |}.

(** The [data] of the access log entry [getBySlug] writes; [ctx.req?.x]
    is [undefined] without a request. *)
Definition accessLog_data (env : Env) (ctx : Context) (secret : Secret.t) : AccessLog.t :=
  {| AccessLog.id := cuid env;
     AccessLog.secretId := Secret.id secret;
     AccessLog.ipAddress :=
       or_else (or_else (r ← req ctx; headers_get r "x-forwarded-for")
                        (r ← req ctx; headers_get r "x-real-ip"))
               (Some "unknown");
     AccessLog.userAgent :=
       or_else (r ← req ctx; headers_get r "user-agent") (Some "unknown");
     AccessLog.accessedAt := now env |}.

(** The handler run from its beginning to its end: nothing else runs at its
    awaits, and the store accepts the update of l.144 on the row it has just
    read.  [Awaits] below has the handler between its awaits, with a store
    that can reject either write. *)
Definition getBySlug (env : Env) (ctx : Context) (input : GetBySlugInput.t)
  : M Disclosed.t :=
  (* Rate limiting for secret access *)
  _ ← match req ctx with
      | Some r =>
          let clientId := RateLimit.getClientIdentifier r in
          rateLimit ← secretAccessRateLimit_check (now env) clientId;
          if negb (RateLimit.allowed rateLimit)
          then mthrow (TRPCError TOO_MANY_REQUESTS
                         "Too many secret access attempts. Please try again later.")
          else mret tt
      | None => mret tt
      end;
  let slug := GetBySlugInput.slug input in
  let password := GetBySlugInput.password input in
  found ← secret_findUnique_slug slug;
  match found with
  | None => mthrow (TRPCError NOT_FOUND "Secret not found")
  | Some secret =>
      (* Check if secret has expired *)
      if has_expired (now env) secret
      then mthrow (TRPCError NOT_FOUND "Secret has expired")
      (* Check if secret has been accessed and is one-time only *)
      else if consumed secret
      then mthrow (TRPCError NOT_FOUND "Secret has already been accessed")
      else
        (* Check password if required *)
        _ ← (if truthy (Secret.password secret) then
               if negb (truthy password)
               then mthrow (TRPCError UNAUTHORIZED "Password required")
               else if negb (bcrypt_compare (default EmptyString password)
                               (default EmptyString (Secret.password secret)))
               then mthrow (TRPCError UNAUTHORIZED "Invalid password")
               else mret tt
             else mret tt);
        (* Log access *)
        _ ← accessLog_create env (accessLog_data env ctx secret);
        (* Mark as accessed if one-time access *)
        _ ← (if Secret.isOneTimeAccess secret
             then _ ← secret_update (now env) (Secret.id secret) (Some mark_accessed);
                  mret tt
             else mret tt);
        mret {| Disclosed.id := Secret.id secret;
                Disclosed.title := Secret.title secret;
                Disclosed.content := Secret.content secret;
                Disclosed.expiresAt := Secret.expiresAt secret;
                Disclosed.isOneTimeAccess := Secret.isOneTimeAccess secret;
                Disclosed.createdAt := Secret.createdAt secret |}
  end.

Definition checkRequirements (env : Env) (slug : string) : M Requirements.t :=
  found ← secret_findUnique_slug slug;
  match found with
  | None => mthrow (TRPCError NOT_FOUND "Secret not found")
  | Some secret =>
      if has_expired (now env) secret
      then mthrow (TRPCError NOT_FOUND "Secret has expired")
      else if consumed secret
      then mthrow (TRPCError NOT_FOUND "Secret has already been accessed")
      else
        mret {| Requirements.id := Secret.id secret;
                Requirements.title := Secret.title secret;
                Requirements.requiresPassword := truthy (Secret.password secret);
                Requirements.expiresAt := Secret.expiresAt secret;
                Requirements.isOneTimeAccess := Secret.isOneTimeAccess secret;
                Requirements.createdAt := Secret.createdAt secret |}
  end.

Definition delete (ctx : Context) (id : string) : M bool :=
  protectedProcedure ctx (λ u,
    found ← secret_findUnique_id id;
    match found with
    | None => mthrow (TRPCError NOT_FOUND "Secret not found")
    | Some secret =>
        if decide (Secret.userId secret ≠ Some (user_id u))
        then mthrow (TRPCError FORBIDDEN "Not authorized to delete this secret")
        else
          _ ← secret_delete id;
          mret true
    end).

Definition update (env : Env) (ctx : Context) (input : UpdateInput.t) : M Updated.t :=
  protectedProcedure ctx (λ u,
    let id := UpdateInput.id input in
    found ← secret_findUnique_id id;
    match found with
    | None => mthrow (TRPCError NOT_FOUND "Secret not found")
    | Some secret =>
        if decide (Secret.userId secret ≠ Some (user_id u))
        then mthrow (TRPCError FORBIDDEN "Not authorized to update this secret")
        else
          updatedSecret ← secret_update (now env) id
            (title_expiresAt_data (UpdateInput.title input) (UpdateInput.expiresAt input));
          mret {| Updated.id := Secret.id updatedSecret;
                  Updated.title := Secret.title updatedSecret;
                  Updated.expiresAt := Secret.expiresAt updatedSecret;
                  Updated.updatedAt := Secret.updatedAt updatedSecret |}
    end).

(** A request to the router, and the server after it. *)
Inductive Call :=
| Create (input : CreateInput.t)
| GetBySlug (input : GetBySlugInput.t)
| CheckRequirements (slug : string)
| Delete (id : string)
| Update (input : UpdateInput.t).

Definition serve (env : Env) (ctx : Context) (c : Call) (sv : Server) : Server :=
  match c with
  | Create input => (create env ctx input sv).1
  | GetBySlug input => (getBySlug env ctx input sv).1
  | CheckRequirements slug => (checkRequirements env slug sv).1
  | Delete id => (delete ctx id sv).1
  | Update input => (update env ctx input sv).1
  end.

Fixpoint serve_all (reqs : list (Env * Context * Call)) (sv : Server) : Server :=
  match reqs with
  | [] => sv
  | (env, ctx, c) :: rest => serve_all rest (serve env ctx c sv)
  end.

End Handlers.
End secretRouter.

(** ** Vocabulary of the specification *)

(** The server with one of its parts replaced. *)
Definition with_db (sv : Server) (d : Db) : Server :=
  {| db := d;
     secretCreateRateLimit := secretCreateRateLimit sv;
     secretAccessRateLimit := secretAccessRateLimit sv |}.

Definition with_create_limiter (sv : Server) (rl : RateLimit.RateLimiter) : Server :=
  {| db := db sv;
     secretCreateRateLimit := rl;
     secretAccessRateLimit := secretAccessRateLimit sv |}.

Definition with_access_limiter (sv : Server) (rl : RateLimit.RateLimiter) : Server :=
  {| db := db sv;
     secretCreateRateLimit := secretCreateRateLimit sv;
     secretAccessRateLimit := rl |}.

(** The row a slug, or an id, designates. *)
Definition lookup_slug (slug : string) (sv : Server) : option Secret.t :=
  head (filter (λ s, Secret.slug s = slug) (secrets (db sv))).

Definition lookup_id (id : string) (sv : Server) : option Secret.t :=
  head (filter (λ s, Secret.id s = id) (secrets (db sv))).

(** The constraints of the schema on the table of secrets. *)
Definition wf_db (d : Db) : Prop :=
  NoDup (Secret.id <$> secrets d) ∧ NoDup (Secret.slug <$> secrets d).

(** Admission of a request by the limiter of its class: the answer of
    [check] for the client of [ctx.req], and admission without a check when
    the context carries no request. *)
Definition let_through (t : Z) (ctx : Context) (rl : RateLimit.RateLimiter) : bool :=
  match req ctx with
  | Some r => RateLimit.allowed (RateLimit.check t (RateLimit.getClientIdentifier r) rl).2
  | None => true
  end.

(** The limiter after the admission step. *)
Definition after_admission (t : Z) (ctx : Context) (rl : RateLimit.RateLimiter)
  : RateLimit.RateLimiter :=
  match req ctx with
  | Some r => (RateLimit.check t (RateLimit.getClientIdentifier r) rl).1
  | None => rl
  end.

(** The password gate of [getBySlug] lets the request through. *)
Definition password_passes `{Bcrypt} (supplied : option string) (s : Secret.t) : bool :=
  if truthy (Secret.password s)
  then truthy supplied &&
       bcrypt_compare (default EmptyString supplied) (default EmptyString (Secret.password s))
  else true.

(** What [create], [checkRequirements] and [update] return for a row. *)
Definition created (s : Secret.t) : Created.t :=
  {| Created.id := Secret.id s;
     Created.slug := Secret.slug s;
     Created.title := Secret.title s;
     Created.expiresAt := Secret.expiresAt s;
     Created.isOneTimeAccess := Secret.isOneTimeAccess s;
     Created.createdAt := Secret.createdAt s |}.

Definition requirements (s : Secret.t) : Requirements.t :=
  {| Requirements.id := Secret.id s;
     Requirements.title := Secret.title s;
     Requirements.requiresPassword := truthy (Secret.password s);
     Requirements.expiresAt := Secret.expiresAt s;
     Requirements.isOneTimeAccess := Secret.isOneTimeAccess s;
     Requirements.createdAt := Secret.createdAt s |}.

Definition updated (s : Secret.t) : Updated.t :=
  {| Updated.id := Secret.id s;
     Updated.title := Secret.title s;
     Updated.expiresAt := Secret.expiresAt s;
     Updated.updatedAt := Secret.updatedAt s |}.

(** A row with the id or the slug of [row] is already stored. *)
Definition taken (row : Secret.t) (sv : Server) : Prop :=
  Exists (λ s, Secret.id s = Secret.id row ∨ Secret.slug s = Secret.slug row)
    (secrets (db sv)).

(** What [getBySlug] returns for a row. *)
Definition disclosed (s : Secret.t) : Disclosed.t :=
  {| Disclosed.id := Secret.id s;
     Disclosed.title := Secret.title s;
     Disclosed.content := Secret.content s;
     Disclosed.expiresAt := Secret.expiresAt s;
     Disclosed.isOneTimeAccess := Secret.isOneTimeAccess s;
     Disclosed.createdAt := Secret.createdAt s |}.

(** The secret is out of reach under [slug]: no row, or a row that has
    expired or has been consumed. *)
Definition gone (t : Z) (slug : string) (sv : Server) : bool :=
  match lookup_slug slug sv with
  | None => true
  | Some s => has_expired t s || consumed s
  end.

(** Every row stored under [slug] is a consumed one-time secret. *)
Definition spent (slug : string) (sv : Server) : Prop :=
  ∀ row, row ∈ secrets (db sv) → Secret.slug row = slug → consumed row = true.

(** A change of a row that keeps its keys and its one-time flag, and does
    not clear [hasBeenAccessed]. *)
Definition keeps (change : Secret.t → Secret.t) : Prop :=
  ∀ s, Secret.id (change s) = Secret.id s ∧
       Secret.slug (change s) = Secret.slug s ∧
       Secret.isOneTimeAccess (change s) = Secret.isOneTimeAccess s ∧
       (Secret.hasBeenAccessed s = true → Secret.hasBeenAccessed (change s) = true).

(** The slug a request draws: only [create] calls [nanoid]. *)
Definition drawn (env : Env) (c : secretRouter.Call) : option string :=
  match c with
  | secretRouter.Create _ => Some (nanoid env 0)
  | _ => None
  end.

(** A request of a trace that draws the slug [slug]. *)
Definition draws_slug (slug : string) (r : Env * Context * secretRouter.Call) : Prop :=
  drawn r.1.1 r.2 = Some slug.

(** What one request can do to the table of secrets, [draw] being the slug
    it draws, if any. *)
Inductive table_step (draw : option string) (rows : list Secret.t)
  : list Secret.t → Prop :=
| table_same : table_step draw rows rows
| table_insert row :
    draw = Some (Secret.slug row) →
    ¬ Exists (λ s, Secret.id s = Secret.id row ∨ Secret.slug s = Secret.slug row) rows →
    table_step draw rows (rows ++ [row])
| table_update t id change :
    keeps change →
    table_step draw rows (update_where_id t id change rows)
| table_delete id :
    table_step draw rows (filter (λ s, Secret.id s ≠ id) rows).

(** ** Values used in the examples *)

(** A stand-in for [bcryptjs] that can be run. *)
Definition toy_bcrypt : Bcrypt :=
  {| bcrypt_hash p := String.append "$2a$12$" p;
     bcrypt_compare p h := String.eqb (String.append "$2a$12$" p) h |}.

Definition anonymous : Context := {| req := None; user := None |}.

(** A visitor behind a proxy that forwards the given addresses. *)
Definition visitor (forwarded : string) : Context :=
  {| req := Some {| headers := {[ "x-forwarded-for" := forwarded ]} |};
     user := None |}.

Definition env_at (t : Z) (slug0 slug1 id : string) (logFails : bool) : Env :=
  {| now := t;
     nanoid := λ k, match k with O => slug0 | _ => slug1 end;
     cuid := id;
     accessLogFails := logFails |}.

Definition a_secret (id slug : string) (expiresAt : option Z) (oneTime accessed : bool)
  : Secret.t :=
  {| Secret.id := id; Secret.title := None; Secret.content := "X"; Secret.slug := slug;
     Secret.password := None; Secret.expiresAt := expiresAt;
     Secret.isOneTimeAccess := oneTime; Secret.hasBeenAccessed := accessed;
     Secret.createdAt := 0; Secret.updatedAt := 0; Secret.userId := None |}.

Definition server_with (rows : list Secret.t) : Server :=
  {| db := {| secrets := rows; accessLogs := [] |};
     secretCreateRateLimit := RateLimit.secretCreateRateLimit;
     secretAccessRateLimit := RateLimit.secretAccessRateLimit |}.

(** A server whose two limiters have used up the window of one client. *)
Definition saturated_for (client : string) (rows : list Secret.t) : Server :=
  {| db := {| secrets := rows; accessLogs := [] |};
     secretCreateRateLimit :=
       RateLimit.set_store RateLimit.secretCreateRateLimit
         {[ client := {| RateLimit.count := 10; RateLimit.resetTime := 3600000 |} ]};
     secretAccessRateLimit :=
       RateLimit.set_store RateLimit.secretAccessRateLimit
         {[ client := {| RateLimit.count := 20; RateLimit.resetTime := 300000 |} ]} |}.

(** ** The rest of the code: limiter traces, the listing, the account
    router, the request context and the status shown by the dashboard *)

(** *** Traces of a limiter *)

(** What happens to a limiter: a [check] for some client, or a sweep. *)
Inductive LimiterOp :=
| OpCheck (identifier : string) (t : Z)
| OpCleanup (t : Z).

Definition op_time (op : LimiterOp) : Z :=
  match op with
  | OpCheck _ t => t
  | OpCleanup t => t
  end.

(** The limiter after a trace, and the answers given, each with the client
    it was given to. *)
Fixpoint limiter_run (ops : list LimiterOp) (rl : RateLimit.RateLimiter)
  : RateLimit.RateLimiter * list (string * RateLimit.CheckResult) :=
  match ops with
  | [] => (rl, [])
  | OpCheck identifier t :: rest =>
      let '(rl1, r) := RateLimit.check t identifier rl in
      let '(rl2, rs) := limiter_run rest rl1 in
      (rl2, (identifier, r) :: rs)
  | OpCleanup t :: rest => limiter_run rest (RateLimit.cleanup t rl)
  end.

(** The answers given to one client, and the times of its requests. *)
Definition answers_to (identifier : string)
  (rs : list (string * RateLimit.CheckResult)) : list RateLimit.CheckResult :=
  snd <$> filter (λ ir, ir.1 = identifier) rs.

Fixpoint times_of (identifier : string) (ops : list LimiterOp) : list Z :=
  match ops with
  | [] => []
  | OpCheck i t :: rest =>
      if decide (i = identifier) then t :: times_of identifier rest
      else times_of identifier rest
  | OpCleanup _ :: rest => times_of identifier rest
  end.

(** No request is stamped earlier than a sweep that ran before it. *)
Fixpoint sweeps_in_order (ops : list LimiterOp) : Prop :=
  match ops with
  | [] => True
  | OpCleanup t :: rest => Forall (λ op, t ≤ op_time op) rest ∧ sweeps_in_order rest
  | OpCheck _ _ :: rest => sweeps_in_order rest
  end.

(** Every bucket has counted at least its opening request and at most
    [maxRequests] requests (one, if [maxRequests] is below one). *)
Definition counts_bounded (rl : RateLimit.RateLimiter) : Prop :=
  ∀ k e, RateLimit.store rl !! k = Some e →
    1 ≤ RateLimit.count e ≤ Z.max 1 (RateLimit.maxRequests rl).

(** *** Addresses in [x-forwarded-for] *)

Fixpoint all_white (s : string) : bool :=
  match s with
  | EmptyString => true
  | String c r => is_white c && all_white r
  end.

(** A string that begins with a character that is not white space. *)
Definition starts_clean (s : string) : Prop :=
  match s with
  | EmptyString => False
  | String c _ => is_white c = false
  end.

(** An address as a proxy writes it: not empty, no comma in it, no white
    space at either end. *)
Definition is_address (a : string) : Prop :=
  starts_clean a ∧ starts_clean (String.rev a) ∧ before_comma a = a.

(** A request with the given [x-forwarded-for], among other headers. *)
Definition forwarded_for (value : string) (others : gmap string string) : Request :=
  {| headers := <["x-forwarded-for" := value]> others |}.

(** *** What stays of a stored secret *)

(** The fields of a secret that no handler writes after [create]. *)
Definition frozen (s : Secret.t)
  : string * string * string * option string * bool * Z * option string :=
  (Secret.id s, Secret.content s, Secret.slug s, Secret.password s,
   Secret.isOneTimeAccess s, Secret.createdAt s, Secret.userId s).

(** *** [getUserSecrets] of [src/server/routers/secrets.ts] *)

(** [page] and [limit] are [z.number()]; they are taken to be integers, as
    the dashboard sends them. *)
Module ListInput.
Record t := mk { page : Z; limit : Z }.
End ListInput.

Module Listed.
Record t := mk {
  id : string;
  title : option string;
  slug : string;
  expiresAt : option Z;
  isOneTimeAccess : bool;
  hasBeenAccessed : bool;
  createdAt : Z;
  accessCount : Z;
  hasPassword : bool
}.
End Listed.

Module Listing.
Record t := mk { secrets : list Listed.t; total : Z; pages : Z }.
End Listing.

(** [_count: { select: { accessLogs: true } }] *)
Definition count_accessLogs (d : Db) (id : string) : Z :=
  Z.of_nat (length (filter (λ l, AccessLog.secretId l = id) (accessLogs d))).

(** The projection [secrets.map((secret) => ...)] builds. *)
Definition listed (d : Db) (s : Secret.t) : Listed.t :=
  {| Listed.id := Secret.id s;
     Listed.title := Secret.title s;
     Listed.slug := Secret.slug s;
     Listed.expiresAt := Secret.expiresAt s;
     Listed.isOneTimeAccess := Secret.isOneTimeAccess s;
     Listed.hasBeenAccessed := Secret.hasBeenAccessed s;
     Listed.createdAt := Secret.createdAt s;
     Listed.accessCount := count_accessLogs d (Secret.id s);
     Listed.hasPassword := truthy (Secret.password s) |}.

(** [orderBy: { createdAt: 'desc' }].  Rows created at the same instant
    come in the order of the table, which is how the store answers. *)
Definition newer_first (a b : Secret.t) : Prop :=
  Secret.createdAt b ≤ Secret.createdAt a.

#[global] Instance newer_first_dec : RelDecision newer_first :=
  λ a b, decide (Secret.createdAt b ≤ Secret.createdAt a).

Fixpoint insert_newer (x : Secret.t) (l : list Secret.t) : list Secret.t :=
  match l with
  | [] => [x]
  | y :: l' => if decide (newer_first x y) then x :: l else y :: insert_newer x l'
  end.

Definition newest_first (rows : list Secret.t) : list Secret.t :=
  foldr insert_newer [] rows.

(** [where: { userId: ctx.user.id }] *)
Definition owned_by (u : User) (d : Db) : list Secret.t :=
  filter (λ s, Secret.userId s = Some (user_id u)) (secrets d).

(** [Math.ceil(total / limit)] on integers, [limit] positive. *)
Definition ceil_div (total limit : Z) : Z := (total + limit - 1) / limit.

Definition getUserSecrets (ctx : Context) (input : ListInput.t) : M Listing.t :=
  protectedProcedure ctx (λ u,
    (* page: z.number().min(1), limit: z.number().min(1).max(100) *)
    _ ← (if ListInput.page input <? 1
         then mthrow (TRPCError BAD_REQUEST "Number must be greater than or equal to 1")
         else if ListInput.limit input <? 1
         then mthrow (TRPCError BAD_REQUEST "Number must be greater than or equal to 1")
         else if 100 <? ListInput.limit input
         then mthrow (TRPCError BAD_REQUEST "Number must be less than or equal to 100")
         else mret tt);
    let page := ListInput.page input in
    let limit := ListInput.limit input in
    let skip := (page - 1) * limit in
    d ← get_db;
    let secrets :=
      take (Z.to_nat limit) (drop (Z.to_nat skip) (newest_first (owned_by u d))) in
    let total := Z.of_nat (length (owned_by u d)) in
    mret {| Listing.secrets := listed d <$> secrets;
            Listing.total := total;
            Listing.pages := ceil_div total limit |}).

(** The rows page [k] shows, nothing when the request fails. *)
Definition page_rows (ctx : Context) (limit : Z) (sv : Server) (k : Z) : list Listed.t :=
  match (getUserSecrets ctx (ListInput.mk k limit) sv).2 with
  | Return l => Listing.secrets l
  | Throw _ => []
  end.

(** Newer, or as new, in the listing. *)
Definition listed_newer_first (a b : Listed.t) : Prop :=
  Listed.createdAt b ≤ Listed.createdAt a.

(** *** [getSecretStatus] of [src/app/dashboard/page.tsx] *)

Record Status := mkStatus { label : string; color : string }.

(** The dashboard's [Secret] is a row of the listing; [now] is [new Date()]. *)
Definition getSecretStatus (now : Z) (secret : Listed.t) : Status :=
  if match Listed.expiresAt secret with
     | Some e => e <? now
     | None => false
     end
  then {| label := "Expired"; color := "error" |}
  else if Listed.isOneTimeAccess secret && Listed.hasBeenAccessed secret
  then {| label := "Accessed"; color := "warning" |}
  else {| label := "Active"; color := "success" |}.

(** *** [createTRPCContext] of [src/server/trpc.ts] *)

(** [jsonwebtoken] with the signing secret of the process: [sign] of the
    payload [{ userId, email }] at a given time with an [expiresIn], and
    [verify] at a given time, [None] when it throws. *)
Class Jwt := {
  jwt_sign : Z → string * string → string → string;
  jwt_verify : Z → string → option (string * string)
}.

(** A [NextRequest]: the request and its cookies. *)
Record NextRequest := mkNextRequest {
  request : Request;
  cookies : gmap string string
}.

Fixpoint string_drop (n : nat) (s : string) : string :=
  match n, s with
  | O, _ => s
  | S n', EmptyString => EmptyString
  | S n', String _ r => string_drop n' r
  end.

(** [s.replace(pattern, replacement)] with a string pattern: the first
    occurrence only. *)
Fixpoint replace_first (pattern replacement s : string) : string :=
  if String.prefix pattern s
  then String.append replacement (string_drop (String.length pattern) s)
  else match s with
       | EmptyString => EmptyString
       | String c r => String c (replace_first pattern replacement r)
       end.

(** The token a request carries:
    [req.headers.get('authorization')?.replace('Bearer ', '') ||
     req.cookies.get('auth-token')?.value] *)
Definition request_token (r : NextRequest) : option string :=
  or_else (replace_first "Bearer " EmptyString <$> headers_get (request r) "authorization")
          (cookies r !! "auth-token").

Definition createTRPCContext `{Jwt} (env : Env) (r : option NextRequest) : Context :=
  let user :=
    match r with
    | Some r =>
        let token := request_token r in
        if truthy token then
          match jwt_verify (now env) (default EmptyString token) with
          | Some (userId, email) => Some {| user_id := userId; email := email |}
          | None => None (* Token is invalid, user remains null *)
          end
        else None
    | None => None
    end in
  {| req := request <$> r; user := user |}.

(** *** The account router, second part of [src/server/routers/secrets.ts] *)

Module authRouter.

(** The codes this router and its middleware throw. *)
Inductive Code := BAD_REQUEST | UNAUTHORIZED | NOT_FOUND | CONFLICT | TOO_MANY_REQUESTS.

Inductive Thrown :=
| TRPCError (code : Code) (message : string)
| PrismaError (failure : PrismaFailure).

Inductive Outcome (A : Type) :=
| Return (a : A)
| Throw (e : Thrown).
Arguments Return {A} a.
Arguments Throw {A} e.

Definition is_Return {A} (o : Outcome A) : bool :=
  match o with Return _ => true | Throw _ => false end.

(** The [users] table. *)
Module Account.
Record t := mk {
  id : string;
  email : string;
  name : option string;
  password : string;
  createdAt : Z;
  updatedAt : Z
}.
End Account.

(** What the router works on: the table and the limiter of its class. *)
Record Accounts := mkAccounts {
  users : list Account.t;
  authRateLimit : RateLimit.RateLimiter
}.

Definition no_accounts : Accounts :=
  {| users := []; authRateLimit := RateLimit.authRateLimit |}.

Definition M (A : Type) : Type := Accounts → Accounts * Outcome A.

#[global] Instance M_ret : MRet M := λ A a st, (st, Return a).
#[global] Instance M_bind : MBind M := λ A B f m st,
  match m st with
  | (st1, Return a) => f a st1
  | (st1, Throw e) => (st1, Throw e)
  end.
#[global] Instance M_throw : MThrow Thrown M := λ A e st, (st, Throw e).

Definition get_users : M (list Account.t) := λ st, (st, Return (users st)).

(** [authRateLimit.check(clientId)] *)
Definition authRateLimit_check (t : Z) (clientId : string) : M RateLimit.CheckResult :=
  λ st,
    let '(rl, r) := RateLimit.check t clientId (authRateLimit st) in
    ({| users := users st; authRateLimit := rl |}, Return r).

(** [prisma.user.findUnique({ where: { email } })] and [{ where: { id } }] *)
Definition user_findUnique_email (email : string) : M (option Account.t) :=
  us ← get_users;
  mret (head (filter (λ a, Account.email a = email) us)).

Definition user_findUnique_id (id : string) : M (option Account.t) :=
  us ← get_users;
  mret (head (filter (λ a, Account.id a = id) us)).

(** [prisma.user.create({ data })]: [id] is the primary key and [email] is
    unique. *)
Definition user_create (row : Account.t) : M Account.t :=
  λ st,
    if decide (Exists (λ a, Account.id a = Account.id row ∨
                            Account.email a = Account.email row) (users st))
    then (st, Throw (PrismaError UniqueConstraintFailed))
    else ({| users := users st ++ [row]; authRateLimit := authRateLimit st |},
          Return row).

(** [z.string().email(...)], the syntax check of the schema. *)
Class EmailSyntax := { is_email : string → bool }.

Module RegisterInput.
Record t := mk { name : string; email : string; password : string }.
End RegisterInput.

Module LoginInput.
Record t := mk { email : string; password : string }.
End LoginInput.

(** [{ user: { id, name, email }, token }] *)
Module Session.
Record t := mk { id : string; name : option string; email : string; token : string }.
End Session.

(** What [me] selects. *)
Module Profile.
Record t := mk { id : string; name : option string; email : string; createdAt : Z }.
End Profile.

Section Handlers.
Context `{Bcrypt} `{Jwt} `{EmailSyntax}.

Definition session (env : Env) (a : Account.t) : Session.t :=
  (* Generate JWT token *)
  let token := jwt_sign (now env) (Account.id a, Account.email a) "7d" in
  {| Session.id := Account.id a;
     Session.name := Account.name a;
     Session.email := Account.email a;
     Session.token := token |}.

Definition register (env : Env) (ctx : Context) (input : RegisterInput.t) : M Session.t :=
  (* name min(1), email, password min(6) *)
  _ ← (if Nat.ltb (String.length (RegisterInput.name input)) 1
       then mthrow (TRPCError BAD_REQUEST "Name is required")
       else if negb (is_email (RegisterInput.email input))
       then mthrow (TRPCError BAD_REQUEST "Invalid email")
       else if Nat.ltb (String.length (RegisterInput.password input)) 6
       then mthrow (TRPCError BAD_REQUEST "Password must be at least 6 characters")
       else mret tt);
  (* Rate limiting for registration *)
  _ ← match req ctx with
      | Some r =>
          let clientId := RateLimit.getClientIdentifier r in
          rateLimit ← authRateLimit_check (now env) clientId;
          if negb (RateLimit.allowed rateLimit)
          then mthrow (TRPCError TOO_MANY_REQUESTS
                         "Too many registration attempts. Please try again later.")
          else mret tt
      | None => mret tt
      end;
  (* Check if user already exists *)
  existingUser ← user_findUnique_email (RegisterInput.email input);
  match existingUser with
  | Some _ => mthrow (TRPCError CONFLICT "User with this email already exists")
  | None =>
      (* Hash password *)
      let hashedPassword := bcrypt_hash (RegisterInput.password input) in
      (* Create user *)
      user ← user_create
        {| Account.id := cuid env;
           Account.email := RegisterInput.email input;
           Account.name := Some (RegisterInput.name input);
           Account.password := hashedPassword;
           Account.createdAt := now env;
           Account.updatedAt := now env |};
      mret (session env user)
  end.

Definition login (env : Env) (ctx : Context) (input : LoginInput.t) : M Session.t :=
  (* email, password min(1) *)
  _ ← (if negb (is_email (LoginInput.email input))
       then mthrow (TRPCError BAD_REQUEST "Invalid email")
       else if Nat.ltb (String.length (LoginInput.password input)) 1
       then mthrow (TRPCError BAD_REQUEST "Password is required")
       else mret tt);
  (* Rate limiting for login *)
  _ ← match req ctx with
      | Some r =>
          let clientId := RateLimit.getClientIdentifier r in
          rateLimit ← authRateLimit_check (now env) clientId;
          if negb (RateLimit.allowed rateLimit)
          then mthrow (TRPCError TOO_MANY_REQUESTS
                         "Too many login attempts. Please try again later.")
          else mret tt
      | None => mret tt
      end;
  (* Find user *)
  found ← user_findUnique_email (LoginInput.email input);
  match found with
  | None => mthrow (TRPCError UNAUTHORIZED "Invalid credentials")
  | Some user =>
      (* Check password *)
      if negb (bcrypt_compare (LoginInput.password input) (Account.password user))
      then mthrow (TRPCError UNAUTHORIZED "Invalid credentials")
      else mret (session env user)
  end.

(** [me], behind [protectedProcedure]. *)
Definition me (ctx : Context) : M Profile.t :=
  match user ctx with
  | None => mthrow (TRPCError UNAUTHORIZED "Not authenticated")
  | Some u =>
      found ← user_findUnique_id (user_id u);
      match found with
      | None => mthrow (TRPCError NOT_FOUND "User not found")
      | Some a =>
          mret {| Profile.id := Account.id a;
                  Profile.name := Account.name a;
                  Profile.email := Account.email a;
                  Profile.createdAt := Account.createdAt a |}
      end
  end.

(** A request to the router. *)
Inductive Call :=
| Register (input : RegisterInput.t)
| Login (input : LoginInput.t)
| Me.

Definition serve (env : Env) (ctx : Context) (c : Call) (st : Accounts) : Accounts :=
  match c with
  | Register input => (register env ctx input st).1
  | Login input => (login env ctx input st).1
  | Me => (me ctx st).1
  end.

Fixpoint serve_all (reqs : list (Env * Context * Call)) (st : Accounts) : Accounts :=
  match reqs with
  | [] => st
  | (env, ctx, c) :: rest => serve_all rest (serve env ctx c st)
  end.

End Handlers.

(** The constraints of the schema on the table of users. *)
Definition wf_users (st : Accounts) : Prop :=
  NoDup (Account.id <$> users st) ∧ NoDup (Account.email <$> users st).

Definition lookup_email (email : string) (st : Accounts) : option Account.t :=
  head (filter (λ a, Account.email a = email) (users st)).

Definition lookup_account (id : string) (st : Accounts) : option Account.t :=
  head (filter (λ a, Account.id a = id) (users st)).

Definition with_limiter (st : Accounts) (rl : RateLimit.RateLimiter) : Accounts :=
  {| users := users st; authRateLimit := rl |}.

(** The account [register] stores. *)
Definition new_account `{Bcrypt} (env : Env) (input : RegisterInput.t) : Account.t :=
  {| Account.id := cuid env;
     Account.email := RegisterInput.email input;
     Account.name := Some (RegisterInput.name input);
     Account.password := bcrypt_hash (RegisterInput.password input);
     Account.createdAt := now env;
     Account.updatedAt := now env |}.

Definition profile (a : Account.t) : Profile.t :=
  {| Profile.id := Account.id a;
     Profile.name := Account.name a;
     Profile.email := Account.email a;
     Profile.createdAt := Account.createdAt a |}.

(** The input of a call passes its schema. *)
Definition valid_register `{EmailSyntax} (input : RegisterInput.t) : bool :=
  negb (Nat.ltb (String.length (RegisterInput.name input)) 1)
  && is_email (RegisterInput.email input)
  && negb (Nat.ltb (String.length (RegisterInput.password input)) 6).

Definition valid_login `{EmailSyntax} (input : LoginInput.t) : bool :=
  is_email (LoginInput.email input)
  && negb (Nat.ltb (String.length (LoginInput.password input)) 1).

Definition valid_call `{EmailSyntax} (c : Call) : bool :=
  match c with
  | Register input => valid_register input
  | Login input => valid_login input
  | Me => false
  end.

(** The call is turned away by the limiter. *)
Definition turned_away `{Bcrypt} `{Jwt} `{EmailSyntax}
  (env : Env) (ctx : Context) (c : Call) (st : Accounts) : bool :=
  match c with
  | Register input =>
      match (register env ctx input st).2 with
      | Throw (TRPCError TOO_MANY_REQUESTS _) => true
      | _ => false
      end
  | Login input =>
      match (login env ctx input st).2 with
      | Throw (TRPCError TOO_MANY_REQUESTS _) => true
      | _ => false
      end
  | Me => false
  end.

End authRouter.

(** Stand-ins for the libraries that can be run. *)
Definition toy_jwt : Jwt :=
  {| jwt_sign t payload expiresIn :=
       String.append (String.append payload.1 ".") payload.2;
     jwt_verify t token :=
       match String.index 0 "." token with
       | Some i => Some (String.substring 0 i token, string_drop (S i) token)
       | None => None
       end |}.

Definition toy_email : authRouter.EmailSyntax :=
  {| authRouter.is_email s :=
       match String.index 0 "@" s with Some _ => true | None => false end |}.

(** An account in the table, and the table with it. *)
Definition alice : authRouter.Account.t :=
  {| authRouter.Account.id := "u1";
     authRouter.Account.email := "alice@example.org";
     authRouter.Account.name := Some "Alice";
     authRouter.Account.password := "$2a$12$correct horse";
     authRouter.Account.createdAt := 1;
     authRouter.Account.updatedAt := 1 |}.

Definition accounts_with (us : list authRouter.Account.t) : authRouter.Accounts :=
  {| authRouter.users := us; authRouter.authRateLimit := RateLimit.authRateLimit |}.

(** *** [getBySlug] between its awaits *)

(** [getBySlug] is an [async] function: it hands control back at each
    [await], and another request can run before it goes on.  Its accesses to
    the store are three awaited calls, [findUnique] (l.86),
    [accessLog.create] (l.132) and [secret.update] (l.144), with no
    transaction around them; each of them is one statement of the store.
    [secretRouter.getBySlug] above is the handler run without interruption
    and with a second write that the store accepts; here the handler is cut
    at its accesses to the store, and either write can be rejected. *)
Module Awaits.
Import secretRouter.

(** A call of [getBySlug]: its request, and whether the store rejects its
    [prisma.secret.update] ([accessLogFails] of the request says so for
    [prisma.accessLog.create]). *)
Record Reader := mkReader {
  reader_env : Env;
  reader_ctx : Context;
  reader_input : GetBySlugInput.t;
  secretUpdateFails : bool
}.

(** Where a call stands: not begun; awaiting [findUnique]; awaiting
    [accessLog.create], with the [secret] it has read; awaiting
    [secret.update]; or settled, returned or thrown. *)
Inductive Stage :=
| Called
| Finding
| Logging (secret : Secret.t)
| Marking (secret : Secret.t)
| Settled (out : Outcome Disclosed.t).

(** A throw settles the call. *)
Definition settle (m : M Stage) : Server → Server * Stage :=
  λ sv,
    match m sv with
    | (sv1, Return st) => (sv1, st)
    | (sv1, Throw e) => (sv1, Settled (Throw e))
    end.

Section Steps.
Context `{Bcrypt}.

(** The code of [getBySlug] from one access to the store to the next. *)
Definition getBySlug_step (c : Reader) (st : Stage) : Server → Server * Stage :=
  let env := reader_env c in
  let ctx := reader_ctx c in
  let password := GetBySlugInput.password (reader_input c) in
  match st with
  | Called =>
      settle (
        (* Rate limiting for secret access *)
        _ ← match req ctx with
            | Some r =>
                let clientId := RateLimit.getClientIdentifier r in
                rateLimit ← secretAccessRateLimit_check (now env) clientId;
                if negb (RateLimit.allowed rateLimit)
                then mthrow (TRPCError TOO_MANY_REQUESTS
                               "Too many secret access attempts. Please try again later.")
                else mret tt
            | None => mret tt
            end;
        mret Finding)
  | Finding =>
      settle (
        found ← secret_findUnique_slug (GetBySlugInput.slug (reader_input c));
        match found with
        | None => mthrow (TRPCError NOT_FOUND "Secret not found")
        | Some secret =>
            (* Check if secret has expired *)
            if has_expired (now env) secret
            then mthrow (TRPCError NOT_FOUND "Secret has expired")
            (* Check if secret has been accessed and is one-time only *)
            else if consumed secret
            then mthrow (TRPCError NOT_FOUND "Secret has already been accessed")
            else
              (* Check password if required *)
              _ ← (if truthy (Secret.password secret) then
                     if negb (truthy password)
                     then mthrow (TRPCError UNAUTHORIZED "Password required")
                     else if negb (bcrypt_compare (default EmptyString password)
                                     (default EmptyString (Secret.password secret)))
                     then mthrow (TRPCError UNAUTHORIZED "Invalid password")
                     else mret tt
                   else mret tt);
              mret (Logging secret)
        end)
  | Logging secret =>
      settle (
        (* Log access *)
        _ ← accessLog_create env (accessLog_data env ctx secret);
        (* Mark as accessed if one-time access *)
        if Secret.isOneTimeAccess secret
        then mret (Marking secret)
        else mret (Settled (Return
               {| Disclosed.id := Secret.id secret;
                  Disclosed.title := Secret.title secret;
                  Disclosed.content := Secret.content secret;
                  Disclosed.expiresAt := Secret.expiresAt secret;
                  Disclosed.isOneTimeAccess := Secret.isOneTimeAccess secret;
                  Disclosed.createdAt := Secret.createdAt secret |})))
  | Marking secret =>
      settle (
        _ ← (if secretUpdateFails c then mthrow (PrismaError StoreUnavailable)
             else secret_update (now env) (Secret.id secret) (Some mark_accessed));
        mret (Settled (Return
               {| Disclosed.id := Secret.id secret;
                  Disclosed.title := Secret.title secret;
                  Disclosed.content := Secret.content secret;
                  Disclosed.expiresAt := Secret.expiresAt secret;
                  Disclosed.isOneTimeAccess := Secret.isOneTimeAccess secret;
                  Disclosed.createdAt := Secret.createdAt secret |})))
  | Settled out => λ sv, (sv, Settled out)
  end.

(** [n] steps of one call, nothing else running in between. *)
Fixpoint getBySlug_steps (n : nat) (c : Reader) (st : Stage) (sv : Server)
  : Server * Stage :=
  match n with
  | O => (sv, st)
  | S n' => let '(sv1, st1) := getBySlug_step c st sv in getBySlug_steps n' c st1 sv1
  end.

(** The call from its beginning to its end without interruption: the
    limiter and the three accesses to the store. *)
Definition getBySlug_alone (c : Reader) (sv : Server) : Server * Stage :=
  getBySlug_steps 4 c Called sv.

(** Calls in flight, and a schedule: the calls that take a step, in order,
    each named by its place in the list. *)
Fixpoint interleave (schedule : list nat) (pool : list (Reader * Stage)) (sv : Server)
  : Server * list (Reader * Stage) :=
  match schedule with
  | [] => (sv, pool)
  | i :: rest =>
      match pool !! i with
      | Some (c, st) =>
          let '(sv1, st1) := getBySlug_step c st sv in
          interleave rest (<[i := (c, st1)]> pool) sv1
      | None => interleave rest pool sv
      end
  end.

End Steps.

(** The secret whose access a call logs when nothing interrupts it: the one
    under the slug, if the request is let through, the secret passes the
    gates and the store accepts the entry. *)
Definition logged `{Bcrypt} (c : Reader) (sv : Server) : option Secret.t :=
  if let_through (now (reader_env c)) (reader_ctx c) (secretAccessRateLimit sv) then
    match lookup_slug (GetBySlugInput.slug (reader_input c)) sv with
    | Some secret =>
        if has_expired (now (reader_env c)) secret || consumed secret
           || negb (password_passes (GetBySlugInput.password (reader_input c)) secret)
           || accessLogFails (reader_env c)
        then None else Some secret
    | None => None
    end
  else None.

(** The call of a request, with a store that accepts its update. *)
Definition reader (env : Env) (ctx : Context) (input : GetBySlugInput.t) : Reader :=
  {| reader_env := env; reader_ctx := ctx; reader_input := input;
     secretUpdateFails := false |}.

End Awaits.

(** * Properties *)

(** ** Admission control *)

Module RateLimitFacts.
Import RateLimit.

Lemma check_keeps_policy now identifier rl :
  windowMs (check now identifier rl).1 = windowMs rl ∧
  maxRequests (check now identifier rl).1 = maxRequests rl.
Proof.
  unfold check, newWindow.
  destruct (store rl !! identifier) as [e|]; [|done].
  destruct (now >? resetTime e); [done|].
  by destruct (count e >=? maxRequests rl).
Qed.

(** A request that opens a window. *)
Lemma check_opens now identifier rl :
  opens_window now identifier rl →
  check now identifier rl = newWindow now identifier rl.
Proof.
  unfold opens_window, check.
  destruct (store rl !! identifier) as [e|]; [|done].
  intros Hgt. by rewrite (proj2 (Z.gtb_gt _ _) Hgt).
Qed.

(** A request inside the window of its bucket, below the limit. *)
Lemma check_below now identifier rl c R :
  store rl !! identifier = Some {| count := c; resetTime := R |} →
  now ≤ R → c < maxRequests rl →
  check now identifier rl =
    (set_store rl (<[identifier := {| count := c + 1; resetTime := R |}]> (store rl)),
     {| allowed := true;
        remainingRequests := maxRequests rl - (c + 1);
        res_resetTime := R |}).
Proof.
  intros Hs Hle Hlt. unfold check. rewrite Hs. simpl.
  destruct (Z.gtb_spec now R); [lia|].
  destruct (Z.geb_spec c (maxRequests rl)); [lia|done].
Qed.

(** A request inside the window, the limit reached: nothing changes. *)
Lemma check_rejects now identifier rl c R :
  store rl !! identifier = Some {| count := c; resetTime := R |} →
  now ≤ R → maxRequests rl ≤ c →
  check now identifier rl =
    (rl, {| allowed := false; remainingRequests := 0; res_resetTime := R |}).
Proof.
  intros Hs Hle Hge. unfold check. rewrite Hs. simpl.
  destruct (Z.gtb_spec now R); [lia|].
  destruct (Z.geb_spec c (maxRequests rl)); [done|lia].
Qed.

(** The buckets of the other identifiers are not touched. *)
Lemma check_other now identifier other rl :
  identifier ≠ other →
  store (check now identifier rl).1 !! other = store rl !! other.
Proof.
  intros Hne. unfold check, newWindow.
  destruct (store rl !! identifier) as [e|]; simpl.
  - destruct (now >? resetTime e); simpl; [by rewrite lookup_insert_ne|].
    destruct (count e >=? maxRequests rl); simpl; [done|by rewrite lookup_insert_ne].
  - by rewrite lookup_insert_ne.
Qed.

(** The sweep does not change what a later [check] answers. *)
Lemma check_after_cleanup now t identifier rl :
  now ≤ t →
  (check t identifier (cleanup now rl)).2 = (check t identifier rl).2.
Proof.
  intros Hle. unfold check, cleanup. simpl. rewrite map_lookup_filter.
  destruct (store rl !! identifier) as [e|]; simpl; [|done].
  case_guard as Hkeep; simpl in *.
  - destruct (t >? resetTime e); [done|]. by destruct (count e >=? maxRequests rl).
  - destruct (Z.gtb_spec t (resetTime e)); [done|lia].
Qed.

(** Requests that all fall inside the window of a bucket holding [c]. *)
Lemma checks_in_window identifier times : ∀ rl c R,
  store rl !! identifier = Some {| count := c; resetTime := R |} →
  Forall (λ t, t ≤ R) times →
  let out := checks identifier times rl in
  store out.1 !! identifier =
    Some {| count := Z.max c (Z.min (c + Z.of_nat (length times)) (maxRequests rl));
            resetTime := R |} ∧
  windowMs out.1 = windowMs rl ∧
  maxRequests out.1 = maxRequests rl ∧
  length out.2 = length times ∧
  ∀ (j : nat) r, out.2 !! j = Some r →
    allowed r = bool_decide (c + Z.of_nat j < maxRequests rl) ∧
    res_resetTime r = R ∧
    remainingRequests r = Z.max 0 (maxRequests rl - (c + Z.of_nat j + 1)).
Proof.
  induction times as [|t ts IH]; intros rl c R Hs Hall; simpl.
  - split; [rewrite Hs; do 2 f_equal; lia|].
    do 3 (split; [done|]). intros j r Hj. by rewrite lookup_nil in Hj.
  - apply Forall_cons in Hall as [Ht Hts].
    destruct (decide (c < maxRequests rl)) as [Hlt|Hge].
    + rewrite (check_below t identifier rl c R Hs Ht Hlt).
      set (rl1 := set_store rl _).
      assert (Hs1 : store rl1 !! identifier = Some {| count := c + 1; resetTime := R |})
        by (subst rl1; simpl; apply lookup_insert_eq).
      specialize (IH rl1 (c + 1) R Hs1 Hts).
      destruct (checks identifier ts rl1) as [rl2 rs]. simpl in *.
      destruct IH as (Hst & Hw & Hm & Hlen & Hres).
      split; [rewrite Hst; do 2 f_equal; lia|].
      do 3 (split; [by rewrite ?Hlen|]).
      intros [|j] r Hj; simpl in Hj.
      * injection Hj as <-. simpl.
        rewrite bool_decide_eq_true_2; [split; [done|split; [done|lia]]|lia].
      * destruct (Hres j r Hj) as (Ha & Hr & Hrem).
        rewrite Ha, Hr, Hrem. split; [apply bool_decide_ext; lia|split; [done|lia]].
    + rewrite (check_rejects t identifier rl c R Hs Ht ltac:(lia)).
      specialize (IH rl c R Hs Hts).
      destruct (checks identifier ts rl) as [rl2 rs]. simpl in *.
      destruct IH as (Hst & Hw & Hm & Hlen & Hres).
      split; [rewrite Hst; do 2 f_equal; lia|].
      do 3 (split; [by rewrite ?Hlen|]).
      intros [|j] r Hj; simpl in Hj.
      * injection Hj as <-. simpl.
        rewrite bool_decide_eq_false_2; [split; [done|split; [done|lia]]|lia].
      * destruct (Hres j r Hj) as (Ha & Hr & Hrem).
        rewrite Ha, Hr, Hrem. split; [apply bool_decide_ext; lia|split; [done|lia]].
Qed.

(** C4. A bucket with [maxRequests = N], [N] at least 1.  A request that
    finds no bucket, or arrives after [resetTime], sets the counter to 1 and
    [resetTime] to [now + windowMs], and is allowed.  Of the requests of one
    window, counted from 0, those before the [N]-th are allowed and from the
    [N]-th on they are rejected with [remainingRequests = 0]; the counter
    stops at [N], a rejected request leaving the limiter as it was.  Once
    [resetTime] has passed, the next request is allowed and opens a window. *)
Theorem check_fixed_window (rl : RateLimiter) (identifier : string)
    (t0 : Z) (later : list Z) (t' : Z) :
  1 ≤ maxRequests rl →
  opens_window t0 identifier rl →
  Forall (λ t, t ≤ t0 + windowMs rl) later →
  t0 + windowMs rl < t' →
  let N := maxRequests rl in
  let W := windowMs rl in
  let first := check t0 identifier rl in
  let out := checks identifier (t0 :: later) rl in
  first.2 = {| allowed := true; remainingRequests := N - 1; res_resetTime := t0 + W |} ∧
  store first.1 !! identifier = Some {| count := 1; resetTime := t0 + W |} ∧
  length out.2 = S (length later) ∧
  (∀ (i : nat) r, out.2 !! i = Some r →
     res_resetTime r = t0 + W ∧
     (Z.of_nat i < N →
        allowed r = true ∧ remainingRequests r = N - (Z.of_nat i + 1)) ∧
     (N ≤ Z.of_nat i → allowed r = false ∧ remainingRequests r = 0)) ∧
  store out.1 !! identifier =
    Some {| count := Z.min (1 + Z.of_nat (length later)) N; resetTime := t0 + W |} ∧
  (N ≤ 1 + Z.of_nat (length later) → ∀ t, t ≤ t0 + W →
     check t identifier out.1 =
       (out.1, {| allowed := false; remainingRequests := 0; res_resetTime := t0 + W |})) ∧
  (check t' identifier out.1).2 =
    {| allowed := true; remainingRequests := N - 1; res_resetTime := t' + W |} ∧
  store (check t' identifier out.1).1 !! identifier =
    Some {| count := 1; resetTime := t' + W |}.
Proof.
  intros HN Hopen Hlater Ht' N W first out.
  subst first out. simpl checks.
  rewrite (check_opens _ _ _ Hopen). unfold newWindow. simpl.
  set (rl1 := set_store rl _).
  assert (Hs1 : store rl1 !! identifier = Some {| count := 1; resetTime := t0 + W |})
    by (subst rl1; simpl; apply lookup_insert_eq).
  pose proof (checks_in_window identifier later rl1 1 (t0 + W) Hs1 Hlater) as Hin.
  destruct (checks identifier later rl1) as [rl2 rs]. simpl in *.
  destruct Hin as (Hst & Hw & Hm & Hlen & Hres).
  fold N in Hst, Hm, Hres. fold W in Hw.
  split; [done|]. split; [done|]. split; [by rewrite Hlen|].
  split; [|split; [|split; [|split]]].
  - intros [|i] r Hi; simpl in Hi.
    + injection Hi as <-. simpl. split; [done|]. split; [intros _; split; [done|lia]|lia].
    + destruct (Hres i r Hi) as (Ha & Hr & Hrem). rewrite Ha, Hr, Hrem.
      split; [done|]. split; intros Hcmp.
      * rewrite bool_decide_eq_true_2 by lia. split; [done|lia].
      * rewrite bool_decide_eq_false_2 by lia. split; [done|lia].
  - rewrite Hst. do 2 f_equal. lia.
  - intros Hfull t Ht.
    rewrite (check_rejects t identifier rl2 _ _ Hst Ht) by (rewrite Hm; lia).
    done.
  - unfold check. rewrite Hst. simpl.
    destruct (Z.gtb_spec t' (t0 + W)); [|lia].
    unfold newWindow. simpl. by rewrite Hw, Hm.
  - unfold check. rewrite Hst. simpl.
    destruct (Z.gtb_spec t' (t0 + W)); [|lia].
    unfold newWindow. simpl. rewrite Hw. apply lookup_insert_eq.
Qed.

(** Three requests per second: four requests in one window. *)
Lemma check_fixed_window_witness :
  let rl := new 1000 3 in
  (1 ≤ maxRequests rl ∧ opens_window 0 "10.0.0.1" rl ∧
   Forall (λ t, t ≤ 0 + windowMs rl) [1; 2; 1000] ∧ 0 + windowMs rl < 1001) ∧
  store (checks "10.0.0.1" [0; 1; 2; 1000] rl).1 !! "10.0.0.1" =
    Some {| count := 3; resetTime := 1000 |}.
Proof.
  intros rl.
  assert (H1 : 1 ≤ maxRequests rl) by (simpl; lia).
  assert (H2 : opens_window 0 "10.0.0.1" rl) by exact I.
  assert (H3 : Forall (λ t, t ≤ 0 + windowMs rl) [1; 2; 1000])
    by (repeat constructor; simpl; lia).
  assert (H4 : 0 + windowMs rl < 1001) by (simpl; lia).
  split; [done|].
  exact (proj1 (proj2 (proj2 (proj2 (proj2
           (check_fixed_window rl "10.0.0.1" 0 [1; 2; 1000] 1001 H1 H2 H3 H4)))))).
Defined.

End RateLimitFacts.

(** ** The secret lifecycle *)

Module RouterFacts.
Import secretRouter.

(** *** Rows found by a unique key *)

Lemma head_filter_elem {A} (P : A → Prop) `{!∀ x, Decision (P x)} (l : list A) x :
  head (filter P l) = Some x → x ∈ l ∧ P x.
Proof.
  intros Hh. apply head_Some_elem_of, list_elem_of_filter in Hh. tauto.
Qed.

Lemma head_filter_none {A} (P : A → Prop) `{!∀ x, Decision (P x)} (l : list A) :
  head (filter P l) = None ↔ ∀ x, x ∈ l → ¬ P x.
Proof.
  rewrite head_None. split.
  - intros Hnil x Hx HP. by eapply filter_nil_not_elem_of.
  - intros Hno. induction l as [|y l IH]; [done|].
    rewrite filter_cons_False by (apply Hno; left).
    apply IH. intros x Hx. apply Hno. by right.
Qed.

Lemma head_filter_is_Some {A} (P : A → Prop) `{!∀ x, Decision (P x)} (l : list A) x :
  x ∈ l → P x → is_Some (head (filter P l)).
Proof.
  intros Hx HP. apply head_is_Some. intros Hnil.
  by eapply filter_nil_not_elem_of.
Qed.

(** Two rows of a table agree as soon as they agree on a unique column. *)
Lemma NoDup_fmap_elem_eq {A B} (f : A → B) (l : list A) x y :
  NoDup (f <$> l) → x ∈ l → y ∈ l → f x = f y → x = y.
Proof.
  induction l as [|z l IH]; intros Hnd Hx Hy Hf; [by apply elem_of_nil in Hx|].
  rewrite fmap_cons in Hnd. apply NoDup_cons in Hnd as [Hz Hnd].
  apply elem_of_cons in Hx as [->|Hx]; apply elem_of_cons in Hy as [->|Hy].
  - done.
  - exfalso. apply Hz. rewrite Hf. by apply list_elem_of_fmap_2.
  - exfalso. apply Hz. rewrite <- Hf. by apply list_elem_of_fmap_2.
  - by apply IH.
Qed.

Lemma lookup_slug_Some slug sv s :
  lookup_slug slug sv = Some s → s ∈ secrets (db sv) ∧ Secret.slug s = slug.
Proof. apply (head_filter_elem (λ r, Secret.slug r = slug)). Qed.

Lemma lookup_id_Some id sv s :
  lookup_id id sv = Some s → s ∈ secrets (db sv) ∧ Secret.id s = id.
Proof. apply (head_filter_elem (λ r, Secret.id r = id)). Qed.

Lemma lookup_slug_unique slug sv s :
  wf_db (db sv) → s ∈ secrets (db sv) → Secret.slug s = slug →
  lookup_slug slug sv = Some s.
Proof.
  intros [_ Hnd] Hs Hslug.
  destruct (head_filter_is_Some (λ r, Secret.slug r = slug) _ s Hs Hslug) as [r Hr].
  unfold lookup_slug. rewrite Hr. f_equal.
  apply head_filter_elem in Hr as [Hr Hrs].
  eapply NoDup_fmap_elem_eq; [exact Hnd|done..|congruence].
Qed.

Section WithBcrypt.
Context `{Bcrypt}.

(** *** The paths through [getBySlug] and [checkRequirements] *)

(** The handler, as the cascade of its gates. *)
Lemma getBySlug_run env ctx input sv :
  getBySlug env ctx input sv =
    let sv1 := with_access_limiter sv
                 (after_admission (now env) ctx (secretAccessRateLimit sv)) in
    if negb (let_through (now env) ctx (secretAccessRateLimit sv)) then
      (sv1, Throw (TRPCError TOO_MANY_REQUESTS
                     "Too many secret access attempts. Please try again later."))
    else
      match lookup_slug (GetBySlugInput.slug input) sv with
      | None => (sv1, Throw (TRPCError NOT_FOUND "Secret not found"))
      | Some secret =>
          if has_expired (now env) secret then
            (sv1, Throw (TRPCError NOT_FOUND "Secret has expired"))
          else if consumed secret then
            (sv1, Throw (TRPCError NOT_FOUND "Secret has already been accessed"))
          else if truthy (Secret.password secret)
                  && negb (truthy (GetBySlugInput.password input)) then
            (sv1, Throw (TRPCError UNAUTHORIZED "Password required"))
          else if negb (password_passes (GetBySlugInput.password input) secret) then
            (sv1, Throw (TRPCError UNAUTHORIZED "Invalid password"))
          else if accessLogFails env then
            (sv1, Throw (PrismaError StoreUnavailable))
          else
            (with_db sv1
               {| secrets :=
                    if Secret.isOneTimeAccess secret
                    then update_where_id (now env) (Secret.id secret) mark_accessed
                           (secrets (db sv))
                    else secrets (db sv);
                  accessLogs := accessLogs (db sv) ++ [accessLog_data env ctx secret] |},
             Return (disclosed secret))
      end.
Proof.
  unfold getBySlug, let_through, after_admission, lookup_slug, password_passes.
  unfold mbind, M_bind, mret, M_ret, mthrow, M_throw.
  destruct (req ctx) as [r|] eqn:Hreq; simpl.
  all: unfold secretAccessRateLimit_check, secret_findUnique_slug, get_db.
  all: unfold mbind, M_bind, mret, M_ret; simpl.
  1: destruct (RateLimit.check _ _ _) as [rl res]; simpl.
  1: destruct (RateLimit.allowed res); simpl; [|done].
  all: destruct (head (filter _ (secrets (db sv)))) as [secret|] eqn:Hfind;
         [|by destruct sv].
  all: apply head_filter_elem in Hfind as [Hin _].
  all: destruct (has_expired (now env) secret); [by destruct sv|].
  all: destruct (consumed secret); [by destruct sv|].
  all: destruct (truthy (Secret.password secret)); simpl.
  all: try (destruct (truthy (GetBySlugInput.password input)); simpl; [|by destruct sv]).
  all: try (destruct (bcrypt_compare _ _); simpl; [|by destruct sv]).
  all: unfold accessLog_create.
  all: destruct (accessLogFails env); simpl; [by destruct sv|].
  all: unfold mbind, M_bind, get_db, put_db; simpl.
  all: unfold disclosed.
  all: destruct (Secret.isOneTimeAccess secret); [|done].
  all: unfold secret_update, mbind, M_bind, get_db, put_db, mret, M_ret; simpl.
  all: destruct (head_filter_is_Some (λ s, Secret.id s = Secret.id secret)
                   (secrets (db sv)) secret Hin eq_refl) as [row ->].
  all: done.
Qed.

Lemma checkRequirements_run env slug sv :
  checkRequirements env slug sv =
    match lookup_slug slug sv with
    | None => (sv, Throw (TRPCError NOT_FOUND "Secret not found"))
    | Some secret =>
        if has_expired (now env) secret then
          (sv, Throw (TRPCError NOT_FOUND "Secret has expired"))
        else if consumed secret then
          (sv, Throw (TRPCError NOT_FOUND "Secret has already been accessed"))
        else (sv, Return (requirements secret))
    end.
Proof.
  unfold checkRequirements, lookup_slug, secret_findUnique_slug, get_db.
  unfold mbind, M_bind, mret, M_ret, mthrow, M_throw. simpl.
  destruct (head _) as [secret|]; [|done].
  destruct (has_expired _ _); [done|]. by destruct (consumed _).
Qed.

Lemma create_run env ctx input sv :
  create env ctx input sv =
    if Nat.ltb (String.length (CreateInput.content input)) 1 then
      (sv, Throw (TRPCError BAD_REQUEST "Content is required"))
    else
      let sv1 := with_create_limiter sv
                   (after_admission (now env) ctx (secretCreateRateLimit sv)) in
      if negb (let_through (now env) ctx (secretCreateRateLimit sv)) then
        (sv1, Throw (TRPCError TOO_MANY_REQUESTS
                       "Too many secrets created. Please try again later."))
      else if decide (taken (secret_data env ctx input) sv) then
        (sv1, Throw (PrismaError UniqueConstraintFailed))
      else
        (with_db sv1
           {| secrets := secrets (db sv) ++ [secret_data env ctx input];
              accessLogs := accessLogs (db sv) |},
         Return (created (secret_data env ctx input))).
Proof.
  unfold create, let_through, after_admission, taken.
  unfold mbind, M_bind, mret, M_ret, mthrow, M_throw.
  destruct (Nat.ltb _ 1); [done|].
  destruct (req ctx) as [r|]; simpl.
  all: unfold secretCreateRateLimit_check, secret_create, get_db, put_db.
  all: unfold mbind, M_bind, mret, M_ret, mthrow, M_throw; simpl.
  1: destruct (RateLimit.check _ _ _) as [rl res]; simpl.
  1: destruct (RateLimit.allowed res); simpl; [|done].
  all: destruct (decide _); [by destruct sv|done].
Qed.

Lemma update_run env ctx input sv :
  update env ctx input sv =
    match user ctx with
    | None => (sv, Throw (TRPCError UNAUTHORIZED "Not authenticated"))
    | Some u =>
        match lookup_id (UpdateInput.id input) sv with
        | None => (sv, Throw (TRPCError NOT_FOUND "Secret not found"))
        | Some secret =>
            if decide (Secret.userId secret ≠ Some (user_id u)) then
              (sv, Throw (TRPCError FORBIDDEN "Not authorized to update this secret"))
            else
              match title_expiresAt_data (UpdateInput.title input)
                      (UpdateInput.expiresAt input) with
              | None => (sv, Return (updated secret))
              | Some change =>
                  (with_db sv
                     {| secrets := update_where_id (now env) (UpdateInput.id input) change
                                     (secrets (db sv));
                        accessLogs := accessLogs (db sv) |},
                   Return (updated (set_updatedAt (now env) (change secret))))
              end
        end
    end.
Proof.
  unfold update, protectedProcedure, lookup_id.
  destruct (user ctx) as [u|]; [|done].
  unfold secret_findUnique_id, secret_update, get_db, put_db.
  unfold mbind, M_bind, mret, M_ret, mthrow, M_throw. simpl.
  destruct (head _) as [secret|] eqn:Hfind; [|done].
  destruct (decide _); [done|]. rewrite Hfind.
  by destruct (title_expiresAt_data _ _).
Qed.

(** A [data] that sets a field sets [title] and [expiresAt] as [update]
    asks, and one that sets none has neither. *)
Lemma title_expiresAt_data_Some title expiresAt change :
  title_expiresAt_data title expiresAt = Some change →
  change = set_title_expiresAt title expiresAt.
Proof. destruct title, expiresAt; simpl; congruence. Qed.

Lemma delete_run ctx id sv :
  delete ctx id sv =
    match user ctx with
    | None => (sv, Throw (TRPCError UNAUTHORIZED "Not authenticated"))
    | Some u =>
        match lookup_id id sv with
        | None => (sv, Throw (TRPCError NOT_FOUND "Secret not found"))
        | Some secret =>
            if decide (Secret.userId secret ≠ Some (user_id u)) then
              (sv, Throw (TRPCError FORBIDDEN "Not authorized to delete this secret"))
            else
              (with_db sv
                 {| secrets := filter (λ s, Secret.id s ≠ id) (secrets (db sv));
                    accessLogs := filter (λ l, AccessLog.secretId l ≠ id)
                                    (accessLogs (db sv)) |},
               Return true)
        end
    end.
Proof.
  unfold delete, protectedProcedure, lookup_id.
  destruct (user ctx) as [u|]; [|done].
  unfold secret_findUnique_id, secret_delete, get_db, put_db.
  unfold mbind, M_bind, mret, M_ret, mthrow, M_throw. simpl.
  destruct (head _) as [secret|] eqn:Hfind; [|done].
  destruct (decide _); [done|]. by rewrite Hfind.
Qed.

(** *** What a request does to the table of secrets *)

Lemma keeps_mark_accessed : keeps mark_accessed.
Proof. by intros []. Qed.

Lemma keeps_set_title_expiresAt title expiresAt :
  keeps (set_title_expiresAt title expiresAt).
Proof. by intros []. Qed.

Lemma serve_table_step env ctx c sv :
  table_step (drawn env c) (secrets (db sv)) (secrets (db (serve env ctx c sv))).
Proof.
  destruct c as [input|input|slug|id|input]; simpl.
  - rewrite create_run.
    destruct (Nat.ltb _ 1); [constructor|]. simpl.
    destruct (negb _); [constructor|].
    destruct (decide _) as [|Hfree]; [constructor|].
    simpl. by apply table_insert.
  - rewrite getBySlug_run. simpl.
    destruct (negb (let_through _ _ _)); [constructor|].
    destruct (lookup_slug _ sv) as [secret|]; [|constructor].
    repeat (match goal with |- context [if ?b then _ else _] =>
              destruct b; [apply table_same|] end).
    simpl. destruct (Secret.isOneTimeAccess secret); [|constructor].
    apply table_update, keeps_mark_accessed.
  - rewrite checkRequirements_run.
    destruct (lookup_slug _ sv) as [secret|]; [|constructor].
    destruct (has_expired _ _); [constructor|].
    destruct (consumed _); constructor.
  - rewrite delete_run.
    destruct (user ctx); [|constructor].
    destruct (lookup_id _ sv); [|constructor].
    destruct (decide _); [constructor|]. simpl. apply table_delete.
  - rewrite update_run.
    destruct (user ctx); [|constructor].
    destruct (lookup_id _ sv); [|constructor].
    destruct (decide _); [constructor|].
    destruct (title_expiresAt_data _ _) as [change|] eqn:Hdata; [|apply table_same].
    apply title_expiresAt_data_Some in Hdata as ->. simpl.
    apply table_update, keeps_set_title_expiresAt.
Qed.

Lemma set_updatedAt_keeps t change :
  keeps change → keeps (λ s, set_updatedAt t (change s)).
Proof. intros Hk s. destruct (Hk s) as (?&?&?&?). by destruct (change s). Qed.

Lemma update_where_id_elem t id change rows row' :
  keeps change →
  row' ∈ update_where_id t id change rows →
  ∃ row g, row ∈ rows ∧ row' = g row ∧ keeps g.
Proof.
  intros Hk Hin. apply list_elem_of_fmap in Hin as (row & -> & Hrow).
  case_decide.
  - exists row, (λ s, set_updatedAt t (change s)).
    split; [done|]. split; [done|]. by apply set_updatedAt_keeps.
  - exists row, (λ s, s). split; [done|]. split; [done|]. by intros ?.
Qed.

Lemma update_where_id_keys t id change rows :
  keeps change →
  Secret.id <$> update_where_id t id change rows = Secret.id <$> rows ∧
  Secret.slug <$> update_where_id t id change rows = Secret.slug <$> rows.
Proof.
  intros Hk. unfold update_where_id. rewrite <- !list_fmap_compose.
  split; apply list_fmap_ext; intros _ s _; simpl; case_decide; try done.
  all: by destruct (set_updatedAt_keeps t change Hk s) as (?&?&?&?).
Qed.

(** The constraints of the schema hold after every request. *)
Lemma table_step_wf draw d d' :
  wf_db d → table_step draw (secrets d) (secrets d') → wf_db d'.
Proof.
  intros [Hid Hslug] Hstep. unfold wf_db.
  inversion Hstep as [Heq|row Hdraw Hfree Heq|t id change Hk Heq|id Heq].
  - done.
  - rewrite !fmap_app. simpl. split; apply NoDup_app.
    all: split; [done|]; split; [|apply NoDup_singleton].
    all: intros x Hx Hrow; apply list_elem_of_singleton in Hrow as ->.
    all: apply list_elem_of_fmap in Hx as (r & Hr & Hin).
    all: apply Hfree, Exists_exists; exists r; split; [done|]; auto.
  - destruct (update_where_id_keys t id change (secrets d) Hk) as [-> ->]. done.
  - split; [apply (sublist_NoDup _ _ Hid)|apply (sublist_NoDup _ _ Hslug)].
    all: apply fmap_sublist, sublist_filter.
Qed.

Lemma serve_wf env ctx c sv : wf_db (db sv) → wf_db (db (serve env ctx c sv)).
Proof. intros Hwf. eapply table_step_wf; [done|]. apply serve_table_step. Qed.

Lemma serve_all_wf reqs : ∀ sv, wf_db (db sv) → wf_db (db (serve_all reqs sv)).
Proof.
  induction reqs as [|[[env ctx] c] reqs IH]; intros sv Hwf; [done|].
  simpl. by apply IH, serve_wf.
Qed.

Lemma initial_wf : wf_db (db initial).
Proof. split; constructor. Qed.

(** So they hold in every state the server reaches from its start. *)
Lemma reachable_wf reqs : wf_db (db (serve_all reqs initial)).
Proof. apply serve_all_wf, initial_wf. Qed.

(** A slug whose rows are all consumed stays so, as long as no request
    draws it again for a new secret. *)
Lemma table_step_spent draw slug sv sv' :
  draw ≠ Some slug →
  table_step draw (secrets (db sv)) (secrets (db sv')) →
  spent slug sv → spent slug sv'.
Proof.
  intros Hdraw Hstep Hsp row' Hin Hslug.
  inversion Hstep as [Heq|row Hrow Hfree Heq|t id change Hk Heq|id Heq];
    try rewrite <- Heq in Hin.
  - by apply Hsp.
  - apply elem_of_app in Hin as [Hin|Hin]; [by apply Hsp|].
    apply list_elem_of_singleton in Hin as ->. congruence.
  - apply update_where_id_elem in Hin as (row & g & Hin & -> & Hg); [|done].
    destruct (Hg row) as (_ & Hs & Ho & Ha).
    assert (Hc : consumed row = true) by (apply Hsp; [done|congruence]).
    unfold consumed in *. apply andb_true_iff in Hc as [Hc1 Hc2].
    rewrite Ho, Hc1. simpl. by apply Ha.
  - apply list_elem_of_filter in Hin as [_ Hin]. by apply Hsp.
Qed.

Lemma serve_all_spent slug reqs : ∀ sv,
  Forall (λ r, ¬ draws_slug slug r) reqs →
  spent slug sv → spent slug (serve_all reqs sv).
Proof.
  induction reqs as [|[[env ctx] c] reqs IH]; intros sv Hall Hsp; [done|].
  apply Forall_cons in Hall as [Hdraw Hall]. simpl. apply IH; [done|].
  eapply table_step_spent; [exact Hdraw|apply serve_table_step|done].
Qed.

(** [hasBeenAccessed] is never cleared. *)
Lemma table_step_accessed draw rows rows' row row' :
  NoDup (Secret.id <$> rows) →
  table_step draw rows rows' →
  row ∈ rows → Secret.hasBeenAccessed row = true →
  row' ∈ rows' → Secret.id row' = Secret.id row →
  Secret.hasBeenAccessed row' = true.
Proof.
  intros Hnd Hstep Hin Hacc Hin' Hid.
  assert (Hsame : ∀ r, r ∈ rows → Secret.id r = Secret.id row → r = row)
    by (intros r Hr Hrid; by eapply NoDup_fmap_elem_eq).
  inversion Hstep as [Heq|new Hnew Hfree Heq|t id change Hk Heq|id Heq];
    try rewrite <- Heq in Hin'.
  - by rewrite (Hsame row').
  - apply elem_of_app in Hin' as [Hin'|Hin']; [by rewrite (Hsame row')|].
    apply list_elem_of_singleton in Hin' as ->.
    exfalso. apply Hfree, Exists_exists. exists row. auto.
  - apply update_where_id_elem in Hin' as (r & g & Hr & -> & Hg); [|done].
    destruct (Hg r) as (Hgid & _ & _ & Ha).
    apply Ha. rewrite (Hsame r); [done..|congruence].
  - apply list_elem_of_filter in Hin' as [_ Hin']. by rewrite (Hsame row').
Qed.

(** *** One-time secrets *)

(** The disclosure of a one-time secret leaves its slug spent. *)
Lemma disclosure_spends t slug sv sv' secret :
  wf_db (db sv) →
  lookup_slug slug sv = Some secret →
  Secret.isOneTimeAccess secret = true →
  secrets (db sv') = update_where_id t (Secret.id secret) mark_accessed (secrets (db sv)) →
  spent slug sv'.
Proof.
  intros [_ Hnd] Hfind Hone Hrows row' Hin Hslug.
  apply lookup_slug_Some in Hfind as [Hsec Hsl].
  rewrite Hrows in Hin. apply list_elem_of_fmap in Hin as (row & -> & Hrow).
  assert (row = secret) as ->.
  { eapply NoDup_fmap_elem_eq; [exact Hnd|done..|].
    rewrite Hsl, <- Hslug. by case_decide; destruct row. }
  rewrite decide_True by done.
  unfold consumed. simpl. by rewrite Hone.
Qed.

(** Under a spent slug nothing is disclosed. *)
Lemma spent_not_disclosed env ctx slug supplied sv :
  spent slug sv →
  let out := (getBySlug env ctx (GetBySlugInput.mk slug supplied) sv).2 in
  is_Return out = false ∧
  (let_through (now env) ctx (secretAccessRateLimit sv) = true →
   thrown_code out = Some NOT_FOUND).
Proof.
  intros Hsp. rewrite getBySlug_run. simpl.
  destruct (let_through _ _ _); simpl; [|by split].
  destruct (lookup_slug slug sv) as [row|] eqn:Hfind; [|by split].
  apply lookup_slug_Some in Hfind as [Hin Hslug].
  rewrite (Hsp row Hin Hslug).
  by destruct (has_expired _ _).
Qed.

(** Requests served one after the other, each handler running from its
    beginning to its end before the next ([AwaitFacts] has the calls that
    are in flight together).  Take a one-time secret that has not been
    accessed and has not expired, and a [getBySlug] that the limiter lets
    through and that passes the password gate.  This first [getBySlug]
    returns the content and marks the secret accessed.  After it, and after
    any further requests to the router among which no [create] draws the
    same slug again, no [getBySlug] on the slug returns anything, and each
    one the limiter lets through throws [NOT_FOUND].  No request ever clears
    [hasBeenAccessed]: a stored row that has it set still has it set after
    the request. *)
Theorem one_time_secret_disclosed_once env ctx slug supplied sv secret :
  wf_db (db sv) →
  lookup_slug slug sv = Some secret →
  Secret.isOneTimeAccess secret = true →
  Secret.hasBeenAccessed secret = false →
  has_expired (now env) secret = false →
  password_passes supplied secret = true →
  let_through (now env) ctx (secretAccessRateLimit sv) = true →
  accessLogFails env = false →
  let first := getBySlug env ctx (GetBySlugInput.mk slug supplied) sv in
  first.2 = Return (disclosed secret) ∧
  Disclosed.content (disclosed secret) = Secret.content secret ∧
  (∃ row, lookup_slug slug first.1 = Some row ∧
          Secret.id row = Secret.id secret ∧
          Secret.content row = Secret.content secret ∧
          Secret.hasBeenAccessed row = true) ∧
  (∀ reqs env' ctx' supplied',
     Forall (λ r, ¬ draws_slug slug r) reqs →
     let sv' := serve_all reqs first.1 in
     let again := (getBySlug env' ctx' (GetBySlugInput.mk slug supplied') sv').2 in
     is_Return again = false ∧
     (let_through (now env') ctx' (secretAccessRateLimit sv') = true →
      thrown_code again = Some NOT_FOUND)) ∧
  (∀ env' ctx' c sv0 row row',
     wf_db (db sv0) →
     row ∈ secrets (db sv0) → Secret.hasBeenAccessed row = true →
     row' ∈ secrets (db (serve env' ctx' c sv0)) → Secret.id row' = Secret.id row →
     Secret.hasBeenAccessed row' = true).
Proof.
  intros Hwf Hfind Hone Hfresh Hlive Hpw Hadm Hlog first.
  assert (Hrun : first =
    (with_db (with_access_limiter sv
                (after_admission (now env) ctx (secretAccessRateLimit sv)))
       {| secrets := update_where_id (now env) (Secret.id secret) mark_accessed
                       (secrets (db sv));
          accessLogs := accessLogs (db sv) ++ [accessLog_data env ctx secret] |},
     Return (disclosed secret))).
  { subst first. rewrite getBySlug_run. simpl.
    rewrite Hadm, Hfind, Hlive, Hlog. simpl.
    unfold consumed. rewrite Hfresh, andb_false_r.
    rewrite Hpw. simpl.
    replace (truthy (Secret.password secret) && negb (truthy supplied)) with false.
    - by rewrite Hone.
    - unfold password_passes in Hpw.
      destruct (truthy (Secret.password secret)); [|done].
      by destruct (truthy supplied). }
  assert (Hspent : spent slug first.1).
  { eapply disclosure_spends; [exact Hwf|exact Hfind|exact Hone|].
    by rewrite Hrun. }
  split; [by rewrite Hrun|]. split; [done|]. split; [|split].
  - pose proof Hfind as [Hin Hslug]%lookup_slug_Some.
    set (row := set_updatedAt (now env) (mark_accessed secret)).
    exists row. split; [|by destruct secret].
    apply lookup_slug_unique.
    + eapply table_step_wf; [exact Hwf|]. rewrite Hrun. simpl.
      apply (table_update None), keeps_mark_accessed.
    + rewrite Hrun. simpl. apply list_elem_of_fmap. exists secret.
      split; [|done]. by rewrite decide_True.
    + subst row. by destruct secret.
  - intros reqs env' ctx' supplied' Hreqs sv' again.
    by apply spent_not_disclosed, serve_all_spent.
  - intros env' ctx' c sv0 row row' [Hnd _] Hin Hacc Hin' Hid.
    eapply table_step_accessed; [exact Hnd|apply (serve_table_step env' ctx' c)|done..].
Qed.

(** *** Secrets out of reach *)

(** C2, as the code has it. A slug with no row, with an expired row, or
    with a consumed row gets an error of the one code [NOT_FOUND] from
    [checkRequirements] and from every [getBySlug] the limiter lets through,
    and never any data; the message of the error names the case: "Secret not
    found", "Secret has expired", "Secret has already been accessed". *)
Theorem gone_is_NOT_FOUND env ctx slug supplied sv :
  gone (now env) slug sv = true →
  let message :=
    match lookup_slug slug sv with
    | None => "Secret not found"
    | Some s => if has_expired (now env) s then "Secret has expired"
                else "Secret has already been accessed"
    end in
  let probe := checkRequirements env slug sv in
  let read := getBySlug env ctx (GetBySlugInput.mk slug supplied) sv in
  probe.2 = Throw (TRPCError NOT_FOUND message) ∧
  thrown_code probe.2 = Some NOT_FOUND ∧
  is_Return read.2 = false ∧
  (let_through (now env) ctx (secretAccessRateLimit sv) = true →
   read.2 = Throw (TRPCError NOT_FOUND message) ∧
   thrown_code read.2 = Some NOT_FOUND).
Proof.
  unfold gone. intros Hgone. simpl.
  rewrite checkRequirements_run, getBySlug_run. simpl.
  destruct (lookup_slug slug sv) as [s|].
  - destruct (has_expired (now env) s); simpl in *.
    + by destruct (let_through _ _ _).
    + rewrite Hgone. by destruct (let_through _ _ _).
  - by destruct (let_through _ _ _).
Qed.

(** C7, as the code has it. A stored secret with [expiresAt] set counts as
    expired exactly when [expiresAt < now]; then [checkRequirements] and
    every [getBySlug] the limiter lets through throw [NOT_FOUND], whatever
    [hasBeenAccessed] is.  At [now = expiresAt], and before, it does not
    count as expired: unless it is consumed, [checkRequirements] answers. *)
Theorem expired_after_expiresAt env ctx slug supplied sv secret e :
  lookup_slug slug sv = Some secret →
  Secret.expiresAt secret = Some e →
  let probe := checkRequirements env slug sv in
  let read := getBySlug env ctx (GetBySlugInput.mk slug supplied) sv in
  (has_expired (now env) secret = true ↔ e < now env) ∧
  (e < now env →
     probe.2 = Throw (TRPCError NOT_FOUND "Secret has expired") ∧
     is_Return read.2 = false ∧
     (let_through (now env) ctx (secretAccessRateLimit sv) = true →
      read.2 = Throw (TRPCError NOT_FOUND "Secret has expired"))) ∧
  (now env ≤ e → consumed secret = false →
     probe.2 = Return (requirements secret)).
Proof.
  intros Hfind He. simpl.
  assert (Hexp : has_expired (now env) secret = true ↔ e < now env).
  { unfold has_expired. rewrite He. apply Z.ltb_lt. }
  rewrite checkRequirements_run, getBySlug_run. simpl. rewrite Hfind.
  split; [done|]. split.
  - intros Hlt. rewrite (proj2 Hexp Hlt). by destruct (let_through _ _ _).
  - intros Hle Hcons.
    destruct (has_expired (now env) secret);
      [destruct Hexp as [Hlt _]; specialize (Hlt eq_refl); lia|].
    by rewrite Hcons.
Qed.

(** *** The password gate *)

(** C3. For a stored secret that is neither expired nor consumed, and a
    request the limiter lets through, [getBySlug] throws [UNAUTHORIZED]
    exactly when the secret has a password hash and the request either
    carries no password ([!password]: none, or the empty string), which gives
    "Password required", or carries one that [bcrypt.compare] rejects, which
    gives "Invalid password".  A secret with no password hash is disclosed
    whatever the request carries, none included. *)
Theorem getBySlug_unauthorized env ctx slug supplied sv secret :
  lookup_slug slug sv = Some secret →
  has_expired (now env) secret = false →
  consumed secret = false →
  let_through (now env) ctx (secretAccessRateLimit sv) = true →
  let out := (getBySlug env ctx (GetBySlugInput.mk slug supplied) sv).2 in
  let rejected :=
    bcrypt_compare (default EmptyString supplied)
      (default EmptyString (Secret.password secret)) = false in
  (thrown_code out = Some UNAUTHORIZED ↔
     truthy (Secret.password secret) = true ∧ (truthy supplied = false ∨ rejected)) ∧
  (out = Throw (TRPCError UNAUTHORIZED "Password required") ↔
     truthy (Secret.password secret) = true ∧ truthy supplied = false) ∧
  (out = Throw (TRPCError UNAUTHORIZED "Invalid password") ↔
     truthy (Secret.password secret) = true ∧ truthy supplied = true ∧ rejected) ∧
  (truthy (Secret.password secret) = false → accessLogFails env = false →
     out = Return (disclosed secret) ∧
     (getBySlug env ctx (GetBySlugInput.mk slug None) sv).2 = Return (disclosed secret)).
Proof.
  intros Hfind Hlive Hcons Hadm. simpl.
  rewrite !getBySlug_run. simpl.
  rewrite Hadm, Hfind, Hlive, Hcons. simpl. unfold password_passes. simpl.
  destruct (truthy (Secret.password secret)); simpl.
  - destruct (truthy supplied); simpl.
    + destruct (bcrypt_compare _ _); simpl.
      * destruct (accessLogFails env); simpl; intuition congruence.
      * intuition congruence.
    + intuition congruence.
  - destruct (accessLogFails env); simpl; intuition congruence.
Qed.

(** *** The access log *)

(** C5, as the code has it. When the insertion of the access log entry is
    rejected, a [getBySlug] that has passed the limiter and every gate fails
    with that rejection: the content is not returned, no entry is logged and
    the secret is not marked accessed. *)
Theorem log_failure_fails_disclosure env ctx slug supplied sv secret :
  lookup_slug slug sv = Some secret →
  has_expired (now env) secret = false →
  consumed secret = false →
  password_passes supplied secret = true →
  let_through (now env) ctx (secretAccessRateLimit sv) = true →
  accessLogFails env = true →
  let out := getBySlug env ctx (GetBySlugInput.mk slug supplied) sv in
  out.2 = Throw (PrismaError StoreUnavailable) ∧
  is_Return out.2 = false ∧
  db out.1 = db sv.
Proof.
  intros Hfind Hlive Hcons Hpw Hadm Hlog. simpl.
  rewrite getBySlug_run. simpl.
  rewrite Hadm, Hfind, Hlive, Hcons, Hpw, Hlog. simpl.
  replace (truthy (Secret.password secret) && negb (truthy supplied)) with false;
    [done|].
  unfold password_passes in Hpw.
  destruct (truthy (Secret.password secret)); [|done].
  by destruct (truthy supplied).
Qed.

(** *** Creation *)

Lemma nonempty_passes_validation (X : string) :
  X ≠ EmptyString → Nat.ltb (String.length X) 1 = false.
Proof. by destruct X. Qed.

(** C6, as the code has it. [create] draws one slug, the first [nanoid(12)]
    of the request, and stores the secret under it.  For a valid request
    that the limiter lets through: if a stored secret already has that slug,
    the creation fails with the rejection of the unique constraint and
    stores nothing; if neither the slug nor the id is taken, it succeeds
    under that slug.  Nothing is drawn a second time: later draws have no
    bearing on the result. *)
Theorem create_draws_one_slug env ctx input sv :
  CreateInput.content input ≠ EmptyString →
  let_through (now env) ctx (secretCreateRateLimit sv) = true →
  let row := secret_data env ctx input in
  let out := create env ctx input sv in
  Secret.slug row = nanoid env 0 ∧
  ((∃ s, s ∈ secrets (db sv) ∧ Secret.slug s = nanoid env 0) →
     out.2 = Throw (PrismaError UniqueConstraintFailed) ∧ db out.1 = db sv) ∧
  (¬ taken row sv →
     out.2 = Return (created row) ∧
     Created.slug (created row) = nanoid env 0 ∧
     secrets (db out.1) = secrets (db sv) ++ [row]) ∧
  (∀ env', now env' = now env → cuid env' = cuid env →
     nanoid env' 0 = nanoid env 0 →
     create env' ctx input sv = out).
Proof.
  intros Hvalid Hadm. simpl.
  split; [done|]. split; [|split].
  - intros (s & Hin & Hslug). rewrite create_run.
    rewrite (nonempty_passes_validation _ Hvalid). simpl. rewrite Hadm. simpl.
    rewrite decide_True; [done|].
    apply Exists_exists. exists s. split; [done|]. by right.
  - intros Hfree. rewrite create_run.
    rewrite (nonempty_passes_validation _ Hvalid). simpl. rewrite Hadm. simpl.
    by rewrite decide_False.
  - intros env' Hnow Hcuid Hslug. rewrite !create_run.
    unfold secret_data, taken. simpl. by rewrite Hnow, Hcuid, Hslug.
Qed.

(** C9, as the code has it.  Take a [create] with content [X], no
    password, no expiration and [isOneTimeAccess = false], and a [getBySlug]
    right after it that the limiter lets through and whose access is logged.
    With an empty [X] the creation is refused by the schema, "Content is
    required", and stores nothing.  It succeeds only if [X] is not empty,
    its request is let through and the drawn slug and id are free; for a
    caller without a user, whose row refers to no account, these conditions
    are enough.  Whenever it succeeds it returns the drawn slug, [getBySlug]
    on that slug returns content [X], and the value [create] returned is the
    one it returns for every other content and password: it carries neither
    the content nor the password hash. *)
Theorem create_then_getBySlug env ctx title (X : string) sv env' ctx' supplied :
  let input := CreateInput.mk title X None None false in
  let made := create env ctx input sv in
  let_through (now env') ctx' (secretAccessRateLimit made.1) = true →
  accessLogFails env' = false →
  (X = EmptyString →
     made = (sv, Throw (TRPCError BAD_REQUEST "Content is required"))) ∧
  (is_Return made.2 = true →
     X ≠ EmptyString ∧
     let_through (now env) ctx (secretCreateRateLimit sv) = true ∧
     ¬ taken (secret_data env ctx input) sv) ∧
  (user ctx = None →
     X ≠ EmptyString →
     let_through (now env) ctx (secretCreateRateLimit sv) = true →
     ¬ taken (secret_data env ctx input) sv →
     is_Return made.2 = true) ∧
  (∀ out, made.2 = Return out →
     Created.slug out = nanoid env 0 ∧
     (∃ got,
        (getBySlug env' ctx' (GetBySlugInput.mk (Created.slug out) supplied) made.1).2
          = Return got ∧
        Disclosed.content got = X) ∧
     (∀ (Y : string) password, Y ≠ EmptyString →
        (create env ctx (CreateInput.mk title Y password None false) sv).2 = Return out)).
Proof.
  intros input made. set (row := secret_data env ctx input).
  assert (Hmade : made =
    if Nat.ltb (String.length X) 1 then
      (sv, Throw (TRPCError BAD_REQUEST "Content is required"))
    else
      let sv1 := with_create_limiter sv
                   (after_admission (now env) ctx (secretCreateRateLimit sv)) in
      if negb (let_through (now env) ctx (secretCreateRateLimit sv)) then
        (sv1, Throw (TRPCError TOO_MANY_REQUESTS
                       "Too many secrets created. Please try again later."))
      else if decide (taken row sv) then
        (sv1, Throw (PrismaError UniqueConstraintFailed))
      else
        (with_db sv1
           {| secrets := secrets (db sv) ++ [row]; accessLogs := accessLogs (db sv) |},
         Return (created row)))
    by (subst made; apply create_run).
  destruct (Nat.ltb (String.length X) 1) eqn:Hlen.
  { rewrite Hmade. intros _ _. split; [done|]. split; [done|]. split; [|done].
    intros _ HX. by destruct X. }
  assert (HX : X ≠ EmptyString) by (intros ->; discriminate).
  destruct (let_through (now env) ctx (secretCreateRateLimit sv)) eqn:Hadm;
    simpl in Hmade; [|by rewrite Hmade].
  destruct (decide (taken row sv)) as [Htaken|Hfree]; [by rewrite Hmade|].
  assert (Hfind : lookup_slug (nanoid env 0) made.1 = Some row).
  { rewrite Hmade. unfold lookup_slug. simpl. rewrite filter_app.
    assert (Hnone : filter (λ s, Secret.slug s = nanoid env 0) (secrets (db sv)) = []).
    { apply head_None, head_filter_none. intros s Hin Hslug.
      apply Hfree, Exists_exists. exists s. split; [done|]. by right. }
    rewrite Hnone. simpl. by rewrite filter_cons_True. }
  intros Hadm' Hlog. split; [done|]. split; [by rewrite Hmade|].
  split; [by rewrite Hmade|].
  intros out Hout. rewrite Hmade in Hout. injection Hout as <-.
  split; [done|]. split.
  - exists (disclosed row). split; [|done].
    rewrite getBySlug_run. simpl. by rewrite Hfind, Hadm', Hlog.
  - intros Y password HY. rewrite create_run. simpl.
    rewrite (nonempty_passes_validation _ HY), Hadm. simpl.
    by rewrite decide_False.
Qed.

(** *** Edits by the owner *)

(** C8. For an authenticated requester, [update] throws [NOT_FOUND] when no
    secret has the given id and [FORBIDDEN] when the secret is not the
    requester's, the server staying as it was; otherwise it succeeds.  In
    every case each row keeps its place and its [id], [content],
    [password], [slug], [isOneTimeAccess], [hasBeenAccessed], [createdAt]
    and [userId] (only [title], [expiresAt] and the [updatedAt] stamp can
    differ), rows with another id are untouched, and the access logs and
    the limiters are as before. *)
Theorem update_title_expiresAt_only env ctx input sv u :
  user ctx = Some u →
  let id := UpdateInput.id input in
  let out := update env ctx input sv in
  (lookup_id id sv = None ↔ ∀ row, row ∈ secrets (db sv) → Secret.id row ≠ id) ∧
  (lookup_id id sv = None →
     out = (sv, Throw (TRPCError NOT_FOUND "Secret not found"))) ∧
  (∀ secret, lookup_id id sv = Some secret →
     Secret.userId secret ≠ Some (user_id u) →
     out = (sv, Throw (TRPCError FORBIDDEN "Not authorized to update this secret"))) ∧
  (∀ secret, lookup_id id sv = Some secret →
     Secret.userId secret = Some (user_id u) →
     is_Return out.2 = true) ∧
  length (secrets (db out.1)) = length (secrets (db sv)) ∧
  (∀ (i : nat) row, secrets (db sv) !! i = Some row →
     ∃ row', secrets (db out.1) !! i = Some row' ∧
       Secret.id row' = Secret.id row ∧
       Secret.content row' = Secret.content row ∧
       Secret.password row' = Secret.password row ∧
       Secret.slug row' = Secret.slug row ∧
       Secret.isOneTimeAccess row' = Secret.isOneTimeAccess row ∧
       Secret.hasBeenAccessed row' = Secret.hasBeenAccessed row ∧
       Secret.createdAt row' = Secret.createdAt row ∧
       Secret.userId row' = Secret.userId row ∧
       (Secret.id row ≠ id → row' = row)) ∧
  accessLogs (db out.1) = accessLogs (db sv) ∧
  secretCreateRateLimit out.1 = secretCreateRateLimit sv ∧
  secretAccessRateLimit out.1 = secretAccessRateLimit sv.
Proof.
  intros Hu id out. subst out. rewrite update_run, Hu. fold id.
  split; [apply (head_filter_none (λ s, Secret.id s = id))|].
  destruct (lookup_id id sv) as [secret|] eqn:Hfind.
  - destruct (decide (Secret.userId secret ≠ Some (user_id u))) as [Hne|Heq].
    + split; [done|]. split; [by intros ? [= <-]|].
      split; [intros ? [= <-] ?; done|].
      split; [done|]. split; [|done].
      intros i row Hi. exists row. by repeat split.
    + destruct (title_expiresAt_data _ _) as [change|] eqn:Hdata.
      * apply title_expiresAt_data_Some in Hdata as ->.
        split; [done|]. split; [by intros ? [= <-]|].
        split; [done|]. simpl.
        split; [by unfold update_where_id; rewrite length_fmap|].
        split; [|done].
        intros i row Hi. unfold update_where_id. rewrite list_lookup_fmap, Hi. simpl.
        eexists. split; [done|].
        case_decide; [|by repeat split].
        destruct row. by repeat split.
      * split; [done|]. split; [by intros ? [= <-]|].
        split; [done|]. split; [done|]. split; [|done].
        intros i row Hi. exists row. by repeat split.
  - split; [done|]. split; [done|]. split; [done|].
    split; [done|]. split; [|done].
    intros i row Hi. exists row. by repeat split.
Qed.

(** *** Calls without a request object *)

(** C10. When the context carries no request, [create] and [getBySlug] run
    no check of a limiter: they never throw [TOO_MANY_REQUESTS], they leave
    both limiters as they are, and their result is the same whatever the
    limiters hold. *)
Theorem no_request_no_admission_control env u
    (ci : CreateInput.t) (gi : GetBySlugInput.t) sv :
  let ctx := {| req := None; user := u |} in
  let made := create env ctx ci sv in
  let read := getBySlug env ctx gi sv in
  thrown_code made.2 ≠ Some TOO_MANY_REQUESTS ∧
  thrown_code read.2 ≠ Some TOO_MANY_REQUESTS ∧
  secretCreateRateLimit made.1 = secretCreateRateLimit sv ∧
  secretAccessRateLimit made.1 = secretAccessRateLimit sv ∧
  secretCreateRateLimit read.1 = secretCreateRateLimit sv ∧
  secretAccessRateLimit read.1 = secretAccessRateLimit sv ∧
  (∀ sv', db sv' = db sv →
     (create env ctx ci sv').2 = made.2 ∧ (getBySlug env ctx gi sv').2 = read.2).
Proof.
  simpl. rewrite create_run, getBySlug_run. unfold let_through, after_admission. simpl.
  split; [|split; [|split; [|split; [|split; [|split]]]]].
  - destruct (Nat.ltb _ 1); [done|]. by destruct (decide _).
  - destruct (lookup_slug _ sv) as [s|]; [|done].
    repeat (match goal with |- context [if ?b then _ else _] =>
              destruct b; [done|] end). done.
  - destruct (Nat.ltb _ 1); [done|]. by destruct (decide _).
  - destruct (Nat.ltb _ 1); [done|]. by destruct (decide _).
  - destruct (lookup_slug _ sv) as [s|]; [|done].
    repeat (match goal with |- context [if ?b then _ else _] =>
              destruct b; [done|] end). done.
  - destruct (lookup_slug _ sv) as [s|]; [|done].
    repeat (match goal with |- context [if ?b then _ else _] =>
              destruct b; [done|] end). done.
  - intros sv' Hdb. rewrite create_run, getBySlug_run.
    unfold let_through, after_admission, taken, lookup_slug. simpl. rewrite Hdb.
    split.
    + destruct (Nat.ltb _ 1); [done|]. by destruct (decide _).
    + destruct (head _) as [s|]; [|done].
      repeat (match goal with |- context [if ?b then _ else _] =>
                destruct b; [done|] end). done.
Qed.

End WithBcrypt.

(** *** The theorems at work, and where the specification departs *)

#[local] Existing Instance toy_bcrypt.

(** A one-time secret read by a visitor; then another secret is created and
    the first is probed, and the visitor reads again. *)
Lemma one_time_secret_disclosed_once_witness :
  let secret := a_secret "id1" "slug-a" None true false in
  let sv := server_with [secret] in
  let env := env_at 5 "slug-b" "slug-c" "log1" false in
  let ctx := visitor "203.0.113.7, 10.0.0.1" in
  let read := GetBySlugInput.mk "slug-a" None in
  let later :=
    [(env_at 6 "slug-b" "slug-c" "id2" false, ctx,
      Create (CreateInput.mk None "Y" None None false));
     (env_at 7 "slug-d" "slug-e" "id3" false, anonymous, CheckRequirements "slug-a")] in
  (wf_db (db sv) ∧ lookup_slug "slug-a" sv = Some secret ∧
   Secret.isOneTimeAccess secret = true ∧ Secret.hasBeenAccessed secret = false ∧
   has_expired (now env) secret = false ∧
   password_passes None secret = true ∧
   let_through (now env) ctx (secretAccessRateLimit sv) = true ∧
   accessLogFails env = false ∧
   Forall (λ r, ¬ draws_slug "slug-a" r) later) ∧
  let first := getBySlug env ctx read sv in
  first.2 = Return (disclosed secret) ∧
  thrown_code (getBySlug env ctx read (serve_all later first.1)).2 = Some NOT_FOUND.
Proof.
  intros secret sv env ctx read later.
  assert (H1 : wf_db (db sv)) by (split; apply NoDup_singleton).
  assert (H2 : lookup_slug "slug-a" sv = Some secret) by reflexivity.
  assert (H3 : Secret.isOneTimeAccess secret = true) by reflexivity.
  assert (H4 : Secret.hasBeenAccessed secret = false) by reflexivity.
  assert (H5 : has_expired (now env) secret = false) by reflexivity.
  assert (H6 : password_passes None secret = true) by reflexivity.
  assert (H7 : let_through (now env) ctx (secretAccessRateLimit sv) = true)
    by (vm_compute; reflexivity).
  assert (H8 : accessLogFails env = false) by reflexivity.
  assert (H9 : Forall (λ r, ¬ draws_slug "slug-a" r) later)
    by (repeat constructor; discriminate).
  split; [done|].
  destruct (one_time_secret_disclosed_once
              env ctx "slug-a" None sv secret H1 H2 H3 H4 H5 H6 H7 H8)
    as (Hfirst & _ & _ & Hagain & _).
  split; [exact Hfirst|].
  destruct (Hagain later env ctx None H9) as [_ Hnf].
  apply Hnf. vm_compute. reflexivity.
Defined.

(** The same slug never stored, expired, and consumed: three answers. *)
Lemma not_found_cases_differ :
  let never := server_with [] in
  let expired := server_with [a_secret "id1" "slug-a" (Some 10) false false] in
  let used := server_with [a_secret "id1" "slug-a" None true true] in
  let env := env_at 100 "slug-b" "slug-c" "log1" false in
  let probe sv := (checkRequirements env "slug-a" sv).2 in
  let read sv :=
    (getBySlug env anonymous (GetBySlugInput.mk "slug-a" None) sv).2 in
  (gone 100 "slug-a" never = true ∧ gone 100 "slug-a" expired = true ∧
   gone 100 "slug-a" used = true) ∧
  probe never ≠ probe expired ∧ probe expired ≠ probe used ∧ probe never ≠ probe used ∧
  read never ≠ read expired ∧ read expired ≠ read used ∧ read never ≠ read used.
Proof.
  vm_compute. repeat split; discriminate.
Qed.

Lemma gone_is_NOT_FOUND_witness :
  let used := server_with [a_secret "id1" "slug-a" None true true] in
  let env := env_at 100 "slug-b" "slug-c" "log1" false in
  gone (now env) "slug-a" used = true ∧
  (checkRequirements env "slug-a" used).2 =
    Throw (TRPCError NOT_FOUND "Secret has already been accessed").
Proof.
  intros used env.
  assert (H1 : gone (now env) "slug-a" used = true) by reflexivity.
  split; [done|].
  exact (proj1 (gone_is_NOT_FOUND env anonymous "slug-a" None used H1)).
Defined.

(** A protected secret read without a password. *)
Lemma getBySlug_unauthorized_witness :
  let secret :=
    {| Secret.id := "id1"; Secret.title := None; Secret.content := "X";
       Secret.slug := "slug-a";
       Secret.password := Some (bcrypt_hash "p");
       Secret.expiresAt := None; Secret.isOneTimeAccess := false;
       Secret.hasBeenAccessed := false; Secret.createdAt := 0;
       Secret.updatedAt := 0; Secret.userId := None |} in
  let sv := server_with [secret] in
  let env := env_at 5 "slug-b" "slug-c" "log1" false in
  (lookup_slug "slug-a" sv = Some secret ∧ has_expired (now env) secret = false ∧
   consumed secret = false ∧
   let_through (now env) (visitor "203.0.113.7") (secretAccessRateLimit sv) = true) ∧
  (getBySlug env (visitor "203.0.113.7") (GetBySlugInput.mk "slug-a" None) sv).2
    = Throw (TRPCError UNAUTHORIZED "Password required") ∧
  (getBySlug env (visitor "203.0.113.7") (GetBySlugInput.mk "slug-a" (Some "q")) sv).2
    = Throw (TRPCError UNAUTHORIZED "Invalid password").
Proof.
  intros secret sv env.
  assert (H1 : lookup_slug "slug-a" sv = Some secret) by reflexivity.
  assert (H2 : has_expired (now env) secret = false) by reflexivity.
  assert (H3 : consumed secret = false) by reflexivity.
  assert (H4 : let_through (now env) (visitor "203.0.113.7") (secretAccessRateLimit sv) = true)
    by (vm_compute; reflexivity).
  split; [done|]. split.
  - destruct (getBySlug_unauthorized
                env (visitor "203.0.113.7") "slug-a" None sv secret H1 H2 H3 H4)
      as (_ & Hreq & _).
    apply Hreq. by split.
  - destruct (getBySlug_unauthorized
                env (visitor "203.0.113.7") "slug-a" (Some "q") sv secret H1 H2 H3 H4)
      as (_ & _ & Hinv & _).
    apply Hinv. by repeat split.
Defined.

(** The store rejects the log entry: the reader gets the rejection. *)
Lemma log_failure_not_swallowed :
  let secret := a_secret "id1" "slug-a" None false false in
  let sv := server_with [secret] in
  let env := env_at 5 "slug-b" "slug-c" "log1" true in
  let out := getBySlug env anonymous
               (GetBySlugInput.mk "slug-a" None) sv in
  accessLogFails env = true ∧
  lookup_slug "slug-a" sv = Some secret ∧
  out.2 = Throw (PrismaError StoreUnavailable) ∧
  out.2 ≠ Return (disclosed secret) ∧
  is_Return out.2 = false.
Proof.
  vm_compute. repeat split; discriminate.
Qed.

Lemma log_failure_fails_disclosure_witness :
  let secret := a_secret "id1" "slug-a" None true false in
  let sv := server_with [secret] in
  let env := env_at 5 "slug-b" "slug-c" "log1" true in
  (lookup_slug "slug-a" sv = Some secret ∧ has_expired (now env) secret = false ∧
   consumed secret = false ∧ password_passes None secret = true ∧
   let_through (now env) anonymous (secretAccessRateLimit sv) = true ∧
   accessLogFails env = true) ∧
  db (getBySlug env anonymous
        (GetBySlugInput.mk "slug-a" None) sv).1 = db sv.
Proof.
  intros secret sv env.
  assert (H1 : lookup_slug "slug-a" sv = Some secret) by reflexivity.
  assert (H2 : has_expired (now env) secret = false) by reflexivity.
  assert (H3 : consumed secret = false) by reflexivity.
  assert (H4 : password_passes None secret = true) by reflexivity.
  assert (H5 : let_through (now env) anonymous (secretAccessRateLimit sv) = true)
    by reflexivity.
  assert (H6 : accessLogFails env = true) by reflexivity.
  split; [done|].
  exact (proj2 (proj2 (log_failure_fails_disclosure
                         env anonymous "slug-a" None sv secret H1 H2 H3 H4 H5 H6))).
Defined.

(** The drawn slug is taken, the next draw would be free: no retry. *)
Lemma create_does_not_retry :
  let sv := server_with [a_secret "id1" "slug-a" None false false] in
  let env := env_at 5 "slug-a" "slug-b" "id2" false in
  let input := CreateInput.mk None "X" None None false in
  let out := create env anonymous input sv in
  (∃ s, s ∈ secrets (db sv) ∧ Secret.slug s = nanoid env 0) ∧
  (∀ s, s ∈ secrets (db sv) → Secret.slug s ≠ nanoid env 1) ∧
  (∀ s, s ∈ secrets (db sv) → Secret.id s ≠ cuid env) ∧
  out.2 = Throw (PrismaError UniqueConstraintFailed) ∧
  is_Return out.2 = false ∧
  db out.1 = db sv.
Proof.
  intros sv env input out. split; [|split; [|split]].
  - eexists. split; [apply list_elem_of_singleton; reflexivity|reflexivity].
  - intros s ->%list_elem_of_singleton. discriminate.
  - intros s ->%list_elem_of_singleton. discriminate.
  - by vm_compute.
Qed.

Lemma create_draws_one_slug_witness :
  let sv := server_with [a_secret "id1" "slug-a" None false false] in
  let env := env_at 5 "slug-b" "slug-c" "id2" false in
  let input := CreateInput.mk None "X" None None false in
  (CreateInput.content input ≠ EmptyString ∧
   let_through (now env) anonymous (secretCreateRateLimit sv) = true) ∧
  Secret.slug (secret_data env anonymous input) = "slug-b".
Proof.
  intros sv env input.
  assert (H1 : CreateInput.content input ≠ EmptyString) by discriminate.
  assert (H2 : let_through (now env) anonymous (secretCreateRateLimit sv) = true)
    by reflexivity.
  split; [done|].
  exact (proj1 (create_draws_one_slug env anonymous input sv H1 H2)).
Defined.

(** At the instant [now = expiresAt] the secret is still served. *)
Lemma not_expired_at_expiresAt :
  let secret := a_secret "id1" "slug-a" (Some 100) false false in
  let sv := server_with [secret] in
  let env := env_at 100 "slug-b" "slug-c" "log1" false in
  Secret.expiresAt secret = Some 100 ∧ 100 ≤ now env ∧
  (checkRequirements env "slug-a" sv).2 = Return (requirements secret) ∧
  (getBySlug env anonymous (GetBySlugInput.mk "slug-a" None) sv).2
    = Return (disclosed secret).
Proof.
  vm_compute. repeat split; discriminate.
Qed.

Lemma expired_after_expiresAt_witness :
  let secret := a_secret "id1" "slug-a" (Some 100) true true in
  let sv := server_with [secret] in
  let env := env_at 101 "slug-b" "slug-c" "log1" false in
  (lookup_slug "slug-a" sv = Some secret ∧ Secret.expiresAt secret = Some 100) ∧
  (has_expired (now env) secret = true ↔ 100 < now env).
Proof.
  intros secret sv env.
  assert (H1 : lookup_slug "slug-a" sv = Some secret) by reflexivity.
  assert (H2 : Secret.expiresAt secret = Some 100) by reflexivity.
  split; [done|].
  exact (proj1 (expired_after_expiresAt
                  env anonymous "slug-a" None sv secret 100 H1 H2)).
Defined.

(** The owner renames a secret. *)
Lemma update_title_expiresAt_only_witness :
  let owner := {| user_id := "u1"; email := "u1@example.org" |} in
  let secret :=
    {| Secret.id := "id1"; Secret.title := None; Secret.content := "X";
       Secret.slug := "slug-a"; Secret.password := None;
       Secret.expiresAt := None; Secret.isOneTimeAccess := true;
       Secret.hasBeenAccessed := true; Secret.createdAt := 0;
       Secret.updatedAt := 0; Secret.userId := Some "u1" |} in
  let sv := server_with [secret] in
  let env := env_at 7 "slug-b" "slug-c" "id2" false in
  let ctx := {| req := None; user := Some owner |} in
  let input := UpdateInput.mk "id1" (Some "T") (Some 50) in
  user ctx = Some owner ∧
  is_Return (update env ctx input sv).2 = true.
Proof.
  intros owner secret sv env ctx input.
  assert (H1 : user ctx = Some owner) by reflexivity.
  split; [done|].
  destruct (update_title_expiresAt_only env ctx input sv owner H1)
    as (_ & _ & _ & Hok & _).
  exact (Hok secret eq_refl eq_refl).
Defined.

(** A secret created on the empty server and read back. *)
(** The claim at the empty content: no slug comes back. *)
Lemma empty_content_is_refused :
  let env := env_at 5 "slug-a" "slug-b" "id1" false in
  let env' := env_at 6 "slug-c" "slug-d" "log1" false in
  let made (X : string) :=
    create env anonymous (CreateInput.mk None X None None false) initial in
  made EmptyString = (initial, Throw (TRPCError BAD_REQUEST "Content is required")) ∧
  ¬ (∀ X : string, ∃ out got,
       (made X).2 = Return out ∧
       (getBySlug env' anonymous (GetBySlugInput.mk (Created.slug out) None) (made X).1).2
         = Return got ∧
       Disclosed.content got = X).
Proof.
  intros env env' made. split; [reflexivity|].
  intros Hall. destruct (Hall EmptyString) as (out & got & Hmade & _).
  discriminate Hmade.
Qed.

Lemma create_then_getBySlug_witness :
  let env := env_at 5 "slug-a" "slug-b" "id1" false in
  let env' := env_at 6 "slug-c" "slug-d" "log1" false in
  let input := CreateInput.mk None "X" None None false in
  let made := create env anonymous input initial in
  (let_through (now env') anonymous (secretAccessRateLimit made.1) = true ∧
   accessLogFails env' = false) ∧
  ∃ out got,
    made.2 = Return out ∧
    (getBySlug env' anonymous (GetBySlugInput.mk (Created.slug out) None) made.1).2
      = Return got ∧
    Disclosed.content got = "X".
Proof.
  intros env env' input made.
  assert (H1 : let_through (now env') anonymous (secretAccessRateLimit made.1) = true)
    by reflexivity.
  assert (H2 : accessLogFails env' = false) by reflexivity.
  split; [done|].
  destruct (create_then_getBySlug env anonymous None "X" initial env' anonymous None H1 H2)
    as (_ & _ & _ & Hround).
  exists (created (secret_data env anonymous input)).
  destruct (Hround (created (secret_data env anonymous input)) eq_refl)
    as (_ & (got & Hread & Hcontent) & _).
  exists got. by repeat split.
Defined.

(** Both limiters are used up for the client "unknown", the bucket of
    requests without address headers: a request object without headers is
    turned away, a context without request object is served. *)
Lemma no_request_no_admission_control_witness :
  let sv := saturated_for "unknown" [a_secret "id1" "slug-a" None false false] in
  let env := env_at 5 "slug-b" "slug-c" "id2" false in
  let bare := {| req := Some {| headers := ∅ |}; user := None |} in
  let ci := CreateInput.mk None "Y" None None false in
  let gi := GetBySlugInput.mk "slug-a" None in
  thrown_code (create env bare ci sv).2 = Some TOO_MANY_REQUESTS ∧
  thrown_code (getBySlug env bare gi sv).2 = Some TOO_MANY_REQUESTS ∧
  thrown_code (create env anonymous ci sv).2 ≠ Some TOO_MANY_REQUESTS ∧
  thrown_code (getBySlug env anonymous gi sv).2 ≠ Some TOO_MANY_REQUESTS.
Proof.
  intros sv env bare ci gi.
  split; [by vm_compute|]. split; [by vm_compute|].
  destruct (no_request_no_admission_control env None ci gi sv) as (Hc & Hg & _).
  by split.
Defined.

End RouterFacts.


(** ** More on admission control: traces with several clients and sweeps *)

Module LimiterTraceFacts.
Import RateLimit.

(** The answer of [check] and the bucket it leaves depend on the bucket of
    the client and on the policy only. *)
Lemma check_bucket_only t identifier rl1 rl2 :
  store rl1 !! identifier = store rl2 !! identifier →
  windowMs rl1 = windowMs rl2 → maxRequests rl1 = maxRequests rl2 →
  (check t identifier rl1).2 = (check t identifier rl2).2 ∧
  store (check t identifier rl1).1 !! identifier =
    store (check t identifier rl2).1 !! identifier.
Proof.
  intros Hb Hw Hm. unfold check, newWindow. rewrite Hb, Hw, Hm.
  destruct (store rl2 !! identifier) as [e|] eqn:He; simpl.
  - destruct (t >? resetTime e); simpl; [by rewrite !lookup_insert_eq|].
    destruct (count e >=? maxRequests rl2); simpl; [by rewrite Hb, He|].
    by rewrite !lookup_insert_eq.
  - by rewrite !lookup_insert_eq.
Qed.

Lemma cleanup_lookup now rl k :
  store (cleanup now rl) !! k =
    match store rl !! k with
    | Some e => if decide (now > resetTime e) then None else Some e
    | None => None
    end.
Proof.
  unfold cleanup. simpl. rewrite map_lookup_filter.
  destruct (store rl !! k) as [e|]; simpl; [|done].
  case_guard; simpl in *; case_decide; done || lia.
Qed.

Lemma limiter_run_agrees identifier ops : ∀ actual ideal,
  sweeps_in_order ops →
  windowMs actual = windowMs ideal → maxRequests actual = maxRequests ideal →
  (store actual !! identifier = store ideal !! identifier ∨
   (store actual !! identifier = None ∧
    ∃ e, store ideal !! identifier = Some e ∧
         Forall (λ op, resetTime e < op_time op) ops)) →
  answers_to identifier (limiter_run ops actual).2 =
    (checks identifier (times_of identifier ops) ideal).2.
Proof.
  induction ops as [|[i t|t] ops IH]; intros actual ideal Hsw Hw Hm Hb; simpl.
  - done.
  - simpl in Hsw.
    destruct (check t i actual) as [actual1 r] eqn:Hca.
    destruct (limiter_run ops actual1) as [actual2 rs] eqn:Hrun.
    destruct (RateLimitFacts.check_keeps_policy t i actual) as [Hw1 Hm1].
    rewrite Hca in Hw1, Hm1. simpl in Hw1, Hm1.
    unfold answers_to. simpl. rewrite filter_cons. simpl.
    destruct (decide (i = identifier)) as [->|Hne].
    + simpl.
      destruct (check t identifier ideal) as [ideal1 r'] eqn:Hci.
      destruct (RateLimitFacts.check_keeps_policy t identifier ideal) as [Hw2 Hm2].
      rewrite Hci in Hw2, Hm2. simpl in Hw2, Hm2.
      assert (Hstep : r = r' ∧ store actual1 !! identifier = store ideal1 !! identifier).
      { destruct Hb as [Hb|(Hnone & e & He & Hall)].
        - destruct (check_bucket_only t identifier actual ideal Hb Hw Hm) as [H1 H2].
          by rewrite Hca, Hci in H1, H2.
        - apply Forall_cons in Hall as [Hlt _]. simpl in Hlt.
          unfold check in Hca, Hci. rewrite Hnone in Hca. rewrite He in Hci.
          destruct (Z.gtb_spec t (resetTime e)); [|lia].
          unfold newWindow in Hca, Hci. injection Hca as <- <-. injection Hci as <- <-.
          simpl. rewrite !lookup_insert_eq. by rewrite Hw, Hm. }
      destruct Hstep as [<- Hb1].
      specialize (IH actual1 ideal1 Hsw ltac:(congruence) ltac:(congruence) (or_introl Hb1)).
      rewrite Hrun in IH. simpl in IH.
      destruct (checks identifier (times_of identifier ops) ideal1) as [ideal2 rs'].
      simpl in *. f_equal. exact IH.
    + assert (Hsame : store actual1 !! identifier = store actual !! identifier).
      { pose proof (RateLimitFacts.check_other t i identifier actual Hne) as Ho.
        by rewrite Hca in Ho. }
      assert (Hb1 : store actual1 !! identifier = store ideal !! identifier ∨
                    (store actual1 !! identifier = None ∧
                     ∃ e, store ideal !! identifier = Some e ∧
                          Forall (λ op, resetTime e < op_time op) ops)).
      { rewrite Hsame. destruct Hb as [Hb|(Hnone & e & He & Hall)]; [by left|].
        right. split; [done|]. exists e. split; [done|].
        by apply Forall_cons in Hall as [_ ?]. }
      specialize (IH actual1 ideal Hsw ltac:(congruence) ltac:(congruence) Hb1).
      by rewrite Hrun in IH.
  - destruct Hsw as [Hlater Hsw].
    apply IH; [done|done|done|].
    rewrite cleanup_lookup.
    destruct Hb as [Hb|(Hnone & e & He & Hall)].
    + rewrite Hb. destruct (store ideal !! identifier) as [e|] eqn:He; [|by left].
      case_decide as Hgone; [|by left].
      right. split; [done|]. exists e. split; [done|].
      eapply Forall_impl; [exact Hlater|]. simpl. intros op Hop. lia.
    + rewrite Hnone. right. split; [done|]. exists e. split; [done|].
      by apply Forall_cons in Hall as [_ ?].
Qed.

(** X1. The answers a client gets are those it would get if it were alone:
    requests of other clients and sweeps change nothing for it, provided no
    request is stamped earlier than a sweep that ran before it. *)
Theorem client_answers_independent identifier ops rl :
  sweeps_in_order ops →
  answers_to identifier (limiter_run ops rl).2 =
    (checks identifier (times_of identifier ops) rl).2.
Proof.
  intros Hsw. apply limiter_run_agrees; auto.
Qed.

Lemma client_answers_independent_witness :
  let ops := [OpCheck "a" 0; OpCheck "b" 1; OpCheck "a" 2; OpCleanup 1500;
              OpCheck "b" 1600; OpCheck "a" 1700; OpCheck "a" 1800] in
  let rl := new 1000 2 in
  sweeps_in_order ops ∧
  allowed <$> answers_to "a" (limiter_run ops rl).2 = [true; true; true; true] ∧
  allowed <$> (checks "a" [0; 2; 3; 4] rl).2 = [true; true; false; false].
Proof.
  intros ops rl.
  assert (H1 : sweeps_in_order ops).
  { simpl. split; [|done]. repeat constructor; simpl; lia. }
  split; [done|]. split; [|by vm_compute].
  rewrite (client_answers_independent "a" ops rl H1). by vm_compute.
Defined.

Lemma check_counts_bounded t identifier rl :
  1 ≤ maxRequests rl → counts_bounded rl →
  counts_bounded (check t identifier rl).1 ∧
  0 ≤ remainingRequests (check t identifier rl).2 ≤ maxRequests rl - 1 ∧
  (allowed (check t identifier rl).2 = false →
   remainingRequests (check t identifier rl).2 = 0).
Proof.
  intros HN Hbd. unfold check, newWindow.
  assert (Hnew : ∀ t', counts_bounded
            (set_store rl (<[identifier := {| count := 1; resetTime := t' |}]> (store rl)))).
  { intros t' k e. simpl. rewrite lookup_insert. case_decide.
    - intros [= <-]. simpl. lia.
    - apply Hbd. }
  destruct (store rl !! identifier) as [e|] eqn:He; simpl.
  - destruct (t >? resetTime e); simpl; [split; [apply Hnew|lia]|].
    destruct (Z.geb_spec (count e) (maxRequests rl)); simpl; [split; [done|lia]|].
    pose proof (Hbd _ _ He) as Hc.
    split; [|lia].
    intros k e'. simpl. rewrite lookup_insert. case_decide.
    + intros [= <-]. simpl. lia.
    + apply Hbd.
  - split; [apply Hnew|lia].
Qed.

Lemma cleanup_counts_bounded t rl : counts_bounded rl → counts_bounded (cleanup t rl).
Proof.
  intros Hbd k e. rewrite cleanup_lookup.
  destruct (store rl !! k) as [e'|] eqn:He; [|done].
  case_decide; [done|]. intros [= <-]. exact (Hbd k e' He).
Qed.

(** X2. Whatever the clients and the sweeps do, a limiter with
    [maxRequests] at least 1 whose buckets hold counts between 1 and
    [maxRequests] (an empty one, for instance) keeps them so; every answer
    reports between 0 and [maxRequests - 1] remaining requests, and a
    rejection reports 0.  The policy never changes. *)
Theorem limiter_counts_bounded ops : ∀ rl,
  1 ≤ maxRequests rl → counts_bounded rl →
  let out := limiter_run ops rl in
  counts_bounded out.1 ∧
  maxRequests out.1 = maxRequests rl ∧ windowMs out.1 = windowMs rl ∧
  ∀ i r, (i, r) ∈ out.2 →
    0 ≤ remainingRequests r ≤ maxRequests rl - 1 ∧
    (allowed r = false → remainingRequests r = 0).
Proof.
  induction ops as [|[i t|t] ops IH]; intros rl HN Hbd; simpl.
  - split; [done|]. split; [done|]. split; [done|].
    intros i r Hin. inversion Hin.
  - destruct (check_counts_bounded t i rl HN Hbd) as (Hbd1 & Hrem & Hrej).
    destruct (RateLimitFacts.check_keeps_policy t i rl) as [Hw Hm].
    destruct (check t i rl) as [rl1 r1]. simpl in *.
    specialize (IH rl1 ltac:(lia) Hbd1).
    destruct (limiter_run ops rl1) as [rl2 rs]. simpl in *.
    destruct IH as (Hbd2 & Hm2 & Hw2 & Hans).
    split; [done|]. split; [congruence|]. split; [congruence|].
    intros i' r' [[= -> ->]|Hin]%elem_of_cons; [done|].
    rewrite <- Hm. exact (Hans i' r' Hin).
  - apply (IH (cleanup t rl)); [done|by apply cleanup_counts_bounded].
Qed.

Lemma limiter_counts_bounded_witness :
  let ops := [OpCheck "a" 0; OpCheck "a" 1; OpCheck "a" 2; OpCleanup 5000; OpCheck "b" 3] in
  (1 ≤ maxRequests (new 1000 2) ∧ counts_bounded (new 1000 2)) ∧
  counts_bounded (limiter_run ops (new 1000 2)).1.
Proof.
  intros ops.
  assert (H1 : 1 ≤ maxRequests (new 1000 2)) by (simpl; lia).
  assert (H2 : counts_bounded (new 1000 2)).
  { intros k e Hk. simpl in Hk. by rewrite lookup_empty in Hk. }
  split; [done|].
  exact (proj1 (limiter_counts_bounded ops (new 1000 2) H1 H2)).
Defined.

End LimiterTraceFacts.


(** ** The client a request is counted for *)

Module ClientIdentifierFacts.
Import RateLimit.

Lemma append_nil y : EmptyString +:+ y = y.
Proof. reflexivity. Qed.

Lemma append_cons c x y : String c x +:+ y = String c (x +:+ y).
Proof. reflexivity. Qed.

Lemma append_empty_r x : x +:+ EmptyString = x.
Proof. induction x as [|c x IH]; [done|]. by rewrite append_cons, IH. Qed.

Lemma append_snoc w c z : w +:+ String c z = (w +:+ String c EmptyString) +:+ z.
Proof. induction w as [|d w IH]; [done|]. by rewrite !append_cons, IH. Qed.

Lemma rev_app_app x : ∀ y z,
  String.rev_app (x +:+ y) z = String.rev_app y (String.rev_app x z).
Proof.
  induction x as [|c x IH]; intros y z; [done|].
  rewrite append_cons. simpl. apply IH.
Qed.

Lemma rev_app_append x : ∀ z, String.rev_app x z = String.rev_app x EmptyString +:+ z.
Proof.
  induction x as [|c x IH]; intros z; simpl; [done|].
  rewrite (IH (String c z)), (IH (String c EmptyString)). apply append_snoc.
Qed.

Lemma rev_append x y : String.rev (x +:+ y) = String.rev y +:+ String.rev x.
Proof. unfold String.rev. by rewrite rev_app_app, rev_app_append. Qed.

Lemma rev_app_rev_app x : ∀ z w,
  String.rev_app (String.rev_app x z) w = String.rev_app z (x +:+ w).
Proof.
  induction x as [|c x IH]; intros z w; simpl; [done|].
  by rewrite IH, append_cons.
Qed.

Lemma rev_rev x : String.rev (String.rev x) = x.
Proof. unfold String.rev. rewrite rev_app_rev_app. simpl. apply append_empty_r. Qed.

Lemma all_white_rev_app x : ∀ z,
  all_white (String.rev_app x z) = all_white x && all_white z.
Proof.
  induction x as [|c x IH]; intros z; simpl; [done|].
  rewrite IH. simpl. destruct (is_white c), (all_white x), (all_white z); done.
Qed.

Lemma trimStart_white l y : all_white l = true → trimStart (l +:+ y) = trimStart y.
Proof.
  induction l as [|c l IH]; [done|]. rewrite append_cons. simpl.
  intros [Hc Hl]%andb_true_iff. rewrite Hc. by apply IH.
Qed.

Lemma trimStart_clean a y : starts_clean a → trimStart (a +:+ y) = a +:+ y.
Proof.
  destruct a as [|c a]; simpl; [done|]. rewrite append_cons. simpl. by intros ->.
Qed.

(** [trim] strips the white space around an address, and only that. *)
Lemma trim_padded l a r :
  all_white l = true → all_white r = true →
  starts_clean a → starts_clean (String.rev a) →
  trim (l +:+ a +:+ r) = a.
Proof.
  intros Hl Hr Ha Hra. unfold trim.
  rewrite (trimStart_white l _ Hl), (trimStart_clean a r Ha), rev_append.
  rewrite trimStart_white
    by (unfold String.rev; by rewrite all_white_rev_app, Hr).
  rewrite <- (append_empty_r (String.rev a)) at 1.
  rewrite (trimStart_clean _ _ Hra), append_empty_r. apply rev_rev.
Qed.

Lemma white_is_no_comma c : is_white c = true → Ascii.eqb c ","%char = false.
Proof.
  intros Hc. destruct (Ascii.eqb_spec c ","%char) as [->|]; [|done].
  by vm_compute in Hc.
Qed.

Lemma before_comma_append x : ∀ y,
  before_comma x = x → before_comma (x +:+ y) = x +:+ before_comma y.
Proof.
  induction x as [|c x IH]; intros y; [done|]. rewrite !append_cons. simpl.
  destruct (Ascii.eqb c ","%char); [done|]. intros [= Hx]. by rewrite IH.
Qed.

Lemma before_comma_white l : all_white l = true → before_comma l = l.
Proof.
  induction l as [|c l IH]; simpl; [done|].
  intros [Hc Hl]%andb_true_iff. by rewrite (white_is_no_comma c Hc), IH.
Qed.

(** X3. With an [x-forwarded-for] header that starts with an address, a
    request is counted for that address: white space around it, the proxies
    listed after the first comma, and the other headers ([x-real-ip]
    included) make no difference, so such requests share one bucket. *)
Theorem forwarded_address_identifies l a r proxies others :
  is_address a → all_white l = true → all_white r = true →
  getClientIdentifier (forwarded_for (l +:+ a +:+ r) others) = a ∧
  getClientIdentifier
    (forwarded_for (l +:+ a +:+ r +:+ String ","%char proxies) others) = a ∧
  getClientIdentifier (forwarded_for a others) = a.
Proof.
  intros (Ha & Hra & Hnc) Hl Hr.
  assert (Hrun : ∀ value, truthy (Some value) = true →
    trim (before_comma value) = a →
    getClientIdentifier (forwarded_for value others) = a).
  { intros value Htruthy Hval.
    unfold getClientIdentifier, forwarded_for, headers_get. simpl.
    rewrite lookup_insert_eq. simpl in *. by rewrite Htruthy, Hval. }
  assert (Htruthy : ∀ tail, truthy (Some (l +:+ a +:+ tail)) = true).
  { intros tail. destruct a as [|c a]; [done|].
    destruct l as [|d l]; by rewrite ?append_nil, !append_cons. }
  assert (Hcut : ∀ tail, before_comma tail = EmptyString →
    trim (before_comma (l +:+ a +:+ r +:+ tail)) = a).
  { intros tail Htail.
    rewrite (before_comma_append l) by (by apply before_comma_white).
    rewrite (before_comma_append a) by done.
    rewrite (before_comma_append r) by (by apply before_comma_white).
    rewrite Htail, append_empty_r. by apply trim_padded. }
  split; [|split].
  - apply Hrun; [apply Htruthy|].
    specialize (Hcut EmptyString eq_refl). by rewrite append_empty_r in Hcut.
  - apply Hrun; [apply Htruthy|]. by apply Hcut.
  - apply Hrun.
    + specialize (Htruthy EmptyString). destruct a as [|c a]; [done|done].
    + rewrite Hnc. pose proof (trim_padded EmptyString a EmptyString eq_refl eq_refl Ha Hra) as Ht.
      by rewrite append_nil, append_empty_r in Ht.
Qed.

Lemma forwarded_address_identifies_witness :
  let nbsp := String (ascii_of_nat 160) " " in
  (is_address "203.0.113.7" ∧ all_white nbsp = true ∧ all_white "  " = true) ∧
  getClientIdentifier
    (forwarded_for (String (ascii_of_nat 160) " 203.0.113.7  , 10.0.0.1, 10.0.0.2")
       {[ "x-real-ip" := "10.9.9.9" ]})
    = "203.0.113.7".
Proof.
  intros nbsp.
  assert (H1 : is_address "203.0.113.7") by (by vm_compute).
  assert (H2 : all_white nbsp = true) by reflexivity.
  assert (H3 : all_white "  " = true) by reflexivity.
  split; [done|].
  exact (proj1 (proj2 (forwarded_address_identifies nbsp "203.0.113.7" "  "
                         " 10.0.0.1, 10.0.0.2" {[ "x-real-ip" := "10.9.9.9" ]} H1 H2 H3))).
Defined.

End ClientIdentifierFacts.


(** ** More on the secret lifecycle *)

Module LifecycleFacts.
Import secretRouter.

Lemma varying_address_step t a rl :
  RateLimit.store rl !! a = None →
  RateLimit.allowed (RateLimit.check t a rl).2 = true ∧
  ∀ b, b ≠ a → RateLimit.store (RateLimit.check t a rl).1 !! b = RateLimit.store rl !! b.
Proof.
  intros Hnone. unfold RateLimit.check. rewrite Hnone. simpl. split; [done|].
  intros b Hb. by rewrite lookup_insert_ne.
Qed.

(** X4. A limiter never turns away a client it has no bucket for: requests
    that come each under a different address are all allowed, however many
    they are and whenever they come. *)
Theorem varying_address_never_limited (reqs : list (string * Z)) : ∀ rl,
  NoDup reqs.*1 →
  (∀ a, a ∈ reqs.*1 → RateLimit.store rl !! a = None) →
  Forall (λ ir, RateLimit.allowed ir.2 = true)
    (limiter_run ((λ at_, OpCheck at_.1 at_.2) <$> reqs) rl).2.
Proof.
  induction reqs as [|[a t] reqs IH]; intros rl Hnd Hfree; simpl; [constructor|].
  apply NoDup_cons in Hnd as [Ha Hnd].
  destruct (varying_address_step t a rl) as [Hok Hrest]; [apply Hfree; left|].
  destruct (RateLimit.check t a rl) as [rl1 r]. simpl in *.
  specialize (IH rl1 Hnd).
  destruct (limiter_run _ rl1) as [rl2 rs]. simpl in *.
  constructor; [done|]. apply IH. intros b Hb.
  rewrite Hrest; [apply Hfree; by right|]. intros ->. done.
Qed.

Lemma varying_address_never_limited_witness :
  let reqs := [("10.0.0.1", 0); ("10.0.0.2", 0); ("10.0.0.3", 0)] in
  let rl := RateLimit.new 1000 1 in
  (NoDup reqs.*1 ∧ ∀ a, a ∈ reqs.*1 → RateLimit.store rl !! a = None) ∧
  Forall (λ ir, RateLimit.allowed ir.2 = true)
    (limiter_run ((λ at_, OpCheck at_.1 at_.2) <$> reqs) rl).2.
Proof.
  intros reqs rl.
  assert (H1 : NoDup reqs.*1)
    by (apply (bool_decide_unpack (NoDup reqs.*1)); vm_compute; exact I).
  assert (H2 : ∀ a, a ∈ reqs.*1 → RateLimit.store rl !! a = None)
    by (intros a _; apply lookup_empty).
  split; [done|]. exact (varying_address_never_limited reqs rl H1 H2).
Defined.

Section WithBcrypt.
Context `{Bcrypt}.

(** X5. [getBySlug] returns only what has passed every gate: a returned
    value is the projection of the row stored under the slug, the limiter
    let the request through, the row was neither expired nor consumed, its
    password gate was passed and the access was logged. *)
Theorem getBySlug_returns_only_through_gates env ctx input sv d :
  (getBySlug env ctx input sv).2 = Return d →
  ∃ secret,
    lookup_slug (GetBySlugInput.slug input) sv = Some secret ∧
    d = disclosed secret ∧
    let_through (now env) ctx (secretAccessRateLimit sv) = true ∧
    has_expired (now env) secret = false ∧
    consumed secret = false ∧
    password_passes (GetBySlugInput.password input) secret = true ∧
    accessLogFails env = false.
Proof.
  rewrite RouterFacts.getBySlug_run. simpl.
  destruct (let_through _ _ _); simpl; [|done].
  destruct (lookup_slug _ sv) as [secret|]; [|done].
  destruct (has_expired _ _) eqn:Hexp; [done|].
  destruct (consumed _) eqn:Hcons; [done|].
  destruct (truthy (Secret.password secret) && negb _); [done|].
  destruct (password_passes _ _) eqn:Hpw; simpl; [|done].
  destruct (accessLogFails env); [done|].
  intros [= <-]. by exists secret.
Qed.

(** X8. [checkRequirements] changes nothing and tells what a [getBySlug] at
    the same instant will do, once the limiter lets it through: if the probe
    throws, [getBySlug] throws the same error; if it answers that a password
    is required, a [getBySlug] without password throws "Password required";
    if it answers that none is required, [getBySlug] returns the secret of
    the answer whatever password comes with it, provided its access can be
    logged. *)
Theorem probe_predicts_disclosure env ctx slug supplied sv :
  let_through (now env) ctx (secretAccessRateLimit sv) = true →
  let probe := checkRequirements env slug sv in
  let read := (getBySlug env ctx (GetBySlugInput.mk slug supplied) sv).2 in
  probe.1 = sv ∧
  match probe.2 with
  | Throw e => read = Throw e
  | Return r =>
      if Requirements.requiresPassword r then
        truthy supplied = false →
        read = Throw (TRPCError UNAUTHORIZED "Password required")
      else
        accessLogFails env = false →
        ∃ d, read = Return d ∧
             Disclosed.id d = Requirements.id r ∧
             Disclosed.title d = Requirements.title r ∧
             Disclosed.expiresAt d = Requirements.expiresAt r ∧
             Disclosed.isOneTimeAccess d = Requirements.isOneTimeAccess r
  end.
Proof.
  intros Hadm. simpl.
  rewrite RouterFacts.checkRequirements_run, RouterFacts.getBySlug_run. simpl.
  rewrite Hadm. simpl.
  destruct (lookup_slug slug sv) as [secret|]; [|done].
  destruct (has_expired _ _); [done|].
  destruct (consumed _); [done|]. simpl. split; [done|].
  unfold password_passes.
  destruct (truthy (Secret.password secret)); simpl.
  - by intros ->.
  - intros ->. by eexists.
Qed.

(** X9. For an authenticated requester, [delete] throws [NOT_FOUND] when no
    secret has the id and [FORBIDDEN] when the secret is not the requester's,
    and changes nothing then.  Otherwise it returns and the table holds the
    other secrets, in their order; the access log holds the entries of the
    other secrets, in their order; the limiters are as before; and, the keys
    being unique, the slug of the deleted secret is answered by "Secret not
    found". *)
Theorem delete_removes_secret_and_logs env ctx id sv u :
  user ctx = Some u →
  let out := delete ctx id sv in
  (lookup_id id sv = None →
     out = (sv, Throw (TRPCError NOT_FOUND "Secret not found"))) ∧
  (∀ secret, lookup_id id sv = Some secret →
     Secret.userId secret ≠ Some (user_id u) →
     out = (sv, Throw (TRPCError FORBIDDEN "Not authorized to delete this secret"))) ∧
  (∀ secret, lookup_id id sv = Some secret →
     Secret.userId secret = Some (user_id u) →
     out.2 = Return true ∧
     secrets (db out.1) = filter (λ s, Secret.id s ≠ id) (secrets (db sv)) ∧
     accessLogs (db out.1) =
       filter (λ l, AccessLog.secretId l ≠ id) (accessLogs (db sv)) ∧
     lookup_id id out.1 = None ∧
     secretCreateRateLimit out.1 = secretCreateRateLimit sv ∧
     secretAccessRateLimit out.1 = secretAccessRateLimit sv ∧
     (wf_db (db sv) →
      (checkRequirements env (Secret.slug secret) out.1).2 =
        Throw (TRPCError NOT_FOUND "Secret not found"))).
Proof.
  intros Hu out. subst out. rewrite RouterFacts.delete_run, Hu.
  destruct (lookup_id id sv) as [secret|] eqn:Hfind; [|done].
  split; [done|].
  destruct (decide (Secret.userId secret ≠ Some (user_id u))) as [Hne|Heq].
  { split; [by intros ? [= <-]|]. by intros ? [= <-] ?. }
  split; [by intros ? [= <-]|]. intros ? [= <-] _. simpl.
  assert (Hgone : lookup_id id
            (with_db sv {| secrets := filter (λ s, Secret.id s ≠ id) (secrets (db sv));
                           accessLogs := filter (λ l, AccessLog.secretId l ≠ id)
                                           (accessLogs (db sv)) |}) = None).
  { apply (RouterFacts.head_filter_none (λ s, Secret.id s = id)).
    intros s [Hs _]%list_elem_of_filter. done. }
  do 3 (split; [done|]). split; [exact Hgone|]. do 2 (split; [done|]).
  intros [_ Hnd]. rewrite RouterFacts.checkRequirements_run.
  apply RouterFacts.lookup_id_Some in Hfind as [Hin Hid].
  replace (lookup_slug (Secret.slug secret) _) with (@None Secret.t); [done|].
  symmetry. apply (RouterFacts.head_filter_none (λ s, Secret.slug s = Secret.slug secret)).
  simpl. intros s [Hs Hsin]%list_elem_of_filter Hslug.
  apply Hs. rewrite <- Hid. f_equal.
  eapply RouterFacts.NoDup_fmap_elem_eq; [exact Hnd|done..].
Qed.

(** X10. [update] and [delete] return only for the owner: when either
    returns, the context carries a user and the secret of the given id
    belongs to that user.  A secret created without a user is thus never
    updated or deleted. *)
Theorem only_the_owner_updates_or_deletes env ctx input id sv :
  (is_Return (update env ctx input sv).2 = true →
   ∃ u secret, user ctx = Some u ∧ lookup_id (UpdateInput.id input) sv = Some secret ∧
               Secret.userId secret = Some (user_id u)) ∧
  (is_Return (delete ctx id sv).2 = true →
   ∃ u secret, user ctx = Some u ∧ lookup_id id sv = Some secret ∧
               Secret.userId secret = Some (user_id u)) ∧
  (∀ secret, lookup_id (UpdateInput.id input) sv = Some secret →
     Secret.userId secret = None →
     is_Return (update env ctx input sv).2 = false ∧ (update env ctx input sv).1 = sv) ∧
  (∀ secret, lookup_id id sv = Some secret →
     Secret.userId secret = None →
     is_Return (delete ctx id sv).2 = false ∧ (delete ctx id sv).1 = sv).
Proof.
  rewrite RouterFacts.update_run, RouterFacts.delete_run.
  destruct (user ctx) as [u|]; [|by repeat split].
  split; [|split; [|split]].
  - destruct (lookup_id _ sv) as [secret|]; [|done].
    destruct (decide _) as [|Hown]; [done|]. intros _.
    exists u, secret. repeat split. by apply dec_stable.
  - destruct (lookup_id id sv) as [secret|]; [|done].
    destruct (decide _) as [|Hown]; [done|]. intros _.
    exists u, secret. repeat split. by apply dec_stable.
  - intros secret -> Hnone. rewrite decide_True; [done|]. by rewrite Hnone.
  - intros secret -> Hnone. rewrite decide_True; [done|]. by rewrite Hnone.
Qed.

Lemma frozen_set_updatedAt t s : frozen (set_updatedAt t s) = frozen s.
Proof. by destruct s. Qed.

Lemma frozen_update_where_id t id change rows row' :
  (∀ s, frozen (change s) = frozen s) →
  row' ∈ update_where_id t id change rows →
  ∃ row, row ∈ rows ∧ frozen row' = frozen row.
Proof.
  intros Hch (row & -> & Hin)%list_elem_of_fmap. exists row. split; [done|].
  case_decide; [|done]. by rewrite frozen_set_updatedAt, Hch.
Qed.

(** Where a row that is stored after a request comes from. *)
Lemma serve_row_origin env ctx c sv row' :
  row' ∈ secrets (db (serve env ctx c sv)) →
  (∃ row, row ∈ secrets (db sv) ∧ frozen row' = frozen row) ∨
  ¬ Exists (λ s, Secret.id s = Secret.id row' ∨ Secret.slug s = Secret.slug row')
      (secrets (db sv)).
Proof.
  assert (Hsame : row' ∈ secrets (db sv) →
    (∃ row, row ∈ secrets (db sv) ∧ frozen row' = frozen row) ∨
    ¬ Exists (λ s, Secret.id s = Secret.id row' ∨ Secret.slug s = Secret.slug row')
        (secrets (db sv))) by (intros Hin; left; by exists row').
  destruct c as [input|input|slug|id|input]; simpl.
  - rewrite RouterFacts.create_run.
    destruct (Nat.ltb _ 1); [done|]. simpl.
    destruct (negb _); [done|].
    destruct (decide _) as [|Hfree]; [done|]. simpl.
    intros [Hin| ->%list_elem_of_singleton]%elem_of_app; [by apply Hsame|by right].
  - rewrite RouterFacts.getBySlug_run. simpl.
    destruct (negb (let_through _ _ _)); [done|].
    destruct (lookup_slug _ sv) as [secret|]; [|done].
    repeat (match goal with |- context [if ?b then _ else _ ] =>
              lazymatch b with
              | Secret.isOneTimeAccess _ => fail
              | _ => destruct b; [done|]
              end end).
    simpl. destruct (Secret.isOneTimeAccess secret); [|done].
    intros Hin. left. eapply frozen_update_where_id; [|exact Hin]. by intros [].
  - rewrite RouterFacts.checkRequirements_run.
    destruct (lookup_slug _ sv) as [secret|]; [|done].
    destruct (has_expired _ _); [done|]. by destruct (consumed _).
  - rewrite RouterFacts.delete_run.
    destruct (user ctx); [|done]. destruct (lookup_id _ sv); [|done].
    destruct (decide _); [done|]. simpl.
    intros [_ Hin]%list_elem_of_filter. by apply Hsame.
  - rewrite RouterFacts.update_run.
    destruct (user ctx); [|done]. destruct (lookup_id _ sv); [|done].
    destruct (decide _); [done|].
    destruct (title_expiresAt_data _ _) as [change|] eqn:Hdata; [|done].
    apply RouterFacts.title_expiresAt_data_Some in Hdata as ->. simpl.
    intros Hin. left. eapply frozen_update_where_id; [|exact Hin]. by intros [].
Qed.

(** X11. No request rewrites a stored secret: on a table with unique keys,
    a row that is stored before a request and a row with its id that is
    stored after it have the same [id], [content], [slug], [password],
    [isOneTimeAccess], [createdAt] and [userId]. *)
Theorem stored_fields_never_change env ctx c sv row row' :
  wf_db (db sv) →
  row ∈ secrets (db sv) →
  row' ∈ secrets (db (serve env ctx c sv)) →
  Secret.id row' = Secret.id row →
  frozen row' = frozen row.
Proof.
  intros [Hnd _] Hin Hin' Hid.
  destruct (serve_row_origin env ctx c sv row' Hin') as [(row0 & Hin0 & Hfr)|Hnew].
  - rewrite Hfr. f_equal.
    eapply RouterFacts.NoDup_fmap_elem_eq; [exact Hnd|done..|].
    injection Hfr as Hid0 _. congruence.
  - exfalso. apply Hnew, Exists_exists. exists row. split; [done|]. left. done.
Qed.

(** X12. The keys stay unique: if no two stored secrets share an [id] or a
    [slug], this is still so after any requests, and a slug then designates
    at most one secret. *)
Theorem keys_stay_unique reqs sv :
  wf_db (db sv) →
  let sv' := serve_all reqs sv in
  wf_db (db sv') ∧
  ∀ row row', row ∈ secrets (db sv') → row' ∈ secrets (db sv') →
    Secret.slug row = Secret.slug row' ∨ Secret.id row = Secret.id row' → row = row'.
Proof.
  intros Hwf sv'.
  assert (Hwf' : wf_db (db sv')) by (by apply RouterFacts.serve_all_wf).
  split; [done|]. destruct Hwf' as [Hid Hslug].
  intros row row' Hin Hin' [Heq|Heq].
  - exact (RouterFacts.NoDup_fmap_elem_eq Secret.slug _ row row' Hslug Hin Hin' Heq).
  - exact (RouterFacts.NoDup_fmap_elem_eq Secret.id _ row row' Hid Hin Hin' Heq).
Qed.

(** X13. A secret created with a password is protected by it.  Take a valid
    [create] with a non-empty password [p] that succeeds, a library that
    gives a non-empty hash for [p] and verifies [p] against it, and a
    [getBySlug] on the returned slug right after, let through by the
    limiter, before the expiration if there is one.  Without a password it
    throws "Password required"; with a password the library rejects it
    throws "Invalid password"; both leave the secret as it is; with [p] it
    returns the content, provided the access can be logged. *)
Theorem password_protects_created_secret env ctx input p sv env' ctx' out :
  CreateInput.password input = Some p →
  p ≠ EmptyString →
  bcrypt_hash p ≠ EmptyString →
  bcrypt_compare p (bcrypt_hash p) = true →
  (create env ctx input sv).2 = Return out →
  let sv1 := (create env ctx input sv).1 in
  let_through (now env') ctx' (secretAccessRateLimit sv1) = true →
  (∀ e, CreateInput.expiresAt input = Some e → now env' ≤ e) →
  let read supplied :=
    getBySlug env' ctx' (GetBySlugInput.mk (Created.slug out) supplied) sv1 in
  (read None).2 = Throw (TRPCError UNAUTHORIZED "Password required") ∧
  db (read None).1 = db sv1 ∧
  (∀ q, q ≠ EmptyString → bcrypt_compare q (bcrypt_hash p) = false →
     (read (Some q)).2 = Throw (TRPCError UNAUTHORIZED "Invalid password") ∧
     db (read (Some q)).1 = db sv1) ∧
  (accessLogFails env' = false →
   ∃ d, (read (Some p)).2 = Return d ∧
        Disclosed.content d = CreateInput.content input).
Proof.
  intros Hpw Hp Hhash Hcmp Hmade sv1 Hadm Hexp read.
  set (row := secret_data env ctx input).
  assert (Hrun : create env ctx input sv =
    (with_db (with_create_limiter sv
                (after_admission (now env) ctx (secretCreateRateLimit sv)))
       {| secrets := secrets (db sv) ++ [row]; accessLogs := accessLogs (db sv) |},
     Return (created row)) ∧ ¬ taken row sv).
  { revert Hmade. rewrite RouterFacts.create_run.
    destruct (Nat.ltb _ 1); [done|]. simpl.
    destruct (negb _); [done|].
    by destruct (decide _). }
  destruct Hrun as [Hrun Hfree].
  assert (Hout : out = created row) by (rewrite Hrun in Hmade; by injection Hmade).
  assert (Hfind : lookup_slug (Created.slug out) sv1 = Some row).
  { subst sv1 out. rewrite Hrun. unfold lookup_slug. simpl. rewrite filter_app.
    assert (Hnone : filter (λ s, Secret.slug s = nanoid env 0) (secrets (db sv)) = []).
    { apply head_None, RouterFacts.head_filter_none. intros s Hin Hslug.
      apply Hfree, Exists_exists. exists s. split; [done|]. by right. }
    rewrite Hnone. simpl. by rewrite filter_cons_True. }
  assert (Hlive : has_expired (now env') row = false).
  { unfold has_expired. simpl. destruct (CreateInput.expiresAt input) as [e|]; [|done].
    apply Z.ltb_ge. by apply Hexp. }
  assert (Hfresh : consumed row = false) by (unfold consumed; simpl; apply andb_false_r).
  assert (Hstored : Secret.password row = Some (bcrypt_hash p)).
  { simpl. rewrite Hpw. simpl. by destruct p. }
  assert (Htruthy : truthy (Secret.password row) = true).
  { rewrite Hstored. simpl. by destruct (bcrypt_hash p). }
  assert (Hcontent : Secret.content row = CreateInput.content input) by done.
  clearbody row.
  assert (Hread : ∀ supplied, read supplied =
    let sv2 := with_access_limiter sv1
                 (after_admission (now env') ctx' (secretAccessRateLimit sv1)) in
    if negb (truthy supplied) then
      (sv2, Throw (TRPCError UNAUTHORIZED "Password required"))
    else if negb (bcrypt_compare (default EmptyString supplied) (bcrypt_hash p)) then
      (sv2, Throw (TRPCError UNAUTHORIZED "Invalid password"))
    else if accessLogFails env' then (sv2, Throw (PrismaError StoreUnavailable))
    else
      (with_db sv2
         {| secrets := if Secret.isOneTimeAccess row
                       then update_where_id (now env') (Secret.id row) mark_accessed
                              (secrets (db sv1))
                       else secrets (db sv1);
            accessLogs := accessLogs (db sv1) ++ [accessLog_data env' ctx' row] |},
       Return (disclosed row))).
  { intros supplied. subst read. simpl. rewrite RouterFacts.getBySlug_run. simpl.
    rewrite Hadm, Hfind, Hlive, Hfresh. simpl.
    unfold password_passes. rewrite Htruthy, Hstored. simpl.
    destruct (truthy supplied); simpl; [|done].
    by destruct (bcrypt_compare _ _). }
  split; [by rewrite Hread|]. split; [by rewrite Hread|]. split.
  - intros q Hq Hrej. rewrite Hread. simpl.
    replace (String.eqb q EmptyString) with false by (by destruct q).
    simpl. by rewrite Hrej.
  - intros Hlog. rewrite Hread. simpl.
    replace (String.eqb p EmptyString) with false by (by destruct p).
    simpl. rewrite Hcmp, Hlog. simpl. by exists (disclosed row).
Qed.

End WithBcrypt.

#[local] Existing Instance toy_bcrypt.

Lemma probe_predicts_disclosure_witness :
  let sv := server_with [a_secret "id1" "slug-a" None false false] in
  let env := env_at 5 "slug-b" "slug-c" "log1" false in
  let_through (now env) (visitor "203.0.113.7") (secretAccessRateLimit sv) = true ∧
  (checkRequirements env "slug-a" sv).1 = sv.
Proof.
  intros sv env.
  assert (H1 : let_through (now env) (visitor "203.0.113.7") (secretAccessRateLimit sv) = true)
    by (vm_compute; reflexivity).
  split; [done|].
  exact (proj1 (probe_predicts_disclosure env (visitor "203.0.113.7")
                  "slug-a" None sv H1)).
Defined.

Lemma delete_removes_secret_and_logs_witness :
  let owner := {| user_id := "u1"; email := "u1@example.org" |} in
  let secret :=
    {| Secret.id := "id1"; Secret.title := None; Secret.content := "X";
       Secret.slug := "slug-a"; Secret.password := None;
       Secret.expiresAt := None; Secret.isOneTimeAccess := false;
       Secret.hasBeenAccessed := false; Secret.createdAt := 0;
       Secret.updatedAt := 0; Secret.userId := Some "u1" |} in
  let sv :=
    {| db := {| secrets := [secret; a_secret "id2" "slug-b" None false false];
                accessLogs := [AccessLog.mk "log1" "id1" None None 3;
                               AccessLog.mk "log2" "id2" None None 4] |};
       secretCreateRateLimit := RateLimit.secretCreateRateLimit;
       secretAccessRateLimit := RateLimit.secretAccessRateLimit |} in
  let ctx := {| req := None; user := Some owner |} in
  user ctx = Some owner ∧
  db (delete ctx "id1" sv).1 =
    {| secrets := [a_secret "id2" "slug-b" None false false];
       accessLogs := [AccessLog.mk "log2" "id2" None None 4] |}.
Proof.
  intros owner secret sv ctx.
  assert (H1 : user ctx = Some owner) by reflexivity.
  split; [done|].
  destruct (delete_removes_secret_and_logs (env_at 9 "s" "t" "i" false) ctx "id1" sv owner H1)
    as (_ & _ & Hok).
  destruct (Hok secret eq_refl eq_refl) as (_ & Hrows & Hlogs & _).
  destruct (db (delete ctx "id1" sv).1) as [rows logs]. simpl in *.
  by rewrite Hrows, Hlogs.
Defined.

Lemma getBySlug_returns_only_through_gates_witness :
  let secret := a_secret "id1" "slug-a" None false false in
  let sv := server_with [secret] in
  let env := env_at 5 "slug-b" "slug-c" "log1" false in
  let input := GetBySlugInput.mk "slug-a" None in
  (getBySlug env anonymous input sv).2 = Return (disclosed secret) ∧
  ∃ s, lookup_slug "slug-a" sv = Some s ∧ consumed s = false.
Proof.
  intros secret sv env input.
  assert (H1 : (getBySlug env anonymous input sv).2 = Return (disclosed secret))
    by reflexivity.
  split; [done|].
  destruct (getBySlug_returns_only_through_gates env anonymous input sv _ H1)
    as (s & Hs & _ & _ & _ & Hc & _).
  by exists s.
Defined.

Lemma stored_fields_never_change_witness :
  let owner := {| user_id := "u1"; email := "u1@example.org" |} in
  let secret :=
    {| Secret.id := "id1"; Secret.title := None; Secret.content := "X";
       Secret.slug := "slug-a"; Secret.password := None;
       Secret.expiresAt := None; Secret.isOneTimeAccess := false;
       Secret.hasBeenAccessed := false; Secret.createdAt := 0;
       Secret.updatedAt := 0; Secret.userId := Some "u1" |} in
  let sv := server_with [secret] in
  let env := env_at 7 "slug-b" "slug-c" "id2" false in
  let ctx := {| req := None; user := Some owner |} in
  let c := Update (UpdateInput.mk "id1" (Some "T") (Some 50)) in
  let row' := set_updatedAt 7 (set_title_expiresAt (Some "T") (Some 50) secret) in
  (wf_db (db sv) ∧ secret ∈ secrets (db sv) ∧
   row' ∈ secrets (db (serve env ctx c sv)) ∧ Secret.id row' = Secret.id secret) ∧
  frozen row' = frozen secret.
Proof.
  intros owner secret sv env ctx c row'.
  assert (H1 : wf_db (db sv)) by (split; apply NoDup_singleton).
  assert (H2 : secret ∈ secrets (db sv)) by (apply list_elem_of_singleton; reflexivity).
  assert (H3 : row' ∈ secrets (db (serve env ctx c sv)))
    by (apply list_elem_of_singleton; reflexivity).
  assert (H4 : Secret.id row' = Secret.id secret) by reflexivity.
  split; [done|].
  exact (stored_fields_never_change env ctx c sv secret row' H1 H2 H3 H4).
Defined.

Lemma keys_stay_unique_witness :
  let reqs :=
    [(env_at 5 "slug-a" "slug-b" "id1" false, anonymous,
      Create (CreateInput.mk None "X" None None false));
     (env_at 6 "slug-a" "slug-b" "id2" false, anonymous,
      Create (CreateInput.mk None "Y" None None false))] in
  wf_db (db initial) ∧
  length (secrets (db (serve_all reqs initial))) = 1%nat ∧
  wf_db (db (serve_all reqs initial)).
Proof.
  intros reqs.
  assert (H1 : wf_db (db initial)) by (split; constructor).
  split; [done|]. split; [reflexivity|].
  exact (proj1 (keys_stay_unique reqs initial H1)).
Defined.

Lemma password_protects_created_secret_witness :
  let env := env_at 5 "slug-a" "slug-b" "id1" false in
  let env' := env_at 6 "slug-c" "slug-d" "log1" false in
  let input := CreateInput.mk None "X" (Some "hunter2") (Some 100) true in
  let made := create env anonymous input initial in
  let read supplied :=
    getBySlug env' anonymous (GetBySlugInput.mk "slug-a" supplied) made.1 in
  (CreateInput.password input = Some "hunter2" ∧ "hunter2" ≠ EmptyString ∧
   bcrypt_hash "hunter2" ≠ EmptyString ∧
   bcrypt_compare "hunter2" (bcrypt_hash "hunter2") = true ∧
   made.2 = Return (created (secret_data env anonymous input)) ∧
   let_through (now env') anonymous (secretAccessRateLimit made.1) = true ∧
   (∀ e, CreateInput.expiresAt input = Some e → now env' ≤ e)) ∧
  (read None).2 = Throw (TRPCError UNAUTHORIZED "Password required") ∧
  ∃ d, (read (Some "hunter2")).2 = Return d ∧ Disclosed.content d = "X".
Proof.
  intros env env' input made read.
  assert (H1 : CreateInput.password input = Some "hunter2") by reflexivity.
  assert (H2 : "hunter2" ≠ EmptyString) by discriminate.
  assert (H3 : bcrypt_hash "hunter2" ≠ EmptyString) by discriminate.
  assert (H4 : bcrypt_compare "hunter2" (bcrypt_hash "hunter2") = true) by reflexivity.
  assert (H5 : made.2 = Return (created (secret_data env anonymous input)))
    by reflexivity.
  assert (H6 : let_through (now env') anonymous (secretAccessRateLimit made.1) = true)
    by reflexivity.
  assert (H7 : ∀ e, CreateInput.expiresAt input = Some e → now env' ≤ e)
    by (intros e [= <-]; simpl; lia).
  split; [done|].
  destruct (password_protects_created_secret env anonymous input "hunter2" initial
              env' anonymous _ H1 H2 H3 H4 H5 H6 H7) as (Hnone & _ & _ & Hok).
  split; [exact Hnone|]. exact (Hok eq_refl).
Defined.

Lemma only_the_owner_updates_or_deletes_witness :
  let secret := a_secret "id1" "slug-a" None false false in
  let sv := server_with [secret] in
  let ctx := {| req := None; user := Some {| user_id := "u1"; email := "u1@example.org" |} |} in
  is_Return (delete ctx "id1" sv).2 = false ∧ (delete ctx "id1" sv).1 = sv.
Proof.
  intros secret sv ctx.
  destruct (only_the_owner_updates_or_deletes (env_at 9 "s" "t" "i" false) ctx
              (UpdateInput.mk "id1" None None) "id1" sv) as (_ & _ & _ & Hdel).
  exact (Hdel secret eq_refl eq_refl).
Defined.

End LifecycleFacts.


(** ** The listing of the dashboard *)

Module ListingFacts.
Import secretRouter.

#[local] Instance newer_first_total : Total newer_first.
Proof. intros a b. unfold newer_first. lia. Qed.

#[local] Instance newer_first_trans : Transitive newer_first.
Proof. intros a b c. unfold newer_first. lia. Qed.

Lemma insert_newer_Permutation x l : insert_newer x l ≡ₚ x :: l.
Proof.
  induction l as [|y l IH]; [done|]. simpl.
  case_decide; [done|]. rewrite IH. apply Permutation_swap.
Qed.

Lemma newest_first_Permutation l : newest_first l ≡ₚ l.
Proof.
  induction l as [|x l IH]; [done|]. simpl.
  by rewrite insert_newer_Permutation, IH.
Qed.

Lemma insert_newer_sorted x l :
  StronglySorted newer_first l → StronglySorted newer_first (insert_newer x l).
Proof.
  induction l as [|y l IH]; intros Hs; simpl.
  - repeat constructor.
  - apply StronglySorted_inv in Hs as [Hl Hy].
    case_decide as Hxy.
    + constructor; [by constructor|]. constructor; [done|].
      eapply Forall_impl; [exact Hy|]. intros z Hyz. by transitivity y.
    + constructor; [by apply IH|].
      rewrite insert_newer_Permutation. constructor; [|done].
      by destruct (total newer_first x y).
Qed.

Lemma newest_first_sorted l : StronglySorted newer_first (newest_first l).
Proof.
  induction l as [|x l IH]; simpl; [constructor|by apply insert_newer_sorted].
Qed.

(** Rows created at the same instant keep the order of the table. *)
Lemma newest_first_ties l :
  (∀ a b, a ∈ l → b ∈ l → Secret.createdAt a = Secret.createdAt b) →
  newest_first l = l.
Proof.
  induction l as [|x l IH]; intros Hsame; [done|]. simpl.
  rewrite IH by (intros a b Ha Hb; apply Hsame; by right).
  destruct l as [|y l]; [done|]. simpl.
  rewrite decide_True; [done|].
  unfold newer_first. rewrite (Hsame x y); [done|by left|by right; left].
Qed.

Lemma getUserSecrets_run ctx input sv :
  getUserSecrets ctx input sv =
    match user ctx with
    | None => (sv, Throw (TRPCError UNAUTHORIZED "Not authenticated"))
    | Some u =>
        let page := ListInput.page input in
        let limit := ListInput.limit input in
        if page <? 1 then
          (sv, Throw (TRPCError BAD_REQUEST "Number must be greater than or equal to 1"))
        else if limit <? 1 then
          (sv, Throw (TRPCError BAD_REQUEST "Number must be greater than or equal to 1"))
        else if 100 <? limit then
          (sv, Throw (TRPCError BAD_REQUEST "Number must be less than or equal to 100"))
        else
          (sv, Return
             {| Listing.secrets :=
                  listed (db sv) <$>
                    take (Z.to_nat limit)
                      (drop (Z.to_nat ((page - 1) * limit))
                         (newest_first (owned_by u (db sv))));
                Listing.total := Z.of_nat (length (owned_by u (db sv)));
                Listing.pages :=
                  ceil_div (Z.of_nat (length (owned_by u (db sv)))) limit |})
    end.
Proof.
  unfold getUserSecrets, protectedProcedure.
  destruct (user ctx) as [u|]; [|done].
  unfold mbind, M_bind, mthrow, M_throw, mret, M_ret, get_db. simpl.
  destruct (ListInput.page input <? 1); [done|].
  destruct (ListInput.limit input <? 1); [done|].
  by destruct (100 <? ListInput.limit input).
Qed.

Lemma ceil_div_bounds total limit :
  0 ≤ total → 1 ≤ limit →
  total ≤ ceil_div total limit * limit < total + limit.
Proof.
  intros Ht Hl. unfold ceil_div.
  pose proof (Z.div_mod (total + limit - 1) limit ltac:(lia)) as Hdm.
  pose proof (Z.mod_pos_bound (total + limit - 1) limit ltac:(lia)) as Hmod.
  nia.
Qed.

Lemma StronglySorted_take_drop {A} (R : relation A) (l : list A) n k :
  StronglySorted R l → StronglySorted R (take n (drop k l)).
Proof.
  intros Hs. rewrite <- (take_drop k l) in Hs.
  apply StronglySorted_app_1_r in Hs.
  rewrite <- (take_drop n (drop k l)) in Hs.
  by apply StronglySorted_app_1_l in Hs.
Qed.

(** X14. For an authenticated user and a page of at least 1 with a limit
    between 1 and 100, [getUserSecrets] changes nothing and returns at most
    [limit] rows, each the projection of a stored secret of that user, the
    newer before the older; [total] counts the user's secrets and [pages] is
    the least number of pages of [limit] rows that hold them.  A page below
    1 or a limit outside 1..100 is a [BAD_REQUEST]. *)
Theorem getUserSecrets_lists_own_page ctx page limit sv u :
  user ctx = Some u →
  let out := getUserSecrets ctx (ListInput.mk page limit) sv in
  out.1 = sv ∧
  (page < 1 ∨ limit < 1 ∨ 100 < limit → thrown_code out.2 = Some BAD_REQUEST) ∧
  (1 ≤ page → 1 ≤ limit ≤ 100 →
   ∃ l, out.2 = Return l ∧
     (∀ r, r ∈ Listing.secrets l →
        ∃ s, s ∈ secrets (db sv) ∧ Secret.userId s = Some (user_id u) ∧
             r = listed (db sv) s) ∧
     Z.of_nat (length (Listing.secrets l)) ≤ limit ∧
     StronglySorted listed_newer_first (Listing.secrets l) ∧
     Listing.total l = Z.of_nat (length (owned_by u (db sv))) ∧
     Listing.total l ≤ Listing.pages l * limit < Listing.total l + limit).
Proof.
  intros Hu out. subst out. rewrite getUserSecrets_run, Hu. simpl.
  destruct (Z.ltb_spec page 1); [by repeat split; try lia|].
  destruct (Z.ltb_spec limit 1); [by repeat split; try lia|].
  destruct (Z.ltb_spec 100 limit); [by repeat split; try lia|].
  split; [done|]. split; [lia|]. intros _ _. eexists. split; [done|]. simpl.
  split; [|split; [|split; [|split]]].
  - intros r (s & -> & Hin)%list_elem_of_fmap. exists s.
    apply subseteq_take, subseteq_drop in Hin.
    rewrite newest_first_Permutation in Hin.
    apply list_elem_of_filter in Hin as [Hown Hin]. done.
  - rewrite length_fmap, length_take. lia.
  - apply (StronglySorted_fmap _ newer_first); [done|].
    apply StronglySorted_take_drop, newest_first_sorted.
  - done.
  - apply ceil_div_bounds; lia.
Qed.

Lemma getUserSecrets_lists_own_page_witness :
  let owner := {| user_id := "u1"; email := "u1@example.org" |} in
  let mine t id slug :=
    {| Secret.id := id; Secret.title := None; Secret.content := "X";
       Secret.slug := slug; Secret.password := None;
       Secret.expiresAt := None; Secret.isOneTimeAccess := false;
       Secret.hasBeenAccessed := false; Secret.createdAt := t;
       Secret.updatedAt := t; Secret.userId := Some "u1" |} in
  let sv := server_with [mine 1 "id1" "slug-a"; a_secret "id2" "slug-b" None false false;
                         mine 3 "id3" "slug-c"; mine 2 "id4" "slug-d"] in
  let ctx := {| req := None; user := Some owner |} in
  user ctx = Some owner ∧
  (getUserSecrets ctx (ListInput.mk 1 2) sv).1 = sv ∧
  Listed.id <$> page_rows ctx 2 sv 1 = ["id3"; "id4"] ∧
  Listed.id <$> page_rows ctx 2 sv 2 = ["id1"].
Proof.
  intros owner mine sv ctx.
  assert (H1 : user ctx = Some owner) by reflexivity.
  split; [done|].
  split; [exact (proj1 (getUserSecrets_lists_own_page ctx 1 2 sv owner H1))|].
  split; by vm_compute.
Defined.

Lemma concat_chunks {A} (l : list A) (n m : nat) :
  concat ((λ k, take n (drop (k * n) l)) <$> seq 0 m) = take (m * n) l.
Proof.
  induction m as [|m IH]; [done|].
  rewrite seq_S, fmap_app, concat_app, IH. simpl. rewrite app_nil_r.
  rewrite take_take_drop. f_equal. lia.
Qed.

Lemma concat_fmap_fmap {A B C} (f : B → C) (g : A → list B) (ks : list A) :
  concat ((λ k, f <$> g k) <$> ks) = f <$> concat (g <$> ks).
Proof.
  induction ks as [|k ks IH]; [done|]. csimpl. by rewrite IH, fmap_app.
Qed.

Lemma page_rows_run ctx limit sv u k :
  user ctx = Some u → 1 ≤ limit ≤ 100 → 1 ≤ k →
  page_rows ctx limit sv k =
    listed (db sv) <$>
      take (Z.to_nat limit)
        (drop (Z.to_nat ((k - 1) * limit)) (newest_first (owned_by u (db sv)))).
Proof.
  intros Hu Hl Hk. unfold page_rows. rewrite getUserSecrets_run, Hu. simpl.
  destruct (Z.ltb_spec k 1); [lia|].
  destruct (Z.ltb_spec limit 1); [lia|].
  destruct (Z.ltb_spec 100 limit); [lia|]. done.
Qed.

(** X15. The pages of a listing partition it: for a limit between 1 and
    100, the rows of pages 1 to [pages], one after the other, are the
    user's secrets, each once, the newer first; a page after the last one
    is empty. *)
Theorem pages_partition_listing ctx limit sv u :
  user ctx = Some u → 1 ≤ limit ≤ 100 →
  let all := listed (db sv) <$> newest_first (owned_by u (db sv)) in
  let pages := ceil_div (Z.of_nat (length (owned_by u (db sv)))) limit in
  concat (page_rows ctx limit sv <$> seqZ 1 pages) = all ∧
  all ≡ₚ listed (db sv) <$> owned_by u (db sv) ∧
  ∀ k, pages < k → page_rows ctx limit sv k = [].
Proof.
  intros Hu Hl all pages.
  set (rows := newest_first (owned_by u (db sv))).
  assert (Hlen : length rows = length (owned_by u (db sv)))
    by (unfold rows; by rewrite newest_first_Permutation).
  pose proof (ceil_div_bounds (Z.of_nat (length (owned_by u (db sv)))) limit
                ltac:(lia) ltac:(lia)) as Hceil.
  fold pages in Hceil.
  assert (Hpages : 0 ≤ pages) by nia.
  split; [|split].
  - unfold seqZ. rewrite <- list_fmap_compose.
    erewrite (list_fmap_ext _
      (λ k, listed (db sv) <$>
              take (Z.to_nat limit) (drop (k * Z.to_nat limit) rows))).
    2: { intros i k Hk. simpl.
         rewrite (page_rows_run ctx limit sv u) by (done || lia).
         fold rows.
         replace (Z.to_nat ((Z.of_nat k + 1 - 1) * limit))
           with (k * Z.to_nat limit)%nat by nia.
         done. }
    rewrite concat_fmap_fmap, concat_chunks. unfold all. fold rows. f_equal.
    apply take_ge. rewrite Hlen. apply Nat2Z.inj_le.
    rewrite Nat2Z.inj_mul, !Z2Nat.id by lia. lia.
  - unfold all. by rewrite newest_first_Permutation.
  - intros k Hk. rewrite (page_rows_run ctx limit sv u) by (done || nia).
    fold rows. rewrite drop_ge; [by rewrite take_nil|]. rewrite Hlen. apply Nat2Z.inj_le.
    rewrite Z2Nat.id by nia. nia.
Qed.

Lemma pages_partition_listing_witness :
  let owner := {| user_id := "u1"; email := "u1@example.org" |} in
  let mine t id slug :=
    {| Secret.id := id; Secret.title := None; Secret.content := "X";
       Secret.slug := slug; Secret.password := None;
       Secret.expiresAt := None; Secret.isOneTimeAccess := false;
       Secret.hasBeenAccessed := false; Secret.createdAt := t;
       Secret.updatedAt := t; Secret.userId := Some "u1" |} in
  let sv := server_with [mine 1 "id1" "slug-a"; a_secret "id2" "slug-b" None false false;
                         mine 3 "id3" "slug-c"; mine 2 "id4" "slug-d"] in
  let ctx := {| req := None; user := Some owner |} in
  (user ctx = Some owner ∧ 1 ≤ 2 ≤ 100) ∧
  concat (page_rows ctx 2 sv <$> seqZ 1 2) =
    listed (db sv) <$> newest_first (owned_by owner (db sv)).
Proof.
  intros owner mine sv ctx.
  assert (H1 : user ctx = Some owner) by reflexivity.
  assert (H2 : 1 ≤ 2 ≤ 100) by lia.
  split; [done|].
  exact (proj1 (pages_partition_listing ctx 2 sv owner H1 H2)).
Defined.

(** X17. The dashboard and the server agree on the state of a secret: for a
    stored secret, on a table with unique keys, the label the dashboard
    shows for its row of the listing tells what [checkRequirements] answers
    on its slug at the same instant: "Expired" with "Secret has expired",
    "Accessed" with "Secret has already been accessed", and "Active" with
    the requirements of the secret. *)
Theorem status_agrees_with_probe `{Bcrypt} env sv s :
  wf_db (db sv) → s ∈ secrets (db sv) →
  let status := getSecretStatus (now env) (listed (db sv) s) in
  let probe := (checkRequirements env (Secret.slug s) sv).2 in
  (label status = "Expired" ∧ color status = "error" ∧
   probe = Throw (TRPCError NOT_FOUND "Secret has expired")) ∨
  (label status = "Accessed" ∧ color status = "warning" ∧
   probe = Throw (TRPCError NOT_FOUND "Secret has already been accessed")) ∨
  (label status = "Active" ∧ color status = "success" ∧
   probe = Return (requirements s)).
Proof.
  intros Hwf Hin. simpl.
  rewrite RouterFacts.checkRequirements_run,
    (RouterFacts.lookup_slug_unique _ sv s Hwf Hin eq_refl).
  unfold getSecretStatus, has_expired, consumed. simpl.
  destruct (Secret.expiresAt s) as [e|].
  - destruct (e <? now env); [by left|].
    destruct (Secret.isOneTimeAccess s && Secret.hasBeenAccessed s); auto.
  - destruct (Secret.isOneTimeAccess s && Secret.hasBeenAccessed s); auto.
Qed.

Section WithBcrypt.
Context `{Bcrypt}.

End WithBcrypt.

#[local] Existing Instance toy_bcrypt.

Lemma status_agrees_with_probe_witness :
  let s := a_secret "id1" "slug-a" (Some 10) true true in
  let sv := server_with [s; a_secret "id2" "slug-b" None true true] in
  let env := env_at 11 "slug-c" "slug-d" "log1" false in
  (wf_db (db sv) ∧ s ∈ secrets (db sv)) ∧
  label (getSecretStatus (now env) (listed (db sv) s)) = "Expired" ∧
  (checkRequirements env "slug-a" sv).2 =
    Throw (TRPCError NOT_FOUND "Secret has expired").
Proof.
  intros s sv env.
  assert (H1 : wf_db (db sv)).
  { split; apply (bool_decide_unpack (NoDup _)); vm_compute; exact I. }
  assert (H2 : s ∈ secrets (db sv)) by (left).
  split; [done|].
  destruct (status_agrees_with_probe env sv s H1 H2)
    as [(Hl & _ & Hp)|[(Hl & _)|(Hl & _)]]; [done|discriminate Hl..].
Defined.

End ListingFacts.


(** ** Accounts and the request context *)

Module AccountFacts.
Import authRouter.

Lemma head_filter_unique {A B} `{EqDecision B} (f : A → B) (l : list A) x :
  NoDup (f <$> l) → x ∈ l → head (filter (λ y, f y = f x) l) = Some x.
Proof.
  intros Hnd Hin.
  destruct (RouterFacts.head_filter_is_Some (λ y, f y = f x) l x Hin eq_refl) as [y Hy].
  rewrite Hy. f_equal.
  apply RouterFacts.head_filter_elem in Hy as [Hyin Hfy].
  by eapply RouterFacts.NoDup_fmap_elem_eq.
Qed.

Section WithLibraries.
Context `{Bcrypt} `{Jwt} `{EmailSyntax}.

Lemma register_run env ctx input st :
  register env ctx input st =
    if negb (valid_register input) then
      (st, Throw (TRPCError BAD_REQUEST
             (if Nat.ltb (String.length (RegisterInput.name input)) 1
              then "Name is required"
              else if negb (is_email (RegisterInput.email input)) then "Invalid email"
              else "Password must be at least 6 characters")))
    else
      let st1 := with_limiter st (after_admission (now env) ctx (authRateLimit st)) in
      if negb (let_through (now env) ctx (authRateLimit st)) then
        (st1, Throw (TRPCError TOO_MANY_REQUESTS
                       "Too many registration attempts. Please try again later."))
      else
        match lookup_email (RegisterInput.email input) st with
        | Some _ => (st1, Throw (TRPCError CONFLICT "User with this email already exists"))
        | None =>
            if decide (Exists (λ a, Account.id a = cuid env ∨
                                    Account.email a = RegisterInput.email input)
                         (users st))
            then (st1, Throw (PrismaError UniqueConstraintFailed))
            else
              ({| users := users st ++ [new_account env input];
                  authRateLimit := authRateLimit st1 |},
               Return (session env (new_account env input)))
        end.
Proof.
  unfold register, valid_register, let_through, after_admission, lookup_email.
  unfold mbind, M_bind, mret, M_ret, mthrow, M_throw.
  destruct (Nat.ltb (String.length (RegisterInput.name input)) 1); [done|].
  destruct (is_email (RegisterInput.email input)); [|done].
  destruct (Nat.ltb (String.length (RegisterInput.password input)) 6); [done|]. simpl.
  destruct (req ctx) as [r|]; simpl.
  all: unfold authRateLimit_check, user_findUnique_email, get_users, user_create.
  all: unfold mbind, M_bind, mret, M_ret, mthrow, M_throw; simpl.
  1: destruct (RateLimit.check _ _ _) as [rl res]; simpl.
  1: destruct (RateLimit.allowed res); simpl; [|done].
  all: destruct (head _) as [a|]; [by destruct st|].
  all: unfold new_account; simpl.
  all: destruct (decide _); by destruct st.
Qed.

Lemma login_run env ctx input st :
  login env ctx input st =
    if negb (valid_login input) then
      (st, Throw (TRPCError BAD_REQUEST
             (if negb (is_email (LoginInput.email input)) then "Invalid email"
              else "Password is required")))
    else
      let st1 := with_limiter st (after_admission (now env) ctx (authRateLimit st)) in
      if negb (let_through (now env) ctx (authRateLimit st)) then
        (st1, Throw (TRPCError TOO_MANY_REQUESTS
                       "Too many login attempts. Please try again later."))
      else
        match lookup_email (LoginInput.email input) st with
        | None => (st1, Throw (TRPCError UNAUTHORIZED "Invalid credentials"))
        | Some a =>
            if bcrypt_compare (LoginInput.password input) (Account.password a)
            then (st1, Return (session env a))
            else (st1, Throw (TRPCError UNAUTHORIZED "Invalid credentials"))
        end.
Proof.
  unfold login, valid_login, let_through, after_admission, lookup_email.
  unfold mbind, M_bind, mret, M_ret, mthrow, M_throw.
  destruct (is_email (LoginInput.email input)); [|done].
  destruct (Nat.ltb (String.length (LoginInput.password input)) 1); [done|]. simpl.
  destruct (req ctx) as [r|]; simpl.
  all: unfold authRateLimit_check, user_findUnique_email, get_users.
  all: unfold mbind, M_bind, mret, M_ret, mthrow, M_throw; simpl.
  1: destruct (RateLimit.check _ _ _) as [rl res]; simpl.
  1: destruct (RateLimit.allowed res); simpl; [|done].
  all: destruct (head _) as [a|]; [|by destruct st].
  all: destruct (bcrypt_compare _ _); by destruct st.
Qed.

Lemma me_run ctx st :
  me ctx st =
    match user ctx with
    | None => (st, Throw (TRPCError UNAUTHORIZED "Not authenticated"))
    | Some u =>
        match lookup_account (user_id u) st with
        | None => (st, Throw (TRPCError NOT_FOUND "User not found"))
        | Some a => (st, Return (profile a))
        end
    end.
Proof.
  unfold me, lookup_account. destruct (user ctx) as [u|]; [|done].
  unfold user_findUnique_id, get_users, mbind, M_bind, mret, M_ret. simpl.
  by destruct (head _).
Qed.

(** X18. A [login] that passes its schema and the limiter never changes the
    accounts, and it fails in one way only: an unknown email and a wrong
    password both get [UNAUTHORIZED] "Invalid credentials".  When it
    returns, the account of that email exists, the password was verified
    against its hash, and the session names that account. *)
Theorem login_hides_which_credential_failed env ctx input st :
  valid_login input = true →
  let_through (now env) ctx (authRateLimit st) = true →
  let out := login env ctx input st in
  users out.1 = users st ∧
  (is_Return out.2 = false →
   out.2 = Throw (TRPCError UNAUTHORIZED "Invalid credentials")) ∧
  (lookup_email (LoginInput.email input) st = None → is_Return out.2 = false) ∧
  (∀ a, lookup_email (LoginInput.email input) st = Some a →
     bcrypt_compare (LoginInput.password input) (Account.password a) = false →
     is_Return out.2 = false) ∧
  (∀ s, out.2 = Return s →
     ∃ a, lookup_email (LoginInput.email input) st = Some a ∧
          bcrypt_compare (LoginInput.password input) (Account.password a) = true ∧
          s = session env a).
Proof.
  intros Hvalid Hadm. simpl. rewrite login_run, Hvalid, Hadm. simpl.
  destruct (lookup_email _ st) as [a|]; [|by repeat split].
  destruct (bcrypt_compare _ _) eqn:Hcmp; simpl.
  - split; [done|]. split; [done|]. split; [done|].
    split; [intros ? [= <-] ?; congruence|].
    intros s [= <-]. by exists a.
  - by repeat split.
Qed.

Lemma long_password_is_nonempty (p : string) :
  Nat.ltb (String.length p) 6 = false → Nat.ltb (String.length p) 1 = false.
Proof. by destruct p. Qed.

(** X19. Who has registered can log in: after a [register] that returns,
    with a library that verifies a password against its own hash, a [login]
    with the same email and password that the limiter lets through returns
    a session of the same account, and a [login] with a password the
    library rejects against that hash throws "Invalid credentials". *)
Theorem register_then_login env ctx input st s env' ctx' :
  (register env ctx input st).2 = Return s →
  bcrypt_compare (RegisterInput.password input)
    (bcrypt_hash (RegisterInput.password input)) = true →
  let st1 := (register env ctx input st).1 in
  let_through (now env') ctx' (authRateLimit st1) = true →
  let attempt password :=
    (login env' ctx' (LoginInput.mk (RegisterInput.email input) password) st1).2 in
  Session.id s = cuid env ∧
  (∃ s', attempt (RegisterInput.password input) = Return s' ∧
         Session.id s' = Session.id s ∧
         Session.email s' = Session.email s ∧
         Session.name s' = Session.name s) ∧
  (∀ q, q ≠ EmptyString →
     bcrypt_compare q (bcrypt_hash (RegisterInput.password input)) = false →
     attempt q = Throw (TRPCError UNAUTHORIZED "Invalid credentials")).
Proof.
  intros Hreg Hcmp st1 Hadm attempt.
  set (a := new_account env input).
  assert (Hrun : valid_register input = true ∧
                 lookup_email (RegisterInput.email input) st = None ∧
                 users st1 = users st ++ [a] ∧ s = session env a).
  { subst st1. revert Hreg. rewrite register_run.
    destruct (valid_register input); [|done]. simpl.
    destruct (negb _); [done|].
    destruct (lookup_email _ st); [done|].
    destruct (decide _); [done|]. simpl. by intros [= <-]. }
  destruct Hrun as (Hvalid & Hnew & Husers & ->).
  assert (Hfind : lookup_email (RegisterInput.email input) st1 = Some a).
  { unfold lookup_email in *. rewrite Husers, filter_app.
    apply head_None in Hnew. rewrite Hnew. simpl. by rewrite filter_cons_True. }
  assert (Hemail : is_email (RegisterInput.email input) = true ∧
                   Nat.ltb (String.length (RegisterInput.password input)) 6 = false).
  { unfold valid_register in Hvalid.
    apply andb_true_iff in Hvalid as [[_ ?]%andb_true_iff ?%negb_true_iff]. done. }
  destruct Hemail as [Hemail Hlong].
  assert (Hlogin : ∀ password, password ≠ EmptyString → attempt password =
            if bcrypt_compare password (bcrypt_hash (RegisterInput.password input))
            then Return (session env' a)
            else Throw (TRPCError UNAUTHORIZED "Invalid credentials")).
  { intros password Hne. subst attempt. simpl. rewrite login_run.
    unfold valid_login. simpl. rewrite Hemail, Hadm, Hfind. simpl.
    assert (Hlen : Nat.ltb (String.length password) 1 = false)
      by (destruct password; [by destruct Hne|done]).
    rewrite Hlen.
    simpl. by destruct (bcrypt_compare password _). }
  split; [done|]. split.
  - exists (session env' a). split; [|done].
    rewrite Hlogin, Hcmp; [done|].
    intros Heq. rewrite Heq in Hlong. discriminate Hlong.
  - intros q Hq Hrej. by rewrite Hlogin, Hrej.
Qed.

(** The table of users after a call: as before, or one account more, with
    an email and an id that were free. *)
Lemma serve_users env ctx c st :
  users (serve env ctx c st) = users st ∨
  ∃ a, users (serve env ctx c st) = users st ++ [a] ∧
       ¬ Exists (λ b, Account.id b = Account.id a ∨ Account.email b = Account.email a)
           (users st).
Proof.
  destruct c as [input|input|]; simpl.
  - rewrite register_run.
    destruct (negb (valid_register input)); [by left|]. simpl.
    destruct (negb _); [by left|].
    destruct (lookup_email _ st); [by left|].
    destruct (decide _) as [|Hfree]; [by left|].
    right. by eexists.
  - rewrite login_run.
    destruct (negb (valid_login input)); [by left|]. simpl.
    destruct (negb _); [by left|].
    destruct (lookup_email _ st); [|by left].
    destruct (bcrypt_compare _ _); by left.
  - rewrite me_run. destruct (user ctx); [|by left].
    destruct (lookup_account _ st); by left.
Qed.

Lemma serve_keeps_accounts env ctx c st email a :
  wf_users st → lookup_email email st = Some a →
  wf_users (serve env ctx c st) ∧ lookup_email email (serve env ctx c st) = Some a.
Proof.
  intros [Hid Hem] Hfind. unfold wf_users, lookup_email in *.
  destruct (serve_users env ctx c st) as [->|(b & -> & Hfree)]; [done|].
  split.
  - rewrite !fmap_app. simpl. split; apply NoDup_app.
    all: split; [done|]; split; [|apply NoDup_singleton].
    all: intros x Hx ->%list_elem_of_singleton.
    all: apply list_elem_of_fmap in Hx as (r & Hr & Hin).
    all: apply Hfree, Exists_exists; exists r; split; [done|]; auto.
  - rewrite filter_app. apply head_Some in Hfind as [l' Hl']. by rewrite Hl'.
Qed.

Lemma serve_wf_users env ctx c st : wf_users st → wf_users (serve env ctx c st).
Proof.
  intros [Hid Hem]. unfold wf_users.
  destruct (serve_users env ctx c st) as [->|(b & -> & Hfree)]; [done|].
  rewrite !fmap_app. simpl. split; apply NoDup_app.
  all: split; [done|]; split; [|apply NoDup_singleton].
  all: intros x Hx ->%list_elem_of_singleton.
  all: apply list_elem_of_fmap in Hx as (r & Hr & Hin).
  all: apply Hfree, Exists_exists; exists r; split; [done|]; auto.
Qed.

(** X20. Accounts are never changed or removed, and an email serves once:
    on a table of users with unique ids and emails, after any requests to
    the account router the ids and emails are still unique, the account of
    an email is the one it was, and a [register] with that email never
    returns: once it has passed its schema and the limiter it throws
    [CONFLICT], and it stores nothing. *)
Theorem registered_email_stays_taken reqs : ∀ st email a,
  wf_users st → lookup_email email st = Some a →
  let st' := serve_all reqs st in
  wf_users st' ∧
  lookup_email email st' = Some a ∧
  ∀ env ctx input, RegisterInput.email input = email →
    let out := register env ctx input st' in
    is_Return out.2 = false ∧ users out.1 = users st' ∧
    (valid_register input = true →
     let_through (now env) ctx (authRateLimit st') = true →
     out.2 = Throw (TRPCError CONFLICT "User with this email already exists")).
Proof.
  induction reqs as [|[[env ctx] c] reqs IH]; intros st email a Hwf Hfind; simpl.
  - split; [done|]. split; [done|].
    intros env ctx input <-. rewrite register_run.
    destruct (valid_register input); [|done]. simpl.
    destruct (let_through _ _ _); [|done]. simpl.
    by rewrite Hfind.
  - destruct (serve_keeps_accounts env ctx c st email a Hwf Hfind) as [Hwf1 Hfind1].
    exact (IH _ email a Hwf1 Hfind1).
Qed.

Lemma serve_limiter env ctx c st r :
  req ctx = Some r → valid_call c = true →
  let checked := RateLimit.check (now env) (RateLimit.getClientIdentifier r)
                   (authRateLimit st) in
  authRateLimit (serve env ctx c st) = checked.1 ∧
  turned_away env ctx c st = negb (RateLimit.allowed checked.2) ∧
  (turned_away env ctx c st = true → users (serve env ctx c st) = users st).
Proof.
  intros Hreq Hvalid. destruct c as [input|input|]; simpl in *; [| |done].
  - rewrite register_run, Hvalid. unfold let_through, after_admission. rewrite Hreq.
    simpl. destruct (RateLimit.allowed _); simpl; [|done].
    destruct (lookup_email _ st); [done|]. by destruct (decide _).
  - rewrite login_run, Hvalid. unfold let_through, after_admission. rewrite Hreq.
    simpl. destruct (RateLimit.allowed _); simpl; [|done].
    destruct (lookup_email _ st); [|done]. by destruct (bcrypt_compare _ _).
Qed.

(** X21. Registrations and logins draw on one budget: each call from a
    request object that passes its schema, whatever its kind and whether
    its credentials are good or not, is one [check] of the authentication
    limiter for the client of the request; it is turned away exactly when
    that [check] disallows, and then changes no account.  A series of such
    calls leaves the limiter as the series of their [check]s does. *)
Theorem auth_calls_share_one_budget ctx r (calls : list (Env * Call)) : ∀ st,
  req ctx = Some r →
  Forall (λ ec, valid_call ec.2 = true) calls →
  let client := RateLimit.getClientIdentifier r in
  authRateLimit (serve_all ((λ ec, (ec.1, ctx, ec.2)) <$> calls) st) =
    (RateLimit.checks client ((λ ec, now ec.1) <$> calls) (authRateLimit st)).1 ∧
  ∀ env c, valid_call c = true →
    let checked := RateLimit.check (now env) client (authRateLimit st) in
    turned_away env ctx c st = negb (RateLimit.allowed checked.2) ∧
    (turned_away env ctx c st = true → users (serve env ctx c st) = users st).
Proof.
  intros st Hreq Hall client. split.
  - revert st. induction calls as [|[env c] calls IH]; intros st; [done|].
    apply Forall_cons in Hall as [Hc Hall]. csimpl.
    destruct (serve_limiter env ctx c st r Hreq Hc) as (Hlim & _).
    rewrite (IH Hall), Hlim. fold client.
    destruct (RateLimit.check (now env) client (authRateLimit st)) as [rl1 r1]. simpl.
    by destruct (RateLimit.checks client _ rl1).
  - intros env c Hc. by destruct (serve_limiter env ctx c st r Hreq Hc) as (_ & ? & ?).
Qed.

Lemma replace_Bearer token :
  replace_first "Bearer " EmptyString ("Bearer " +:+ token) = token.
Proof. by destruct token. Qed.

(** X22. The user of a context comes from a verified token only.  A request
    whose [authorization] header is "Bearer " followed by a token that the
    library verifies gets the user of its payload, whatever its cookies; a
    request without that header gets it from such a token in the
    [auth-token] cookie; a request whose token the library does not verify
    is anonymous, and so is a call without request.  No case is an error. *)
Theorem context_user_from_verified_token env r token userId email :
  token ≠ EmptyString →
  jwt_verify (now env) token = Some (userId, email) →
  let authenticated :=
    {| req := Some (request r);
       user := Some {| user_id := userId; email := email |} |} in
  (headers_get (request r) "authorization" = Some ("Bearer " +:+ token) →
   createTRPCContext env (Some r) = authenticated) ∧
  (headers_get (request r) "authorization" = None →
   cookies r !! "auth-token" = Some token →
   createTRPCContext env (Some r) = authenticated) ∧
  (∀ r' other, request_token r' = Some other →
     jwt_verify (now env) other = None →
     createTRPCContext env (Some r') = {| req := Some (request r'); user := None |}) ∧
  createTRPCContext env None = {| req := None; user := None |}.
Proof.
  intros Htok Hverify. simpl.
  assert (Htruthy : truthy (Some token) = true) by (by destruct token).
  split; [|split; [|split]].
  - intros Hheader. unfold createTRPCContext, request_token. rewrite Hheader.
    rewrite fmap_Some_2 with (x := "Bearer " +:+ token) by done.
    rewrite replace_Bearer. unfold or_else. rewrite !Htruthy. simpl.
    by rewrite Hverify.
  - intros Hnone Hcookie. unfold createTRPCContext, request_token.
    rewrite Hnone, Hcookie. unfold or_else. simpl. simpl in Htruthy.
    by rewrite Htruthy, Hverify.
  - intros r' other Hother Hbad. unfold createTRPCContext. rewrite Hother.
    destruct (truthy (Some other)); [|done]. simpl. by rewrite Hbad.
  - done.
Qed.

(** X23. A session opens the protected procedures: take a [login] that
    returns, on a table of users with unique ids and emails, and a later
    request that carries the token of the session, not empty, as "Bearer "
    token, at an instant at which the library verifies the token it
    signed.  The context of that request has the account's id and email as
    its user, and [me] returns the profile of the account. *)
Theorem session_token_opens_me env ctx input st s env' r :
  wf_users st →
  (login env ctx input st).2 = Return s →
  Session.token s ≠ EmptyString →
  jwt_verify (now env')
    (jwt_sign (now env) (Session.id s, Session.email s) "7d")
    = Some (Session.id s, Session.email s) →
  headers_get (request r) "authorization" = Some ("Bearer " +:+ Session.token s) →
  let st1 := (login env ctx input st).1 in
  let ctx' := createTRPCContext env' (Some r) in
  user ctx' = Some {| user_id := Session.id s; email := Session.email s |} ∧
  ∃ a, lookup_email (LoginInput.email input) st = Some a ∧
       (me ctx' st1).2 = Return (profile a) ∧
       Profile.id (profile a) = Session.id s ∧
       Profile.email (profile a) = Session.email s ∧
       Profile.name (profile a) = Session.name s.
Proof.
  intros [Hid _] Hlogin Htok Hverify Hheader st1 ctx'.
  assert (Hrun : ∃ a, lookup_email (LoginInput.email input) st = Some a ∧
                      s = session env a ∧ users st1 = users st).
  { subst st1. revert Hlogin. rewrite login_run.
    destruct (negb (valid_login input)); [done|]. simpl.
    destruct (negb _); [done|].
    destruct (lookup_email _ st) as [a|]; [|done].
    destruct (bcrypt_compare _ _); [|done]. simpl. intros [= <-]. by exists a. }
  destruct Hrun as (a & Hfind & -> & Husers).
  assert (Hctx : ctx' = {| req := Some (request r);
                           user := Some {| user_id := Account.id a;
                                           email := Account.email a |} |}).
  { subst ctx'. unfold createTRPCContext, request_token. rewrite Hheader.
    simpl in Htok, Hverify. simpl Session.token.
    set (token := jwt_sign (now env) (Account.id a, Account.email a) "7d") in *.
    assert (Htruthy : truthy (Some token) = true) by (by destruct token).
    rewrite fmap_Some_2 with (x := "Bearer " +:+ token) by done.
    rewrite replace_Bearer. unfold or_else. rewrite !Htruthy. simpl.
    by rewrite Hverify. }
  split; [by rewrite Hctx|]. exists a. split; [done|]. split; [|done].
  rewrite me_run, Hctx. simpl. unfold lookup_account. rewrite Husers.
  apply RouterFacts.head_filter_elem in Hfind as [Hin _].
  by rewrite (head_filter_unique Account.id (users st) a Hid Hin).
Qed.

End WithLibraries.
#[local] Existing Instance toy_bcrypt.
#[local] Existing Instance toy_jwt.
#[local] Existing Instance toy_email.

Lemma login_hides_which_credential_failed_witness :
  let env := env_at 5 "s" "t" "u2" false in
  let st := accounts_with [alice] in
  let ctx := visitor "203.0.113.7" in
  (login env ctx (LoginInput.mk "alice@example.org" "battery staple") st).2
    = Throw (TRPCError UNAUTHORIZED "Invalid credentials") ∧
  (login env ctx (LoginInput.mk "bob@example.org" "correct horse") st).2
    = Throw (TRPCError UNAUTHORIZED "Invalid credentials").
Proof.
  intros env st ctx. split.
  - apply (login_hides_which_credential_failed env ctx
             (LoginInput.mk "alice@example.org" "battery staple") st);
      vm_compute; reflexivity.
  - apply (login_hides_which_credential_failed env ctx
             (LoginInput.mk "bob@example.org" "correct horse") st);
      vm_compute; reflexivity.
Defined.

Lemma register_then_login_witness :
  let env := env_at 5 "s" "t" "u2" false in
  let env' := env_at 9 "s" "t" "u3" false in
  let ctx := visitor "203.0.113.7" in
  let input := RegisterInput.mk "Bob" "bob@example.org" "tr0ub4dor" in
  let st1 := (register env ctx input (accounts_with [alice])).1 in
  (∃ s', (login env' ctx (LoginInput.mk "bob@example.org" "tr0ub4dor") st1).2 = Return s' ∧
         Session.id s' = "u2") ∧
  (login env' ctx (LoginInput.mk "bob@example.org" "troubador") st1).2
    = Throw (TRPCError UNAUTHORIZED "Invalid credentials").
Proof.
  intros env env' ctx input st1.
  destruct (register_then_login env ctx input (accounts_with [alice])
              (session env (new_account env input)) env' ctx)
    as (Hid & (s' & Hs' & Hids & _) & Hwrong);
    [vm_compute; reflexivity..|].
  split.
  - exists s'. split; [exact Hs'|]. by rewrite Hids, Hid.
  - apply Hwrong; [discriminate|vm_compute; reflexivity].
Defined.

Lemma registered_email_stays_taken_witness :
  let env := env_at 5 "s" "t" "u2" false in
  let ctx := visitor "203.0.113.7" in
  let reqs :=
    [(env, ctx, Register (RegisterInput.mk "Bob" "bob@example.org" "tr0ub4dor"));
     (env_at 6 "s" "t" "u3" false, ctx, Login (LoginInput.mk "alice@example.org" "x"));
     (env_at 7 "s" "t" "u4" false, anonymous, Me)] in
  let st' := serve_all reqs (accounts_with [alice]) in
  lookup_email "alice@example.org" st' = Some alice ∧
  (register (env_at 8 "s" "t" "u5" false) ctx
     (RegisterInput.mk "Eve" "alice@example.org" "hunter22") st').2
    = Throw (TRPCError CONFLICT "User with this email already exists").
Proof.
  intros env ctx reqs st'.
  assert (Hwf : wf_users (accounts_with [alice])).
  { split; apply (bool_decide_unpack _); vm_compute; exact I. }
  destruct (registered_email_stays_taken reqs (accounts_with [alice])
              "alice@example.org" alice Hwf eq_refl) as (_ & Hfind & Htaken).
  split; [exact Hfind|].
  destruct (Htaken (env_at 8 "s" "t" "u5" false) ctx
              (RegisterInput.mk "Eve" "alice@example.org" "hunter22") eq_refl)
    as (_ & _ & Hconflict).
  apply Hconflict; vm_compute; reflexivity.
Defined.

Lemma auth_calls_share_one_budget_witness :
  let ctx := visitor "203.0.113.7" in
  let calls :=
    [(env_at 1 "s" "t" "u2" false, Login (LoginInput.mk "alice@example.org" "a"));
     (env_at 2 "s" "t" "u3" false, Login (LoginInput.mk "alice@example.org" "b"));
     (env_at 3 "s" "t" "u4" false,
      Register (RegisterInput.mk "Bob" "bob@example.org" "tr0ub4dor"));
     (env_at 4 "s" "t" "u5" false, Login (LoginInput.mk "alice@example.org" "c"));
     (env_at 5 "s" "t" "u6" false, Login (LoginInput.mk "bob@example.org" "d"))] in
  let st := serve_all ((λ ec, (ec.1, ctx, ec.2)) <$> calls) (accounts_with [alice]) in
  authRateLimit st =
    (RateLimit.checks "203.0.113.7" [1; 2; 3; 4; 5] RateLimit.authRateLimit).1 ∧
  turned_away (env_at 6 "s" "t" "u7" false) ctx
    (Login (LoginInput.mk "alice@example.org" "correct horse")) st = true.
Proof.
  intros ctx calls st.
  assert (Hreq : req ctx = Some {| headers := {[ "x-forwarded-for" := "203.0.113.7" ]} |})
    by reflexivity.
  assert (Hall : Forall (λ ec, valid_call ec.2 = true) calls).
  { repeat constructor. }
  split.
  - exact (proj1 (auth_calls_share_one_budget ctx _ calls (accounts_with [alice])
                    Hreq Hall)).
  - vm_compute. reflexivity.
Defined.

Lemma context_user_from_verified_token_witness :
  let env := env_at 5 "s" "t" "u2" false in
  let r := {| request := {| headers := {[ "authorization" := "Bearer u1.alice@example.org" ]} |};
              cookies := {[ "auth-token" := "u9.mallory@example.org" ]} |} in
  createTRPCContext env (Some r) =
    {| req := Some (request r);
       user := Some {| user_id := "u1"; email := "alice@example.org" |} |}.
Proof.
  intros env r.
  assert (Htok : "u1.alice@example.org" ≠ EmptyString) by discriminate.
  assert (Hverify : jwt_verify (now env) "u1.alice@example.org"
                    = Some ("u1", "alice@example.org")) by reflexivity.
  destruct (context_user_from_verified_token env r "u1.alice@example.org"
              "u1" "alice@example.org" Htok Hverify) as (Hheader & _).
  apply Hheader. reflexivity.
Defined.

Lemma session_token_opens_me_witness :
  let env := env_at 5 "s" "t" "u2" false in
  let env' := env_at 9 "s" "t" "u3" false in
  let input := LoginInput.mk "alice@example.org" "correct horse" in
  let st := accounts_with [alice] in
  let r := {| request := {| headers := {[ "authorization" := "Bearer u1.alice@example.org" ]} |};
              cookies := ∅ |} in
  ∃ a, (me (createTRPCContext env' (Some r)) (login env anonymous input st).1).2
       = Return (profile a).
Proof.
  intros env env' input st r.
  assert (Hwf : wf_users st).
  { split; apply (bool_decide_unpack _); vm_compute; exact I. }
  destruct (session_token_opens_me env anonymous input st (session env alice) env' r Hwf)
    as (_ & a & _ & Hme & _);
    [reflexivity || discriminate..|].
  by exists a.
Defined.

End AccountFacts.

(** ** [getBySlug] between its awaits *)

Module AwaitFacts.
Import secretRouter Awaits.

Section WithBcrypt.
Context `{Bcrypt}.

(** *** What each step does *)

Lemma step_Called c sv :
  getBySlug_step c Called sv =
    (with_access_limiter sv
       (after_admission (now (reader_env c)) (reader_ctx c) (secretAccessRateLimit sv)),
     if let_through (now (reader_env c)) (reader_ctx c) (secretAccessRateLimit sv)
     then Finding
     else Settled (Throw (TRPCError TOO_MANY_REQUESTS
                            "Too many secret access attempts. Please try again later."))).
Proof.
  unfold getBySlug_step, settle, let_through, after_admission.
  unfold mbind, M_bind, mret, M_ret, mthrow, M_throw.
  destruct (req (reader_ctx c)) as [r|]; simpl; [|by destruct sv].
  unfold secretAccessRateLimit_check.
  destruct (RateLimit.check _ _ _) as [rl res]. simpl.
  by destruct (RateLimit.allowed res).
Qed.

Lemma step_Finding c sv :
  getBySlug_step c Finding sv =
    (sv,
     match lookup_slug (GetBySlugInput.slug (reader_input c)) sv with
     | None => Settled (Throw (TRPCError NOT_FOUND "Secret not found"))
     | Some secret =>
         if has_expired (now (reader_env c)) secret then
           Settled (Throw (TRPCError NOT_FOUND "Secret has expired"))
         else if consumed secret then
           Settled (Throw (TRPCError NOT_FOUND "Secret has already been accessed"))
         else if truthy (Secret.password secret)
                 && negb (truthy (GetBySlugInput.password (reader_input c))) then
           Settled (Throw (TRPCError UNAUTHORIZED "Password required"))
         else if negb (password_passes (GetBySlugInput.password (reader_input c)) secret)
         then Settled (Throw (TRPCError UNAUTHORIZED "Invalid password"))
         else Logging secret
     end).
Proof.
  unfold getBySlug_step, settle, lookup_slug, password_passes.
  unfold secret_findUnique_slug, get_db.
  unfold mbind, M_bind, mret, M_ret, mthrow, M_throw. simpl.
  destruct (head _) as [secret|]; [|done].
  destruct (has_expired _ secret); [done|].
  destruct (consumed secret); [done|].
  destruct (truthy (Secret.password secret)); simpl; [|done].
  destruct (truthy (GetBySlugInput.password (reader_input c))); simpl; [|done].
  by destruct (bcrypt_compare _ _).
Qed.

Lemma step_Logging c secret sv :
  getBySlug_step c (Logging secret) sv =
    if accessLogFails (reader_env c) then
      (sv, Settled (Throw (PrismaError StoreUnavailable)))
    else
      (with_db sv
         {| secrets := secrets (db sv);
            accessLogs := accessLogs (db sv)
                            ++ [accessLog_data (reader_env c) (reader_ctx c) secret] |},
       if Secret.isOneTimeAccess secret then Marking secret
       else Settled (Return (disclosed secret))).
Proof.
  unfold getBySlug_step, settle, accessLog_create.
  destruct (accessLogFails (reader_env c)); [done|].
  unfold mbind, M_bind, mret, M_ret, get_db, put_db, with_db, disclosed. simpl.
  by destruct (Secret.isOneTimeAccess secret).
Qed.

Lemma step_Marking c secret sv :
  getBySlug_step c (Marking secret) sv =
    if secretUpdateFails c then
      (sv, Settled (Throw (PrismaError StoreUnavailable)))
    else
      match lookup_id (Secret.id secret) sv with
      | None => (sv, Settled (Throw (PrismaError RecordNotFound)))
      | Some _ =>
          (with_db sv
             {| secrets := update_where_id (now (reader_env c)) (Secret.id secret)
                             mark_accessed (secrets (db sv));
                accessLogs := accessLogs (db sv) |},
           Settled (Return (disclosed secret)))
      end.
Proof.
  unfold getBySlug_step, settle, lookup_id.
  destruct (secretUpdateFails c); [done|].
  unfold secret_update, mbind, M_bind, mret, M_ret, mthrow, M_throw, get_db, put_db.
  simpl. by destruct (head _).
Qed.

Lemma step_Settled c out sv : getBySlug_step c (Settled out) sv = (sv, Settled out).
Proof. done. Qed.

#[local] Arguments getBySlug_step : simpl never.

(** *** A call that nothing interrupts *)

(** The call as the cascade of its gates and writes. *)
Lemma getBySlug_alone_run c sv :
  getBySlug_alone c sv =
    let env := reader_env c in
    let ctx := reader_ctx c in
    let input := reader_input c in
    let sv1 := with_access_limiter sv
                 (after_admission (now env) ctx (secretAccessRateLimit sv)) in
    if negb (let_through (now env) ctx (secretAccessRateLimit sv)) then
      (sv1, Settled (Throw (TRPCError TOO_MANY_REQUESTS
                              "Too many secret access attempts. Please try again later.")))
    else
      match lookup_slug (GetBySlugInput.slug input) sv with
      | None => (sv1, Settled (Throw (TRPCError NOT_FOUND "Secret not found")))
      | Some secret =>
          if has_expired (now env) secret then
            (sv1, Settled (Throw (TRPCError NOT_FOUND "Secret has expired")))
          else if consumed secret then
            (sv1, Settled (Throw (TRPCError NOT_FOUND "Secret has already been accessed")))
          else if truthy (Secret.password secret)
                  && negb (truthy (GetBySlugInput.password input)) then
            (sv1, Settled (Throw (TRPCError UNAUTHORIZED "Password required")))
          else if negb (password_passes (GetBySlugInput.password input) secret) then
            (sv1, Settled (Throw (TRPCError UNAUTHORIZED "Invalid password")))
          else if accessLogFails env then
            (sv1, Settled (Throw (PrismaError StoreUnavailable)))
          else if Secret.isOneTimeAccess secret && secretUpdateFails c then
            (with_db sv1
               {| secrets := secrets (db sv);
                  accessLogs := accessLogs (db sv) ++ [accessLog_data env ctx secret] |},
             Settled (Throw (PrismaError StoreUnavailable)))
          else
            (with_db sv1
               {| secrets :=
                    if Secret.isOneTimeAccess secret
                    then update_where_id (now env) (Secret.id secret) mark_accessed
                           (secrets (db sv))
                    else secrets (db sv);
                  accessLogs := accessLogs (db sv) ++ [accessLog_data env ctx secret] |},
             Settled (Return (disclosed secret)))
      end.
Proof.
  unfold getBySlug_alone, getBySlug_steps. rewrite step_Called. simpl.
  destruct (let_through _ _ _); [|done]. simpl.
  rewrite step_Finding. unfold lookup_slug at 1. simpl. fold (lookup_slug
    (GetBySlugInput.slug (reader_input c)) sv).
  destruct (lookup_slug _ sv) as [secret|] eqn:Hfind; [|done].
  apply RouterFacts.lookup_slug_Some in Hfind as [Hin _].
  destruct (has_expired _ secret); [done|].
  destruct (consumed secret); [done|].
  destruct (truthy (Secret.password secret) && negb _); [done|].
  destruct (negb (password_passes _ secret)); [done|].
  rewrite step_Logging.
  destruct (accessLogFails (reader_env c)); [done|].
  destruct (Secret.isOneTimeAccess secret); simpl; [|done].
  rewrite step_Marking.
  destruct (secretUpdateFails c); [done|].
  unfold lookup_id. simpl.
  by destruct (RouterFacts.head_filter_is_Some (λ s, Secret.id s = Secret.id secret)
                 (secrets (db sv)) secret Hin eq_refl) as [row ->].
Qed.

(** The handler [getBySlug] is the call that nothing interrupts and whose
    update the store accepts. *)
Lemma getBySlug_alone_refines env ctx input sv :
  getBySlug_alone (reader env ctx input) sv =
    ((getBySlug env ctx input sv).1, Settled (getBySlug env ctx input sv).2).
Proof.
  rewrite getBySlug_alone_run, RouterFacts.getBySlug_run. simpl.
  destruct (negb (let_through _ _ _)); [done|].
  destruct (lookup_slug _ sv) as [secret|]; [|done].
  repeat (match goal with |- context [if ?b then _ else _] =>
            lazymatch b with
            | Secret.isOneTimeAccess _ => fail
            | _ => destruct b; [done|]
            end end).
  by rewrite andb_false_r.
Qed.


(** *** Two calls for one secret *)

Lemma passes_no_password_required supplied secret :
  password_passes supplied secret = true →
  truthy (Secret.password secret) && negb (truthy supplied) = false.
Proof.
  unfold password_passes. destruct (truthy (Secret.password secret)); [|done].
  by destruct (truthy supplied).
Qed.

(** A call let through goes on to read. *)
Lemma Called_let_through c sv :
  let_through (now (reader_env c)) (reader_ctx c) (secretAccessRateLimit sv) = true →
  getBySlug_step c Called sv =
    (with_access_limiter sv
       (after_admission (now (reader_env c)) (reader_ctx c) (secretAccessRateLimit sv)),
     Finding).
Proof. intros Hadm. by rewrite step_Called, Hadm. Qed.

(** A call that reads a secret which passes its gates goes on to log. *)
Lemma Finding_passes c sv secret :
  lookup_slug (GetBySlugInput.slug (reader_input c)) sv = Some secret →
  has_expired (now (reader_env c)) secret = false →
  consumed secret = false →
  password_passes (GetBySlugInput.password (reader_input c)) secret = true →
  getBySlug_step c Finding sv = (sv, Logging secret).
Proof.
  intros Hfind Hlive Hcons Hpw.
  rewrite step_Finding, Hfind, Hlive, Hcons.
  by rewrite (passes_no_password_required _ _ Hpw), Hpw.
Qed.

(** A call that reads a consumed secret is refused. *)
Lemma Finding_consumed c sv secret :
  lookup_slug (GetBySlugInput.slug (reader_input c)) sv = Some secret →
  has_expired (now (reader_env c)) secret = false →
  consumed secret = true →
  getBySlug_step c Finding sv =
    (sv, Settled (Throw (TRPCError NOT_FOUND "Secret has already been accessed"))).
Proof. intros Hfind Hlive Hcons. by rewrite step_Finding, Hfind, Hlive, Hcons. Qed.

(** The update of a one-time secret that is still stored marks it, whatever
    the row holds by then, and the call returns what it had read. *)
Lemma Marking_stored c sv secret :
  secretUpdateFails c = false →
  is_Some (lookup_id (Secret.id secret) sv) →
  getBySlug_step c (Marking secret) sv =
    (with_db sv
       {| secrets := update_where_id (now (reader_env c)) (Secret.id secret)
                       mark_accessed (secrets (db sv));
          accessLogs := accessLogs (db sv) |},
     Settled (Return (disclosed secret))).
Proof. intros Hup [row Hrow]. by rewrite step_Marking, Hup, Hrow. Qed.

(** An update leaves a row under each id that had one. *)
Lemma lookup_id_update_where_id t id change id' rows :
  keeps change →
  is_Some (head (filter (λ s, Secret.id s = id') rows)) →
  is_Some (head (filter (λ s, Secret.id s = id') (update_where_id t id change rows))).
Proof.
  intros Hk [row Hrow]. apply RouterFacts.head_filter_elem in Hrow as [Hin Hid].
  set (row' := if decide (Secret.id row = id) then set_updatedAt t (change row) else row).
  apply (RouterFacts.head_filter_is_Some _ _ row').
  - apply list_elem_of_fmap. by exists row.
  - subst row'. case_decide; [|done].
    destruct (RouterFacts.set_updatedAt_keeps t change Hk row) as (Hsame & _).
    by rewrite Hsame.
Qed.

(** Two calls for a stored one-time secret that has not been accessed, both
    let through and both passing the gates: served one after the other, the
    second is refused; when both have read the row before either has marked
    it, both return the secret. *)
Lemma two_readers c1 c2 slug sv secret :
  wf_db (db sv) →
  lookup_slug slug sv = Some secret →
  Secret.isOneTimeAccess secret = true →
  Secret.hasBeenAccessed secret = false →
  GetBySlugInput.slug (reader_input c1) = slug →
  GetBySlugInput.slug (reader_input c2) = slug →
  let_through (now (reader_env c1)) (reader_ctx c1) (secretAccessRateLimit sv) = true →
  let_through (now (reader_env c2)) (reader_ctx c2)
    (after_admission (now (reader_env c1)) (reader_ctx c1) (secretAccessRateLimit sv))
    = true →
  has_expired (now (reader_env c1)) secret = false →
  has_expired (now (reader_env c2)) secret = false →
  password_passes (GetBySlugInput.password (reader_input c1)) secret = true →
  password_passes (GetBySlugInput.password (reader_input c2)) secret = true →
  accessLogFails (reader_env c1) = false →
  accessLogFails (reader_env c2) = false →
  secretUpdateFails c1 = false →
  secretUpdateFails c2 = false →
  let pool := [(c1, Called); (c2, Called)] in
  (interleave [0; 0; 0; 0; 1; 1; 1; 1]%nat pool sv).2 =
    [(c1, Settled (Return (disclosed secret)));
     (c2, Settled (Throw (TRPCError NOT_FOUND "Secret has already been accessed")))] ∧
  (interleave [0; 1; 0; 1; 0; 1; 0; 1]%nat pool sv).2 =
    [(c1, Settled (Return (disclosed secret)));
     (c2, Settled (Return (disclosed secret)))].
Proof.
  intros Hwf Hfind Hone Hfresh Hs1 Hs2 Hadm1 Hadm2 Hlive1 Hlive2 Hpw1 Hpw2
    Hlog1 Hlog2 Hup1 Hup2 pool.
  assert (Hcons : consumed secret = false)
    by (unfold consumed; by rewrite Hfresh, andb_false_r).
  pose proof Hfind as [Hin Hslug]%RouterFacts.lookup_slug_Some.
  assert (Hid : is_Some (head (filter (λ s, Secret.id s = Secret.id secret)
                                 (secrets (db sv)))))
    by (by apply (RouterFacts.head_filter_is_Some _ _ secret)).
  split.
  - subst pool. simpl.
    rewrite (Called_let_through c1 sv Hadm1).
    rewrite (Finding_passes c1 _ secret) by (done || by rewrite Hs1).
    rewrite step_Logging, Hlog1, Hone.
    rewrite Marking_stored by done.
    rewrite Called_let_through by done.
    set (marked := set_updatedAt (now (reader_env c1)) (mark_accessed secret)).
    rewrite (Finding_consumed c2 _ marked).
    + by rewrite !step_Settled.
    + rewrite Hs2. apply RouterFacts.lookup_slug_unique.
      * eapply RouterFacts.table_step_wf; [exact Hwf|]. simpl.
        apply (table_update None), RouterFacts.keeps_mark_accessed.
      * simpl. apply list_elem_of_fmap. exists secret.
        split; [|done]. by rewrite decide_True.
      * subst marked. by destruct secret.
    + subst marked. unfold has_expired in *. by destruct secret.
    + subst marked. unfold consumed. destruct secret. simpl in *. by rewrite Hone.
  - subst pool. simpl.
    rewrite (Called_let_through c1 sv Hadm1).
    rewrite Called_let_through by done.
    rewrite (Finding_passes c1 _ secret) by (done || by rewrite Hs1).
    rewrite (Finding_passes c2 _ secret) by (done || by rewrite Hs2).
    rewrite step_Logging, Hlog1, Hone.
    rewrite step_Logging, Hlog2, Hone.
    rewrite Marking_stored by done.
    rewrite Marking_stored; [done|done|].
    unfold lookup_id. simpl.
    by apply lookup_id_update_where_id; [apply RouterFacts.keeps_mark_accessed|].
Qed.

(** What a [create] that returns has stored. *)
Lemma create_returns env ctx input sv out :
  (create env ctx input sv).2 = Return out →
  let row := secret_data env ctx input in
  out = created row ∧
  secrets (db (create env ctx input sv).1) = secrets (db sv) ++ [row] ∧
  accessLogs (db (create env ctx input sv).1) = accessLogs (db sv) ∧
  secretAccessRateLimit (create env ctx input sv).1 = secretAccessRateLimit sv.
Proof.
  rewrite RouterFacts.create_run.
  destruct (Nat.ltb _ 1); [done|]. simpl.
  destruct (negb _); [done|].
  destruct (decide _); [done|]. simpl. by intros [= <-].
Qed.

(** C1.  The code marks a one-time secret only after it has read it, logged
    the access and given control back twice, so the claim holds of requests
    served one after the other and fails of requests in flight together.
    Take a [create] with [isOneTimeAccess = true] that returns, on a table
    with unique keys, and two calls of [getBySlug] for the returned slug,
    both let through by the limiter, both before the expiration and both
    passing the password gate, with a store that accepts their writes.
    Served one after the other, the first returns the content and the second
    throws [NOT_FOUND] "Secret has already been accessed".  When the second
    has read the row before the first has marked it, both return the
    content: the secret is disclosed twice. *)
Theorem one_time_secret_disclosed_twice env ctx input sv out c1 c2 :
  wf_db (db sv) →
  CreateInput.isOneTimeAccess input = true →
  (create env ctx input sv).2 = Return out →
  let sv1 := (create env ctx input sv).1 in
  let row := secret_data env ctx input in
  GetBySlugInput.slug (reader_input c1) = Created.slug out →
  GetBySlugInput.slug (reader_input c2) = Created.slug out →
  let_through (now (reader_env c1)) (reader_ctx c1) (secretAccessRateLimit sv1) = true →
  let_through (now (reader_env c2)) (reader_ctx c2)
    (after_admission (now (reader_env c1)) (reader_ctx c1) (secretAccessRateLimit sv1))
    = true →
  has_expired (now (reader_env c1)) row = false →
  has_expired (now (reader_env c2)) row = false →
  password_passes (GetBySlugInput.password (reader_input c1)) row = true →
  password_passes (GetBySlugInput.password (reader_input c2)) row = true →
  accessLogFails (reader_env c1) = false →
  accessLogFails (reader_env c2) = false →
  secretUpdateFails c1 = false →
  secretUpdateFails c2 = false →
  let pool := [(c1, Called); (c2, Called)] in
  ∃ d,
    Disclosed.content d = CreateInput.content input ∧
    Disclosed.isOneTimeAccess d = true ∧
    (interleave [0; 0; 0; 0; 1; 1; 1; 1]%nat pool sv1).2 =
      [(c1, Settled (Return d));
       (c2, Settled (Throw (TRPCError NOT_FOUND "Secret has already been accessed")))] ∧
    (interleave [0; 1; 0; 1; 0; 1; 0; 1]%nat pool sv1).2 =
      [(c1, Settled (Return d)); (c2, Settled (Return d))].
Proof.
  intros Hwf Hone Hmade sv1 row Hs1 Hs2 Hadm1 Hadm2 Hlive1 Hlive2 Hpw1 Hpw2
    Hlog1 Hlog2 Hup1 Hup2 pool.
  destruct (create_returns env ctx input sv out Hmade) as (-> & Hrows & _ & _).
  fold row in Hrows. fold sv1 in Hrows.
  assert (Hwf1 : wf_db (db sv1))
    by exact (RouterFacts.serve_wf env ctx (Create input) sv Hwf).
  assert (Hfind : lookup_slug (Created.slug (created row)) sv1 = Some row).
  { apply RouterFacts.lookup_slug_unique; [done| |done].
    rewrite Hrows. apply elem_of_app. right. by left. }
  exists (disclosed row). split; [done|]. split; [done|].
  exact (two_readers c1 c2 (Created.slug (created row)) sv1 row Hwf1 Hfind Hone eq_refl
           Hs1 Hs2 Hadm1 Hadm2 Hlive1 Hlive2 Hpw1 Hpw2 Hlog1 Hlog2 Hup1 Hup2).
Qed.

(** *** What a call leaves behind *)

(** The call that nothing interrupts, by the secret whose access it logs:
    with one, it returns that secret unless its update is rejected; with
    none, it throws and has only been counted by the limiter. *)
Lemma getBySlug_alone_logged c sv :
  let env := reader_env c in
  let ctx := reader_ctx c in
  let sv1 := with_access_limiter sv
               (after_admission (now env) ctx (secretAccessRateLimit sv)) in
  match logged c sv with
  | Some secret =>
      lookup_slug (GetBySlugInput.slug (reader_input c)) sv = Some secret ∧
      getBySlug_alone c sv =
        if Secret.isOneTimeAccess secret && secretUpdateFails c then
          (with_db sv1
             {| secrets := secrets (db sv);
                accessLogs := accessLogs (db sv) ++ [accessLog_data env ctx secret] |},
           Settled (Throw (PrismaError StoreUnavailable)))
        else
          (with_db sv1
             {| secrets :=
                  if Secret.isOneTimeAccess secret
                  then update_where_id (now env) (Secret.id secret) mark_accessed
                         (secrets (db sv))
                  else secrets (db sv);
                accessLogs := accessLogs (db sv) ++ [accessLog_data env ctx secret] |},
           Settled (Return (disclosed secret)))
  | None => ∃ e, getBySlug_alone c sv = (sv1, Settled (Throw e))
  end.
Proof.
  simpl. rewrite getBySlug_alone_run. unfold logged. simpl.
  destruct (let_through _ _ _); simpl; [|by eexists].
  destruct (lookup_slug _ sv) as [secret|]; [|by eexists].
  destruct (has_expired _ secret); simpl; [by eexists|].
  destruct (consumed secret); simpl; [by eexists|].
  destruct (password_passes _ secret) eqn:Hpw; simpl.
  - rewrite (passes_no_password_required _ _ Hpw).
    destruct (accessLogFails _); simpl; [by eexists|done].
  - destruct (truthy (Secret.password secret) && negb _); by eexists.
Qed.

(** X6. A [getBySlug] that nothing interrupts and that throws leaves the
    stored secrets as they were.  It leaves the access log as it was too,
    with one exception: when the store rejects the update that marks a
    one-time secret, the call throws after its entry has been written, and
    the entry stays.  Thrown or returned, the call never touches the
    creation limiter, and the access limiter has counted the attempt of a
    request that has a request object. *)
Theorem getBySlug_failure_changes_nothing c sv :
  let env := reader_env c in
  let ctx := reader_ctx c in
  let out := getBySlug_alone c sv in
  (∃ o, out.2 = Settled o) ∧
  (∀ e, out.2 = Settled (Throw e) →
     secrets (db out.1) = secrets (db sv) ∧
     match logged c sv with
     | None => accessLogs (db out.1) = accessLogs (db sv)
     | Some secret =>
         Secret.isOneTimeAccess secret = true ∧ secretUpdateFails c = true ∧
         e = PrismaError StoreUnavailable ∧
         accessLogs (db out.1) = accessLogs (db sv) ++ [accessLog_data env ctx secret]
     end) ∧
  (∀ secret, logged c sv = Some secret →
     Secret.isOneTimeAccess secret = true → secretUpdateFails c = true →
     out.2 = Settled (Throw (PrismaError StoreUnavailable))) ∧
  (secretUpdateFails c = false → ∀ e, out.2 = Settled (Throw e) → db out.1 = db sv) ∧
  secretCreateRateLimit out.1 = secretCreateRateLimit sv ∧
  secretAccessRateLimit out.1 =
    match req ctx with
    | Some r => (RateLimit.check (now env) (RateLimit.getClientIdentifier r)
                   (secretAccessRateLimit sv)).1
    | None => secretAccessRateLimit sv
    end.
Proof.
  simpl. pose proof (getBySlug_alone_logged c sv) as Hrun. simpl in Hrun.
  unfold after_admission in *.
  destruct (logged c sv) as [secret|].
  - destruct Hrun as [_ ->].
    destruct (Secret.isOneTimeAccess secret) eqn:Hone, (secretUpdateFails c); simpl.
    all: split; [by eexists|].
    all: split; [intros e ?; by simplify_eq|].
    all: split; [intros ? ? ? ?; simplify_eq; congruence|].
    all: split; [intros ? ? ?; by simplify_eq|].
    all: done.
  - destruct Hrun as [e ->]. simpl.
    split; [by eexists|]. split; [done|]. split; [done|]. split; [|done].
    intros _ e' _. by destruct sv.
Qed.

(** X7. The access log is append-only.  [create], [checkRequirements] and
    [update] leave it as it is.  Each step of a [getBySlug] keeps every
    entry in place, and only the step that awaits [accessLog.create] adds
    one, the entry of the secret the call has read, unless the store rejects
    it.  Over a call that nothing interrupts, one entry is added when the
    call returns, with the id of the disclosed secret and the instant of the
    request; none is added when it throws, except when what it throws is the
    rejection of its update, after the entry was written. *)
Theorem access_log_append_only env ctx (c : Call) rd st sv :
  ((∀ id, c ≠ Delete id) → (∀ input, c ≠ GetBySlug input) →
   accessLogs (db (serve env ctx c sv)) = accessLogs (db sv)) ∧
  accessLogs (db (getBySlug_step rd st sv).1) =
    accessLogs (db sv) ++
    match st with
    | Logging secret =>
        if accessLogFails (reader_env rd) then []
        else [accessLog_data (reader_env rd) (reader_ctx rd) secret]
    | _ => []
    end ∧
  let out := getBySlug_alone rd sv in
  (∀ d, out.2 = Settled (Return d) →
     ∃ entry, accessLogs (db out.1) = accessLogs (db sv) ++ [entry] ∧
              AccessLog.secretId entry = Disclosed.id d ∧
              AccessLog.accessedAt entry = now (reader_env rd)) ∧
  (∀ e, out.2 = Settled (Throw e) →
     accessLogs (db out.1) = accessLogs (db sv) ∨
     (secretUpdateFails rd = true ∧ e = PrismaError StoreUnavailable ∧
      ∃ entry, accessLogs (db out.1) = accessLogs (db sv) ++ [entry])).
Proof.
  split; [|split].
  - intros Hnd Hng. destruct c as [input|input|slug|id|input]; simpl.
    + rewrite RouterFacts.create_run.
      destruct (Nat.ltb _ 1); [done|]. simpl.
      destruct (negb _); [done|]. by destruct (decide _).
    + by destruct (Hng input).
    + rewrite RouterFacts.checkRequirements_run.
      destruct (lookup_slug _ sv) as [secret|]; [|done].
      destruct (has_expired _ _); [done|]. by destruct (consumed _).
    + by destruct (Hnd id).
    + rewrite RouterFacts.update_run.
      destruct (user ctx); [|done]. destruct (lookup_id _ sv); [|done].
      destruct (decide _); [done|]. by destruct (title_expiresAt_data _ _).
  - destruct st as [| |secret|secret|out].
    + by rewrite step_Called, app_nil_r.
    + by rewrite step_Finding, app_nil_r.
    + rewrite step_Logging. destruct (accessLogFails _); [by rewrite app_nil_r|done].
    + rewrite step_Marking, app_nil_r. destruct (secretUpdateFails rd); [done|].
      by destruct (lookup_id _ sv).
    + by rewrite step_Settled, app_nil_r.
  - simpl. pose proof (getBySlug_alone_logged rd sv) as Hrun. simpl in Hrun.
    destruct (logged rd sv) as [secret|].
    + destruct Hrun as [_ ->].
      destruct (Secret.isOneTimeAccess secret), (secretUpdateFails rd); simpl.
      all: split; [intros d ?; simplify_eq|intros e ?; simplify_eq].
      all: try (eexists; split; [done|]; by split).
      right. split; [done|]. split; [done|]. by eexists.
    + destruct Hrun as [e ->]. simpl. split; [done|]. intros e' _. by left.
Qed.

(** X16. The access count of the listing follows the log.  After a
    [getBySlug] that nothing interrupts and that returns a secret, the count
    shown for that secret is one more than before and the counts of the
    other secrets are as before.  A call that throws changes no count,
    except the call whose update of a one-time secret the store rejects: it
    throws, and it is counted for that secret all the same. *)
Theorem disclosure_counted_once rd sv s :
  let out := getBySlug_alone rd sv in
  let before := Listed.accessCount (listed (db sv) s) in
  let after := Listed.accessCount (listed (db out.1) s) in
  (∀ d, out.2 = Settled (Return d) →
     after = before + if decide (Disclosed.id d = Secret.id s) then 1 else 0) ∧
  (∀ e, out.2 = Settled (Throw e) →
     after = before +
       match logged rd sv with
       | Some secret => if decide (Secret.id secret = Secret.id s) then 1 else 0
       | None => 0
       end) ∧
  (secretUpdateFails rd = false → ∀ e, out.2 = Settled (Throw e) → after = before).
Proof.
  simpl. unfold count_accessLogs.
  pose proof (getBySlug_alone_logged rd sv) as Hrun. simpl in Hrun.
  destruct (logged rd sv) as [secret|].
  - destruct Hrun as [_ ->].
    assert (Hcount : ∀ logs,
      Z.of_nat (length (filter (λ l, AccessLog.secretId l = Secret.id s)
                          (logs ++ [accessLog_data (reader_env rd) (reader_ctx rd) secret])))
      = Z.of_nat (length (filter (λ l, AccessLog.secretId l = Secret.id s) logs))
        + if decide (Secret.id secret = Secret.id s) then 1 else 0).
    { intros logs. rewrite filter_app, length_app, filter_cons, filter_nil. simpl.
      destruct (decide (Secret.id secret = Secret.id s)); simpl; lia. }
    destruct (Secret.isOneTimeAccess secret), (secretUpdateFails rd); simpl.
    all: split; [intros d ?; simplify_eq|split; [intros e ?; simplify_eq|]].
    all: try apply Hcount.
    all: intros ? e ?; simplify_eq.
  - destruct Hrun as [e ->]. simpl.
    split; [done|]. split; [intros; lia|done].
Qed.

End WithBcrypt.
#[local] Existing Instance toy_bcrypt.

Lemma one_time_secret_disclosed_twice_witness :
  let env := env_at 5 "slug-a" "slug-b" "id1" false in
  let input := CreateInput.mk None "X" None None true in
  let sv1 := (create env anonymous input (server_with [])).1 in
  let c1 := reader (env_at 6 "s" "t" "log1" false) anonymous
              (GetBySlugInput.mk "slug-a" None) in
  let c2 := reader (env_at 7 "s" "t" "log2" false) anonymous
              (GetBySlugInput.mk "slug-a" None) in
  (interleave [0; 1; 0; 1; 0; 1; 0; 1]%nat [(c1, Called); (c2, Called)] sv1).2 =
    [(c1, Settled (Return (Disclosed.mk "id1" None "X" None true 5)));
     (c2, Settled (Return (Disclosed.mk "id1" None "X" None true 5)))].
Proof.
  intros env input sv1 c1 c2.
  assert (Hwf : wf_db (db (server_with []))) by (split; apply NoDup_nil_2).
  destruct (one_time_secret_disclosed_twice env anonymous input (server_with [])
              (created (secret_data env anonymous input)) c1 c2 Hwf)
    as (d & _ & _ & _ & Hboth); [reflexivity..|].
  assert (Hd : Settled (Return d)
               = Settled (Return (Disclosed.mk "id1" None "X" None true 5))).
  { assert (Hfirst : ∀ l l' : list (Reader * Stage), l = l' → (snd <$> head l) = (snd <$> head l'))
      by (by intros ?? ->).
    apply Hfirst in Hboth. simpl in Hboth. injection Hboth as Hboth.
    rewrite <- Hboth. reflexivity. }
  injection Hd as ->. exact Hboth.
Defined.

Lemma getBySlug_failure_changes_nothing_witness :
  let secret := a_secret "id1" "slug-a" None true false in
  let sv := server_with [secret] in
  let c := {| reader_env := env_at 5 "s" "t" "log1" false;
              reader_ctx := anonymous;
              reader_input := GetBySlugInput.mk "slug-a" None;
              secretUpdateFails := true |} in
  (getBySlug_alone c sv).2 = Settled (Throw (PrismaError StoreUnavailable)) ∧
  secrets (db (getBySlug_alone c sv).1) = [secret] ∧
  length (accessLogs (db (getBySlug_alone c sv).1)) = 1%nat.
Proof.
  intros secret sv c.
  destruct (getBySlug_failure_changes_nothing c sv) as (_ & Hthrow & Hrejected & _).
  assert (Hout : (getBySlug_alone c sv).2 = Settled (Throw (PrismaError StoreUnavailable)))
    by (apply (Hrejected secret); reflexivity).
  split; [exact Hout|].
  destruct (Hthrow _ Hout) as [Hrows Hlogs].
  split; [exact Hrows|].
  change (logged c sv) with (Some secret) in Hlogs.
  destruct Hlogs as (_ & _ & _ & ->). reflexivity.
Defined.

Lemma access_log_append_only_witness :
  let secret := a_secret "id1" "slug-a" None false false in
  let sv := server_with [secret] in
  let env := env_at 5 "s" "t" "log1" false in
  let rd := reader env anonymous (GetBySlugInput.mk "slug-a" None) in
  accessLogs (db (getBySlug_step rd (Logging secret) sv).1) =
    [accessLog_data env anonymous secret] ∧
  ∃ entry, accessLogs (db (getBySlug_alone rd sv).1) = [entry] ∧
           AccessLog.secretId entry = "id1" ∧ AccessLog.accessedAt entry = 5.
Proof.
  intros secret sv env rd.
  destruct (access_log_append_only env anonymous (CheckRequirements "slug-a") rd
              (Logging secret) sv) as (_ & Hstep & Hreturn & _).
  split; [exact Hstep|].
  destruct (Hreturn (disclosed secret) eq_refl) as (entry & Hlogs & Hid & Hat).
  exists entry. split; [exact Hlogs|]. split; [exact Hid|exact Hat].
Defined.

Lemma disclosure_counted_once_witness :
  let secret := a_secret "id1" "slug-a" None true false in
  let sv := server_with [secret] in
  let c := {| reader_env := env_at 5 "s" "t" "log1" false;
              reader_ctx := anonymous;
              reader_input := GetBySlugInput.mk "slug-a" None;
              secretUpdateFails := true |} in
  (getBySlug_alone c sv).2 = Settled (Throw (PrismaError StoreUnavailable)) ∧
  Listed.accessCount (listed (db (getBySlug_alone c sv).1) secret) = 1.
Proof.
  intros secret sv c.
  assert (Hout : (getBySlug_alone c sv).2 = Settled (Throw (PrismaError StoreUnavailable)))
    by reflexivity.
  split; [exact Hout|].
  destruct (disclosure_counted_once c sv secret) as (_ & Hthrow & _).
  rewrite (Hthrow _ Hout). reflexivity.
Defined.

End AwaitFacts.
